(** * messageFormatter: content-type detector and Markdown-to-HTML converter

    A shallow embedding of
    [force-app/main/default/lwc/messageFormatter/messageFormatter.js].

    JavaScript strings are sequences of UTF-16 code units; they are modelled
    as lists of [N].  The regular expressions of the module are kept as data
    ([regex]) and run by a backtracking matcher written after the
    continuation-passing matcher of the ECMAScript specification, so that
    greedy quantifiers, alternation order, capture groups and the search for
    the leftmost match behave as they do in the engine. *)

From Stdlib Require Import String Ascii.
From Stdlib Require Import List NArith ZArith Arith Bool Lia Permutation.
From Stdlib Require Decimal DecimalNat.
Import ListNotations.

Local Open Scope N_scope.

(** ** Strings and character classes *)

Definition cu := N.
Definition jsstring := list cu.

(** ASCII literal of the source as a sequence of code units. *)
Definition str (s : string) : jsstring :=
  map N_of_ascii (list_ascii_of_string s).
Arguments str s%_string.

Definition LF : cu := 10.

(** [\d] *)
Definition is_digit (c : cu) : bool := (48 <=? c) && (c <=? 57).

(** LineTerminator: LF, CR, LS, PS. *)
Definition is_line_terminator (c : cu) : bool :=
  (c =? 10) || (c =? 13) || (c =? 8232) || (c =? 8233).

(** [\s], and the set removed by [String.prototype.trim]: WhiteSpace
    (TAB, VT, FF, SP, NBSP, ZWNBSP and the category Zs) and LineTerminator. *)
Definition is_space (c : cu) : bool :=
  (c =? 9) || (c =? 11) || (c =? 12) || (c =? 32) || (c =? 160) ||
  (c =? 5760) || ((8192 <=? c) && (c <=? 8202)) || (c =? 8239) ||
  (c =? 8287) || (c =? 12288) || (c =? 65279) || is_line_terminator c.

(** [.] without the s flag *)
Definition is_dot (c : cu) : bool := negb (is_line_terminator c).

Definition is_char (a : cu) (c : cu) : bool := c =? a.
Definition not_char (a : cu) (c : cu) : bool := negb (c =? a).

(** Canonicalize of a regular expression with the i flag and without the u
    flag, on the code units the patterns of this module can tell apart: the
    patterns hold ASCII letters only, and a code unit above 127 is never
    canonicalized to one below 128. *)
Definition to_upper (c : cu) : cu :=
  if (97 <=? c) && (c <=? 122) then c - 32 else c.
Definition to_lower (c : cu) : cu :=
  if (65 <=? c) && (c <=? 90) then c + 32 else c.

Definition chr_match (ic : bool) (a ch : cu) : bool :=
  if ic then to_upper a =? to_upper ch else a =? ch.

Definition cls_match (ic : bool) (p : cu -> bool) (ch : cu) : bool :=
  if ic then p ch || p (to_upper ch) || p (to_lower ch) else p ch.

Fixpoint drop_while (p : cu -> bool) (s : jsstring) : jsstring :=
  match s with
  | c :: s' => if p c then drop_while p s' else s
  | [] => []
  end.

Fixpoint take_while (p : cu -> bool) (s : jsstring) : jsstring :=
  match s with
  | c :: s' => if p c then c :: take_while p s' else []
  | [] => []
  end.

(** [String.prototype.trim] *)
Definition trim (s : jsstring) : jsstring :=
  rev (drop_while is_space (rev (drop_while is_space s))).

(** [String.prototype.split] with a one-unit string separator. *)
Fixpoint split_on (sep : cu) (s : jsstring) : list jsstring :=
  match s with
  | [] => [[]]
  | c :: s' =>
      if c =? sep then [] :: split_on sep s'
      else match split_on sep s' with
           | l :: ls => (c :: l) :: ls
           | [] => [[c]]
           end
  end.

(** [Array.prototype.join('')] *)
Definition join (l : list jsstring) : jsstring := concat l.

Fixpoint uint_digits (u : Decimal.uint) : jsstring :=
  match u with
  | Decimal.Nil => []
  | Decimal.D0 u => 48 :: uint_digits u
  | Decimal.D1 u => 49 :: uint_digits u
  | Decimal.D2 u => 50 :: uint_digits u
  | Decimal.D3 u => 51 :: uint_digits u
  | Decimal.D4 u => 52 :: uint_digits u
  | Decimal.D5 u => 53 :: uint_digits u
  | Decimal.D6 u => 54 :: uint_digits u
  | Decimal.D7 u => 55 :: uint_digits u
  | Decimal.D8 u => 56 :: uint_digits u
  | Decimal.D9 u => 57 :: uint_digits u
  end.

(** Number-to-string conversion of a template literal, for a length. *)
Definition number_to_string (n : nat) : jsstring := uint_digits (Nat.to_uint n).

(** ** Regular expressions *)

(** The patterns of the module quantify single-character atoms only, so the
    quantifier carries a character class. *)
Inductive regex : Type :=
| Eps
| Chr (a : cu)
| Cls (p : cu -> bool)
| Rep (p : cu -> bool) (min : nat) (max : option nat)
| Seq (r1 r2 : regex)
| Alt (r1 r2 : regex)
| Grp (n : nat) (r : regex)
| Bol.

Definition seqs (l : list regex) : regex := fold_right Seq Eps l.

Fixpoint alts (r : regex) (l : list regex) : regex :=
  match l with
  | [] => r
  | r' :: l' => Alt r (alts r' l')
  end.

Definition lit (s : string) : regex := seqs (map Chr (str s)).
Arguments lit s%_string.

Definition star (p : cu -> bool) : regex := Rep p 0 None.
Definition plus (p : cu -> bool) : regex := Rep p 1 None.
Definition opt (p : cu -> bool) : regex := Rep p 0 (Some 1%nat).

(** Matcher state: the index reached, the input from that index on, and the
    captures recorded so far (most recent first). *)
Record mstate : Type := MState {
  endIndex : nat;
  rest : jsstring;
  captures : list (nat * jsstring)
}.

Definition continuation := mstate -> option mstate.

(** RepeatMatcher for a one-character atom, greedy: one more repetition is
    tried first; the continuation is tried at this point only when the
    minimum is reached and the longer attempts have failed. *)
Fixpoint rep (q : cu -> bool) (mn : nat) (mx : option nat)
    (i : nat) (s : jsstring) (k : nat -> jsstring -> option mstate)
    {struct s} : option mstate :=
  match mx with
  | Some O => k i s
  | _ =>
      match s with
      | ch :: s' =>
          if q ch then
            match rep q (pred mn) (option_map pred mx) (S i) s' k with
            | Some z => Some z
            | None => if Nat.eqb mn 0 then k i s else None
            end
          else if Nat.eqb mn 0 then k i s else None
      | [] => if Nat.eqb mn 0 then k i s else None
      end
  end.

Fixpoint matcher (ic : bool) (r : regex) (x : mstate) (c : continuation)
    {struct r} : option mstate :=
  match r with
  | Eps => c x
  | Chr a =>
      match rest x with
      | ch :: s =>
          if chr_match ic a ch
          then c (MState (S (endIndex x)) s (captures x)) else None
      | [] => None
      end
  | Cls p =>
      match rest x with
      | ch :: s =>
          if cls_match ic p ch
          then c (MState (S (endIndex x)) s (captures x)) else None
      | [] => None
      end
  | Rep p mn mx =>
      rep (cls_match ic p) mn mx (endIndex x) (rest x)
          (fun i s => c (MState i s (captures x)))
  | Seq r1 r2 => matcher ic r1 x (fun y => matcher ic r2 y c)
  | Alt r1 r2 =>
      match matcher ic r1 x c with
      | Some z => Some z
      | None => matcher ic r2 x c
      end
  | Grp n r =>
      matcher ic r x (fun y =>
        c (MState (endIndex y) (rest y)
             ((n, firstn (endIndex y - endIndex x) (rest x)) :: captures y)))
  | Bol => if Nat.eqb (endIndex x) 0 then c x else None
  end.

(** One attempt at index [i], where [s] is the input from [i] on. *)
Definition match_at (ic : bool) (r : regex) (i : nat) (s : jsstring)
  : option mstate :=
  matcher ic r (MState i s []) (fun y => Some y).

(** [m[n]] of a match result; a group that did not take part reads as the
    empty string (every group of the patterns below takes part in every
    match). *)
Fixpoint lookup (n : nat) (l : list (nat * jsstring)) : jsstring :=
  match l with
  | [] => []
  | (k, v) :: l' => if Nat.eqb k n then v else lookup n l'
  end.

Definition group (n : nat) (y : mstate) : jsstring := lookup n (captures y).

(** RegExpBuiltinExec without the g and y flags: the first index, from 0 up
    to the length of the input, at which the pattern matches. *)
Fixpoint search (ic : bool) (r : regex) (i : nat) (s : jsstring)
  : option (nat * mstate) :=
  match match_at ic r i s with
  | Some y => Some (i, y)
  | None =>
      match s with
      | [] => None
      | _ :: s' => search ic r (S i) s'
      end
  end.

Definition regex_exec (ic : bool) (r : regex) (s : jsstring) : option mstate :=
  match search ic r 0 s with
  | Some (_, y) => Some y
  | None => None
  end.

Definition regex_test (ic : bool) (r : regex) (s : jsstring) : bool :=
  match regex_exec ic r s with
  | Some _ => true
  | None => false
  end.

(** Replacement templates: literal text and [$n]. *)
Inductive repl : Type :=
| RLit (s : jsstring)
| RGrp (n : nat).

Definition expand (t : list repl) (y : mstate) : jsstring :=
  flat_map (fun e => match e with RLit s => s | RGrp n => group n y end) t.

(** [String.prototype.replace] with a global pattern.  The scan walks the
    input once; [skip] counts the code units still covered by the match
    found last, which are dropped; elsewhere the pattern is tried at the
    current index and, when it fails there, the code unit is copied.  An
    empty match puts the replacement in front of the next code unit. *)
Fixpoint replace_from (ic : bool) (r : regex) (t : list repl)
    (skip : nat) (i : nat) (s : jsstring) {struct s} : jsstring :=
  match skip with
  | S k =>
      match s with
      | [] => []
      | _ :: s' => replace_from ic r t k (S i) s'
      end
  | O =>
      match match_at ic r i s with
      | Some y =>
          expand t y ++
          match s with
          | [] => []
          | c :: s' =>
              match (endIndex y - i)%nat with
              | O => c :: replace_from ic r t 0 (S i) s'
              | S k => replace_from ic r t k (S i) s'
              end
          end
      | None =>
          match s with
          | [] => []
          | c :: s' => c :: replace_from ic r t 0 (S i) s'
          end
      end
  end.

Definition replace_all (ic : bool) (r : regex) (t : list repl) (s : jsstring)
  : jsstring :=
  replace_from ic r t 0 0 s.

(** [String.prototype.split] with a pattern that has the one capture group 1:
    the pieces between the matches, each followed by the capture of the match
    that ends it.  [cur] is the piece being read, reversed; a match that is
    empty at the start of a piece does not split. *)
Fixpoint split_from (ic : bool) (r : regex) (skip : nat) (i : nat)
    (cur : jsstring) (s : jsstring) {struct s} : list jsstring :=
  match s with
  | [] => [rev cur]
  | c :: s' =>
      match skip with
      | S k => split_from ic r k (S i) [] s'
      | O =>
          match match_at ic r i s with
          | Some y =>
              match (endIndex y - i)%nat, cur with
              | O, [] => split_from ic r 0 (S i) [c] s'
              | O, _ :: _ =>
                  rev cur :: group 1 y :: split_from ic r 0 (S i) [c] s'
              | S k, _ =>
                  rev cur :: group 1 y :: split_from ic r k (S i) [] s'
              end
          | None => split_from ic r 0 (S i) (c :: cur) s'
          end
      end
  end.

Definition regex_split (ic : bool) (r : regex) (s : jsstring) : list jsstring :=
  match s with
  | [] => match match_at ic r 0 [] with Some _ => [] | None => [[]] end
  | _ => split_from ic r 0 0 [] s
  end.

(** ** The module *)

Definition in_range (lo hi : cu) (c : cu) : bool := (lo <=? c) && (c <=? hi).

(** [[\s\/>]] *)
Definition tag_end (c : cu) : bool := is_space c || (c =? 47) || (c =? 62).

(** [/<\/?(p|br|strong|b|em|i|ul|ol|li|h[1-6]|a|div|span|blockquote|pre|code|table)[\s\/>]/i] *)
Definition HTML_PATTERN : regex :=
  seqs [ Chr 60; opt (is_char 47);
         Grp 1 (alts (lit "p")
                  [ lit "br"; lit "strong"; lit "b"; lit "em"; lit "i";
                    lit "ul"; lit "ol"; lit "li";
                    Seq (Chr 104) (Cls (in_range 49 54));
                    lit "a"; lit "div"; lit "span"; lit "blockquote";
                    lit "pre"; lit "code"; lit "table" ]);
         Cls tag_end ].

(** [/\*\*([^*]+)\*\*/g], [/\*([^*]+)\*/g] and [/`([^`]+)`/g] *)
Definition BOLD_RE : regex :=
  seqs [ Chr 42; Chr 42; Grp 1 (plus (not_char 42)); Chr 42; Chr 42 ].
Definition ITALIC_RE : regex :=
  seqs [ Chr 42; Grp 1 (plus (not_char 42)); Chr 42 ].
Definition CODE_RE : regex :=
  seqs [ Chr 96; Grp 1 (plus (not_char 96)); Chr 96 ].

Definition inlineFormat (s : jsstring) : jsstring :=
  let s := replace_all false BOLD_RE
             [RLit (str "<strong>"); RGrp 1; RLit (str "</strong>")] s in
  let s := replace_all false ITALIC_RE
             [RLit (str "<em>"); RGrp 1; RLit (str "</em>")] s in
  let s := replace_all false CODE_RE
             [RLit (str "<code>"); RGrp 1; RLit (str "</code>")] s in
  s.

Definition is_blank_tab (c : cu) : bool := (c =? 32) || (c =? 9).
Definition is_ul_marker (c : cu) : bool := (c =? 45) || (c =? 42) || (c =? 43).
Definition is_ol_delim (c : cu) : bool := (c =? 46) || (c =? 41).

(** [/^[ \t]*[-*+]\s+(.+)/] *)
Definition UL_RE : regex :=
  seqs [ Bol; star is_blank_tab; Cls is_ul_marker; plus is_space;
         Grp 1 (plus is_dot) ].
(** [/^[ \t]*\d+[.)]\s+(.+)/] *)
Definition OL_RE : regex :=
  seqs [ Bol; star is_blank_tab; plus is_digit; Cls is_ol_delim;
         plus is_space; Grp 1 (plus is_dot) ].
(** [/^(#{1,6})\s+(.+)/] *)
Definition H_RE : regex :=
  seqs [ Bol; Grp 1 (Rep (is_char 35) 1 (Some 6%nat)); plus is_space;
         Grp 2 (plus is_dot) ].
(** [/\.\s+(\d+)[.)]\s+/g] *)
Definition INLINE_OL_BREAK : regex :=
  seqs [ Chr 46; plus is_space; Grp 1 (plus is_digit); Cls is_ol_delim;
         plus is_space ].
(** [/\s+(\d+)[.)]\s+/], the separator of [content.split] *)
Definition INLINE_OL_SPLIT : regex :=
  seqs [ plus is_space; Grp 1 (plus is_digit); Cls is_ol_delim;
         plus is_space ].

(** The value of [listType] when it is not [null]. *)
Inductive list_type : Type := ul | ol.

(** [`${listType}`] *)
Definition list_type_string (t : option list_type) : jsstring :=
  match t with
  | Some ul => str "ul"
  | Some ol => str "ol"
  | None => str "null"
  end.

(** The variables of [markdownToHtml] that the loop updates. *)
Record conv : Type := Conv {
  out : list jsstring;
  listType : option list_type;
  listItems : list jsstring
}.

Definition conv_init : conv := Conv [] None [].

(** [`<${listType}>${listItems.join('')}</${listType}>`] *)
Definition list_block (t : option list_type) (items : list jsstring)
  : jsstring :=
  str "<" ++ list_type_string t ++ str ">" ++ join items
    ++ str "</" ++ list_type_string t ++ str ">".

Definition flushList (s : conv) : conv :=
  match listItems s with
  | [] => s
  | _ :: _ =>
      Conv (out s ++ [list_block (listType s) (listItems s)]) None []
  end.

Definition li (s : jsstring) : jsstring := str "<li>" ++ s ++ str "</li>".

Fixpoint every_other (l : list jsstring) : list jsstring :=
  match l with
  | [] => []
  | x :: l' => x :: match l' with [] => [] | _ :: l'' => every_other l'' end
  end.

(** The items an ordered-list line adds for its content. *)
Definition ol_items (content : jsstring) : list jsstring :=
  let inlineParts := regex_split false INLINE_OL_SPLIT content in
  if (1 <? length inlineParts)%nat then
    flat_map (fun part =>
                let itemText := trim part in
                match itemText with
                | [] => []
                | _ :: _ => [li (inlineFormat itemText)]
                end)
             (every_other inlineParts)
  else [li (inlineFormat content)].

Definition heading (lvl : nat) (s : jsstring) : jsstring :=
  str "<h" ++ number_to_string lvl ++ str ">" ++ s
    ++ str "</h" ++ number_to_string lvl ++ str ">".

Definition paragraph (s : jsstring) : jsstring := str "<p>" ++ s ++ str "</p>".

Definition push_out (s : conv) (b : jsstring) : conv :=
  Conv (out s ++ [b]) (listType s) (listItems s).

(** One turn of the loop over [lines]. *)
Definition step (s : conv) (line : jsstring) : conv :=
  match regex_exec false UL_RE line with
  | Some ulMatch =>
      let s := match listType s with Some ol => flushList s | _ => s end in
      Conv (out s) (Some ul)
           (listItems s ++ [li (inlineFormat (group 1 ulMatch))])
  | None =>
    match regex_exec false OL_RE line with
    | Some olMatch =>
        let s := match listType s with Some ul => flushList s | _ => s end in
        let content := group 1 olMatch in
        Conv (out s) (Some ol) (listItems s ++ ol_items content)
    | None =>
        match trim line with
        | [] =>
            match listType s with
            | Some _ => s
            | None => push_out (flushList s) (str "<br>")
            end
        | _ :: _ =>
            let s := flushList s in
            match regex_exec false H_RE line with
            | Some hMatch =>
                let lvl := length (group 1 hMatch) in
                push_out s (heading lvl (inlineFormat (group 2 hMatch)))
            | None => push_out s (paragraph (inlineFormat line))
            end
        end
    end
  end.

Definition run (lines : list jsstring) : conv := fold_left step lines conv_init.

(** ['.\n$1. '] *)
Definition BREAK_REPL : list repl :=
  [RLit (str "." ++ [LF]); RGrp 1; RLit (str ". ")].

(** The text after the normalization of inline ordered-list markers. *)
Definition prepass (text : jsstring) : jsstring :=
  replace_all false INLINE_OL_BREAK BREAK_REPL text.

(** The blocks pushed to [out] by the time [markdownToHtml] returns. *)
Definition blocks (text : jsstring) : list jsstring :=
  out (flushList (run (split_on LF (prepass text)))).

Definition markdownToHtml (text : jsstring) : jsstring := join (blocks text).

(** The argument of [renderMessageContent]: a string, or no value. *)
Inductive jsarg : Type :=
| JUndefined
| JNull
| JStr (s : jsstring).

(** [!text] *)
Definition falsy (text : jsarg) : bool :=
  match text with
  | JUndefined | JNull | JStr [] => true
  | JStr (_ :: _) => false
  end.

(** The control flow of [renderMessageContent] over a detector and a
    converter. *)
Definition render_with (isHtml : jsstring -> bool)
    (convert : jsstring -> jsstring) (text : jsarg) : jsstring :=
  if falsy text then []
  else match text with
       | JStr t => if isHtml t then t else convert t
       | _ => []
       end.

Definition renderMessageContent (text : jsarg) : jsstring :=
  render_with (regex_test true HTML_PATTERN) markdownToHtml text.


(** ** Declarative reading of the patterns *)

(** Quantifier bounds are consistent (a pattern with [{m,n}], [m > n], is a
    syntax error). *)
Fixpoint wf_regex (r : regex) : bool :=
  match r with
  | Rep _ mn (Some mx) => (mn <=? mx)%nat
  | Seq r1 r2 | Alt r1 r2 => wf_regex r1 && wf_regex r2
  | Grp _ r => wf_regex r
  | _ => true
  end.

Definition within (n : nat) (mx : option nat) : Prop :=
  match mx with
  | Some m => (n <= m)%nat
  | None => True
  end.

(** [reaches ic r x y]: some way of matching [r] from state [x] ends in
    state [y], whatever the order in which the matcher tries them. *)
Fixpoint reaches (ic : bool) (r : regex) (x y : mstate) : Prop :=
  match r with
  | Eps => y = x
  | Chr a =>
      exists ch s, rest x = ch :: s /\ chr_match ic a ch = true /\
                   y = MState (S (endIndex x)) s (captures x)
  | Cls p =>
      exists ch s, rest x = ch :: s /\ cls_match ic p ch = true /\
                   y = MState (S (endIndex x)) s (captures x)
  | Rep p mn mx =>
      exists w s, rest x = w ++ s /\ forallb (cls_match ic p) w = true /\
                  (mn <= length w)%nat /\ within (length w) mx /\
                  y = MState (endIndex x + length w) s (captures x)
  | Seq r1 r2 => exists m, reaches ic r1 x m /\ reaches ic r2 m y
  | Alt r1 r2 => reaches ic r1 x y \/ reaches ic r2 x y
  | Grp n r =>
      exists y0, reaches ic r x y0 /\
                 y = MState (endIndex y0) (rest y0)
                       ((n, firstn (endIndex y0 - endIndex x) (rest x))
                          :: captures y0)
  | Bol => endIndex x = 0%nat /\ y = x
  end.

(** What [/\s+(\d+)[.)]\s+/] does at one index, read off the pattern: each
    quantifier takes the longest run of its class. *)
Definition marker_at (i : nat) (s : jsstring) : option mstate :=
  let ws := take_while is_space s in
  let s1 := drop_while is_space s in
  let ds := take_while is_digit s1 in
  let s2 := drop_while is_digit s1 in
  match ws, ds, s2 with
  | _ :: _, _ :: _, d :: s3 =>
      if is_ol_delim d then
        match take_while is_space s3 with
        | _ :: _ =>
            Some (MState (i + length ws + length ds + 1
                          + length (take_while is_space s3))
                    (drop_while is_space s3) [(1%nat, ds)])
        | [] => None
        end
      else None
  | _, _, _ => None
  end.

(** The same for [/\.\s+(\d+)[.)]\s+/]. *)
Definition break_at (i : nat) (s : jsstring) : option mstate :=
  match s with
  | c :: t => if c =? 46 then marker_at (S i) t else None
  | [] => None
  end.

(** The rewrites the pre-pass may perform: code units are copied, except
    that a period, whitespace, a numeral, a [.] or [)] and whitespace become
    the period, a line break, the numeral, a period and a space. *)
Inductive prepass_rel : jsstring -> jsstring -> Prop :=
| PR_nil : prepass_rel [] []
| PR_copy c s s' : prepass_rel s s' -> prepass_rel (c :: s) (c :: s')
| PR_fire ws ds d ws' s s' :
    ws <> [] -> forallb is_space ws = true ->
    ds <> [] -> forallb is_digit ds = true ->
    is_ol_delim d = true ->
    ws' <> [] -> forallb is_space ws' = true ->
    prepass_rel s s' ->
    prepass_rel (46 :: ws ++ ds ++ d :: ws' ++ s)
                (46 :: LF :: ds ++ 46 :: 32 :: s').

Definition ends_with_digit (a : jsstring) : Prop :=
  exists p c, a = p ++ [c] /\ is_digit c = true.

(** [a] ends with a period and then whitespace only. *)
Definition ends_after_period (a : jsstring) : Prop :=
  exists p ws, a = p ++ 46 :: ws /\ ws <> [] /\ forallb is_space ws = true.

(** The structural tag names of the detector. *)
Definition TAG_NAMES : list string :=
  [ "p"; "br"; "strong"; "b"; "em"; "i"; "ul"; "ol"; "li";
    "h1"; "h2"; "h3"; "h4"; "h5"; "h6";
    "a"; "div"; "span"; "blockquote"; "pre"; "code"; "table" ]%string.

(** Equality of two strings up to the case of ASCII letters. *)
Fixpoint ci_eqb (a b : jsstring) : bool :=
  match a, b with
  | [], [] => true
  | x :: a', y :: b' => (to_upper x =? to_upper y) && ci_eqb a' b'
  | _, _ => false
  end.

(** The block a line gives when it is neither a list item nor blank. *)
Definition plain_block (line : jsstring) : jsstring :=
  match regex_exec false H_RE line with
  | Some hMatch =>
      heading (length (group 1 hMatch)) (inlineFormat (group 2 hMatch))
  | None => paragraph (inlineFormat line)
  end.

(** An inline ordered-list marker with the numeral [ds]: whitespace, the
    numeral, [.] or [)], whitespace. *)
Definition is_marker (m ds : jsstring) : Prop :=
  exists ws d ws',
    m = ws ++ ds ++ d :: ws' /\
    ws <> [] /\ forallb is_space ws = true /\
    ds <> [] /\ forallb is_digit ds = true /\
    is_ol_delim d = true /\
    ws' <> [] /\ forallb is_space ws' = true.

Definition starts_marker (s : jsstring) : Prop :=
  exists m ds tl, is_marker m ds /\ s = m ++ tl.

(** [marker_split s ps]: [ps] are the pieces of [s] between its markers,
    from left to right; no marker starts inside a piece, and each marker
    takes all the whitespace after it. *)
Inductive marker_split : jsstring -> list jsstring -> Prop :=
| MS_last p :
    (forall a b, p = a ++ b -> ~ starts_marker b) ->
    marker_split p [p]
| MS_cons p m ds tl ps :
    is_marker m ds ->
    (forall c t, tl = c :: t -> is_space c = false) ->
    (forall a b, p = a ++ b -> b <> [] -> ~ starts_marker (b ++ m ++ tl)) ->
    marker_split tl ps ->
    marker_split (p ++ m ++ tl) (p :: ps).

Definition nonempty (s : jsstring) : bool :=
  match s with [] => false | _ :: _ => true end.

(** The suffixes of a string that are not empty. *)
Fixpoint tails (p : jsstring) : list jsstring :=
  match p with
  | [] => []
  | _ :: p' => p :: tails p'
  end.

(** No marker starts inside [p] when [tail] follows it. *)
Definition marker_free (p tail : jsstring) : bool :=
  forallb (fun b => match marker_at 0 (b ++ tail) with
                    | None => true
                    | Some _ => false
                    end) (tails p).

(** [listType] is [null] exactly when no item is pending. *)
Definition accumulator_ok (s : conv) : Prop :=
  listType s = None <-> listItems s = [].

(** The number of asterisks of a string. *)
Definition stars (s : jsstring) : nat := count_occ N.eq_dec s 42.

(** A block with which any text is classified as HTML. *)
Definition detected (b : jsstring) : Prop :=
  forall t, regex_test true HTML_PATTERN (b ++ t) = true.

Definition all_detected (s : conv) : Prop := Forall detected (out s).

(** ** Further declarative notions *)

(** [t] holds a tag boundary: [<] or [</], a structural tag name in any
    letter case, and then whitespace, [/] or [>]. *)
Definition tag_boundary (t : jsstring) : Prop :=
  exists pre slash name nm c post,
    t = pre ++ 60 :: slash ++ nm ++ c :: post /\
    In name TAG_NAMES /\ ci_eqb nm (str name) = true /\
    (slash = [] \/ slash = [47]) /\ tag_end c = true.

(** The number of backticks of a string. *)
Definition ticks (s : jsstring) : nat := count_occ N.eq_dec s 96.

(** A pattern whose first character is [a] is not matched where another
    character stands. *)
Definition starts_with_char (r : regex) (a : cu) : Prop :=
  (forall i c t, (c =? a) = false -> match_at false r i (c :: t) = None) /\
  (forall i, match_at false r i [] = None).


(** [Array.prototype.join(sep)] for an array of strings. *)
Fixpoint join_with (sep : jsstring) (l : list jsstring) : jsstring :=
  match l with
  | [] => []
  | x :: l' =>
      match l' with
      | [] => x
      | _ :: _ => x ++ sep ++ join_with sep l'
      end
  end.

(** The number of decimal digits of a string. *)
Definition digits (s : jsstring) : nat := length (filter is_digit s).

(** A line of prose: no line feed and no digit; at most one asterisk and one
    backtick; the first character after the indentation is no list marker,
    and the first character is no hash. *)
Definition prose_line (l : jsstring) : bool :=
  forallb (fun c => negb (c =? 10) && negb (is_digit c)) l
  && (stars l <=? 1)%nat && (ticks l <=? 1)%nat
  && match drop_while is_blank_tab l with
     | c :: _ => negb (is_ul_marker c)
     | [] => true
     end
  && match l with
     | c :: _ => negb (c =? 35)
     | [] => true
     end.

(** What a line of prose becomes. *)
Definition prose_block (l : jsstring) : jsstring :=
  match trim l with
  | [] => str "<br>"
  | _ :: _ => paragraph l
  end.

(** One when items are pending, zero when none is. *)
Definition pending (s : conv) : nat :=
  match listItems s with [] => 0 | _ :: _ => 1 end.

(** The state in which a list line of kind [k] finds the accumulator: a
    pending list of the other kind has been flushed. *)
Definition enter_list (k : list_type) (s : conv) : conv :=
  match k, listType s with
  | ul, Some ol => flushList s
  | ol, Some ul => flushList s
  | _, _ => s
  end.

(** [line.trim() === ''] *)
Definition is_blank (l : jsstring) : bool := negb (nonempty (trim l)).

(** The shapes of the blocks of the converter. *)
Definition is_item (x : jsstring) : Prop := exists s, x = li s.

Inductive block_shape : jsstring -> Prop :=
| BS_paragraph s : block_shape (paragraph s)
| BS_break : block_shape (str "<br>")
| BS_heading lvl s : (1 <= lvl <= 6)%nat -> block_shape (heading lvl s)
| BS_list k items :
    items <> [] -> Forall is_item items ->
    block_shape (list_block (Some k) items).

Definition shaped (s : conv) : Prop :=
  Forall block_shape (out s) /\ Forall is_item (listItems s).

(** The code units that the converter writes of its own: those of the tags
    [p], [br], [ul], [ol], [li], [h1] to [h6], [strong], [em] and [code]
    with [<], [/] and [>], and the blank that the normalization puts after
    a numeral.  (The period of the normalization stands for a period of the
    text.) *)
Definition TAG_UNITS : jsstring := str "<>/ bcdeghilmnoprstu123456".

(** A text that holds none of these code units and makes the converter
    write every one of them: an empty line, the six headings, an unordered
    and an ordered item, a bold, an italic and a code span, and a numeral
    after a sentence, all with tabs for whitespace. *)
Definition ALL_TAGS_SAMPLE : jsstring :=
  join_with [LF]
    [ [];
      str "#" ++ 9 :: str "A";
      str "##" ++ 9 :: str "A";
      str "###" ++ 9 :: str "A";
      str "####" ++ 9 :: str "A";
      str "#####" ++ 9 :: str "A";
      str "######" ++ 9 :: str "A";
      str "-" ++ 9 :: str "A";
      str "7)" ++ 9 :: str "A";
      str "**A**";
      str "*A*";
      str "`A`";
      str "A." ++ 9 :: str "7)" ++ [9] ].

(** A code unit that the converter may write for [text]: no line feed, and
    one of the text or of the tags. *)
Definition from_text (text : jsstring) (c : cu) : Prop :=
  c <> LF /\ (In c text \/ In c TAG_UNITS).

(** A matcher state that holds code units with the property [P] only, in
    what is left of the input and in its captures. *)
Definition clean (P : cu -> Prop) (y : mstate) : Prop :=
  Forall P (rest y) /\ Forall (fun kv => Forall P (snd kv)) (captures y).

(** The blocks and the pending items hold code units with [P] only. *)
Definition conv_clean (P : cu -> Prop) (s : conv) : Prop :=
  Forall (Forall P) (out s) /\ Forall (Forall P) (listItems s).

(** * The session components

    [agentSessions_Home.js] shows the recent sessions of the user five to a
    page; the component [AgentGPT] lists them by date.  Both hand the text of
    a message to [renderMessageContent] and reduce the error of a failed call
    to the text of a toast.  Counts and page numbers are integers (the
    server sends an Apex [Integer]); they are modelled as [Z], on which
    [Math.ceil(a / b)] and [Math.min] are exact. *)

(** Number-to-string conversion of an integer. *)
Definition int_to_string (z : Z) : jsstring :=
  match z with
  | Z0 => str "0"
  | Zpos p => uint_digits (Pos.to_uint p)
  | Zneg p => 45 :: uint_digits (Pos.to_uint p)
  end.

(** A property that holds a string, when it is there. *)
Definition truthy (v : option jsstring) : bool :=
  match v with
  | Some (_ :: _) => true
  | _ => false
  end.

(** [a || b] *)
Definition or_else (a b : option jsstring) : option jsstring :=
  if truthy a then a else b.

(** ** The shapes of the errors of a failed call

    The fields that [reduceErrors] reads hold strings when they are there,
    [body] an object and [pageErrors] an array of objects. *)

(** An entry of [body.pageErrors]. *)
Record page_error : Type := PageError {
  pe_message : option jsstring
}.

Record error_body : Type := ErrorBody {
  body_message : option jsstring;
  pageErrors : option (list page_error)
}.

Record error_object : Type := ErrorObject {
  message : option jsstring;
  statusText : option jsstring;
  body : option error_body
}.

(** An element of an array of errors. *)
Inductive error_elem : Type :=
| ElNull
| ElString (s : jsstring)
| ElObject (o : error_object).

(** The argument of [reduceErrors]: [undefined] or [null], a string, an
    array, or one error object. *)
Inductive error_arg : Type :=
| EAbsent
| EString (s : jsstring)
| EArray (l : list error_elem)
| EObject (o : error_object).

(** [!!e] *)
Definition elem_truthy (e : error_elem) : bool :=
  match e with
  | ElNull | ElString [] => false
  | ElString (_ :: _) | ElObject _ => true
  end.

(** [o.body?.message] *)
Definition body_message_of (o : error_object) : option jsstring :=
  match body o with
  | Some b => body_message b
  | None => None
  end.

Definition UNKNOWN : option jsstring := Some (str "Unknown error").

(** The string a value of a mapped array contributes to [join]. *)
Definition to_text (v : option jsstring) : jsstring :=
  match v with Some s => s | None => [] end.

(** ** Messages

    A message as the server sends it; a field that is absent reads as
    [None].  Roles and timestamps are strings. *)
Record message_in : Type := MessageIn {
  msg_role : option jsstring;
  msg_text : jsarg;
  msg_timestamp : option jsstring
}.

(** [===] on strings. *)
Definition str_eqb (a b : jsstring) : bool :=
  if list_eq_dec N.eq_dec a b then true else false.

(** [Array.prototype.map] with the index, counted from [i]. *)
Fixpoint map_from {A B : Type} (f : A -> nat -> B) (i : nat) (l : list A)
  : list B :=
  match l with
  | [] => []
  | x :: l' => f x i :: map_from f (S i) l'
  end.

Module Home.

Definition PAGE_SIZE : Z := 5.

(** The tracked fields that the pager reads and writes. *)
Record pager : Type := Pager {
  currentPage : Z;
  totalCount : Z
}.

(** [Math.ceil(a / b)] *)
Definition ceil_div (a b : Z) : Z := (- ((- a) / b))%Z.

Definition hasPrevPage (p : pager) : bool := (1 <? currentPage p)%Z.

Definition totalPages (p : pager) : Z := ceil_div (totalCount p) PAGE_SIZE.

Definition hasNextPage (p : pager) : bool := (currentPage p <? totalPages p)%Z.

Definition prevButtonDisabled (p : pager) : bool := negb (hasPrevPage p).

Definition nextButtonDisabled (p : pager) : bool := negb (hasNextPage p).

(** [start] and [end] of [pageInfo]. *)
Definition page_start (p : pager) : Z :=
  ((currentPage p - 1) * PAGE_SIZE + 1)%Z.

Definition page_end (p : pager) : Z :=
  Z.min (currentPage p * PAGE_SIZE) (totalCount p).

(** The separator of the range as the file has it. *)
Definition RANGE_SEP : jsstring := [226; 8364; 8220].

Definition pageInfo (p : pager) : jsstring :=
  if (totalCount p =? 0)%Z then str "No conversations"
  else int_to_string (page_start p) ++ RANGE_SEP ++ int_to_string (page_end p)
         ++ str " of " ++ int_to_string (totalCount p).

(** How a call of [loadPage] ends: the [try] block runs to its end, with the
    [totalCount] of the result if it has one; or an exception reaches the
    [catch] clause, before [totalCount] and [currentPage] are assigned or
    after, and the clause resets the count; or the [catch] clause fails
    itself before it resets the count.  In the last case the pager is as
    the [try] block left it: unchanged ([Unhandled]), or as after a call
    that ran to its end. *)
Inductive outcome : Type :=
| Loaded (count : option Z)
| FailedBefore
| FailedAfter
| Unhandled.

(** The pager after [loadPage(pageNumber)] has settled. *)
Definition loadPage (pageNumber : Z) (o : outcome) (p : pager) : pager :=
  match o with
  | Loaded (Some n) => Pager pageNumber n
  | Loaded None => Pager pageNumber 0
  | FailedBefore => Pager (currentPage p) 0
  | FailedAfter => Pager pageNumber 0
  | Unhandled => p
  end.

(** The component with the calls of [loadPage] that have not settled. *)
Record home : Type := HomeState {
  page : pager;
  inflight : list Z
}.

Definition request (n : Z) (h : home) : home :=
  HomeState (page h) (inflight h ++ [n]).

(** [connectedCallback] on the fresh component. *)
Definition connectedCallback : home :=
  request 1 (HomeState (Pager 1 0) []).

Definition handlePrev (h : home) : home :=
  if hasPrevPage (page h) then request (currentPage (page h) - 1) h else h.

Definition handleNext (h : home) : home :=
  if hasNextPage (page h) then request (currentPage (page h) + 1) h else h.

Fixpoint remove_nth (k : nat) (l : list Z) : list Z :=
  match l, k with
  | [], _ => []
  | _ :: l', O => l'
  | x :: l', S k' => x :: remove_nth k' l'
  end.

(** What happens to the component: a click on a button, or the [k]-th
    pending call settles. *)
Inductive event : Type :=
| ClickPrev
| ClickNext
| Settle (k : nat) (o : outcome).

Definition react (h : home) (e : event) : home :=
  match e with
  | ClickPrev => handlePrev h
  | ClickNext => handleNext h
  | Settle k o =>
      match nth_error (inflight h) k with
      | Some n => HomeState (loadPage n o (page h)) (remove_nth k (inflight h))
      | None => h
      end
  end.

Definition after (es : list event) : home := fold_left react es connectedCallback.

(** [e.message || e.body?.message || 'Unknown error'] *)
Definition elem_message (e : error_elem) : option jsstring :=
  match e with
  | ElObject o => or_else (message o) (or_else (body_message_of o) UNKNOWN)
  | _ => UNKNOWN
  end.

(** [errors.body?.pageErrors?.length], zero when there is none. *)
Definition page_errors_length (o : error_object) : nat :=
  match body o with
  | Some b => match pageErrors b with Some l => length l | None => O end
  | None => O
  end.

(** [errors.body.pageErrors[0].message], read when the length is not zero. *)
Definition first_page_error (o : error_object) : option jsstring :=
  match body o with
  | Some b =>
      match pageErrors b with
      | Some (pe :: _) => pe_message pe
      | _ => None
      end
  | None => None
  end.

Definition reduceErrors (errors : error_arg) : option jsstring :=
  match errors with
  | EAbsent | EString [] => UNKNOWN
  | EArray l =>
      Some (join_with (str ", ")
              (map (fun e => to_text (elem_message e)) (filter elem_truthy l)))
  | EString s => Some s
  | EObject o =>
      if truthy (body_message_of o) then body_message_of o
      else
        match page_errors_length o with
        | O => or_else (message o) (or_else (statusText o) UNKNOWN)
        | S _ => first_page_error o
        end
  end.

(** *** Messages prepared for the overlay *)

Record message_out : Type := MessageOut {
  key : jsstring;
  text : jsarg;
  renderedContent : jsstring;
  formattedTime : jsstring;
  roleLabel : jsstring;
  isUser : bool;
  wrapperClass : jsstring
}.

Section Overlay.

(** [String.prototype.toUpperCase] and the [formatTime] of the component,
    which reads the clock settings of the browser. *)
Variable toUpperCase : jsstring -> jsstring.
Variable formatTime : option jsstring -> jsstring.

Definition overlay_message (agentName : option jsstring)
    (msg : message_in) (idx : nat) : message_out :=
  let role := toUpperCase (to_text (or_else (msg_role msg) (Some []))) in
  let isUser := str_eqb role (str "USER") || str_eqb role (str "ENDUSER") in
  let roleLabel :=
    if isUser then str "You"
    else to_text (or_else agentName (Some (str "Agentforce AI"))) in
  MessageOut
    (to_text (or_else (msg_timestamp msg) (Some [])) ++ number_to_string idx)
    (msg_text msg)
    (renderMessageContent (msg_text msg))
    (formatTime (msg_timestamp msg))
    roleLabel
    isUser
    (str "message-row").

Definition processMessagesForOverlay (messages : option (list message_in))
    (agentName : option jsstring) : list message_out :=
  match messages with
  | None => []
  | Some ms => map_from (overlay_message agentName) 0 ms
  end.

End Overlay.

(** *** Timestamps read as dates *)

(** [str.indexOf(c) !== -1] *)
Definition has (c : cu) (s : jsstring) : bool := existsb (N.eqb c) s.

(** [str.replace(a, b)] for one-unit strings: the first occurrence only. *)
Fixpoint replace_first (a b : cu) (s : jsstring) : jsstring :=
  match s with
  | [] => []
  | c :: s' => if c =? a then b :: s' else c :: replace_first a b s'
  end.

(** [normalized] of [parseSessionDate]. *)
Definition normalized (s : jsstring) : jsstring :=
  if has 32 s && negb (has 84 s) then replace_first 32 84 s else s.

Section Dates.

(** [new Date(s)] for a string, [None] when its time is [NaN]. *)
Variable date : Type.
Variable new_Date : jsstring -> option date.

Definition parseSessionDate (val : option jsstring) : option date :=
  match val with
  | None | Some [] => None
  | Some v =>
      match trim v with
      | [] => None
      | _ :: _ => new_Date (normalized (trim v))
      end
  end.

End Dates.

(** *** Titles and their cache

    The sessions shown, with the fields that the titles depend on, and
    [titleCache].  Session ids are record ids; none of them names a property
    that every object has. *)
Record titled : Type := Titled {
  t_sessionId : jsstring;
  t_title : option jsstring;
  t_hasMessages : bool
}.

Record titles : Type := Titles {
  shown : list titled;
  titleCache : list (jsstring * jsstring)
}.

(** [this.titleCache[id]] *)
Fixpoint cache_get (c : list (jsstring * jsstring)) (id : jsstring)
  : option jsstring :=
  match c with
  | [] => None
  | (k, v) :: c' => if str_eqb k id then Some v else cache_get c' id
  end.

(** [this.titleCache[id] = v] *)
Definition cache_set (c : list (jsstring * jsstring)) (id v : jsstring)
  : list (jsstring * jsstring) := (id, v) :: c.

(** [this.sessions[idx].title = v] for the [idx] that [findIndex] gives. *)
Fixpoint set_title (l : list titled) (id v : jsstring) : list titled :=
  match l with
  | [] => []
  | s :: l' =>
      if str_eqb (t_sessionId s) id
      then Titled (t_sessionId s) (Some v) (t_hasMessages s) :: l'
      else s :: set_title l' id v
  end.

Definition LOADING : jsstring := str "Loading...".

(** The sessions for which [generateMissingTitles] asks for a title. *)
Definition needingTitles (st : titles) : list titled :=
  filter (fun s => negb (truthy (cache_get (titleCache st) (t_sessionId s)))
                   && match t_title s with
                      | Some t => str_eqb t LOADING
                      | None => false
                      end
                   && t_hasMessages s)
         (shown st).

(** How a call of [generateSessionTitle] ends. *)
Inductive answer : Type :=
| Generated (generatedTitle : option jsstring)
| Thrown.

(** A turn of the loop of [generateMissingTitles] for the session [id],
    once the call has settled. *)
Definition title_settled (id : jsstring) (a : answer) (st : titles) : titles :=
  match a with
  | Generated t =>
      if truthy t && negb (str_eqb (to_text t) LOADING)
      then Titles (set_title (shown st) id (to_text t))
                  (cache_set (titleCache st) id (to_text t))
      else st
  | Thrown =>
      Titles (set_title (shown st) id (str "Untitled Conversation"))
             (cache_set (titleCache st) id (str "Untitled Conversation"))
  end.

(** The sessions of a page as [loadPage] shows them. *)
Definition sessions_loaded (list : list titled) (st : titles) : titles :=
  Titles (map (fun s =>
                 Titled (t_sessionId s)
                        (or_else (cache_get (titleCache st) (t_sessionId s))
                                 (t_title s))
                        (t_hasMessages s))
              list)
         (titleCache st).

(** The component while titles are generated.  Every call of [loadPage]
    that runs to its end starts [generateMissingTitles] and does not wait
    for it, so several runs of its loop can be under way: [loops] holds, for
    each run started so far, the sessions that it still has to go through,
    the first of them being the one whose call of [generateSessionTitle] is
    under way.  [calls] is a record of the calls made so far, kept for the
    statements: the session of each call, and whether [titleCache] had a
    title for it when the call was made. *)
Record title_runs : Type := TitleRuns {
  current : titles;
  loops : list (list titled);
  calls : list (jsstring * bool)
}.

Definition cached (st : titles) (id : jsstring) : bool :=
  match cache_get (titleCache st) id with
  | Some _ => true
  | None => false
  end.

(** The call for the first of the sessions that a run still has to go
    through, if any. *)
Definition call_next (st : titles) (todo : list titled)
    (log : list (jsstring * bool)) : list (jsstring * bool) :=
  match todo with
  | s :: _ => log ++ [(t_sessionId s, cached st (t_sessionId s))]
  | [] => log
  end.

(** [generateMissingTitles] up to its first [await]: the filter, and the
    call for the first session that it kept. *)
Definition generateMissingTitles (r : title_runs) : title_runs :=
  let needing := needingTitles (current r) in
  TitleRuns (current r) (loops r ++ [needing])
            (call_next (current r) needing (calls r)).

Fixpoint set_nth {A : Type} (k : nat) (x : A) (l : list A) : list A :=
  match l, k with
  | [], _ => []
  | _ :: l', O => x :: l'
  | y :: l', S k' => y :: set_nth k' x l'
  end.

(** What happens to the sessions and their titles: a call of [loadPage]
    runs to its end with the sessions of the page; its [catch] clause empties
    the sessions; its [catch] clause fails before that, the sessions being
    as the [try] block left them, untouched or those of the page; the call
    under way in the [k]-th run of the loop settles. *)
Inductive title_event : Type :=
| PageLoaded (list : list titled)
| PageFailed
| PageLeft (list : option (list titled))
| TitleSettled (k : nat) (a : answer).

Definition title_react (r : title_runs) (e : title_event) : title_runs :=
  match e with
  | PageLoaded l =>
      generateMissingTitles
        (TitleRuns (sessions_loaded l (current r)) (loops r) (calls r))
  | PageFailed =>
      TitleRuns (Titles [] (titleCache (current r))) (loops r) (calls r)
  | PageLeft None => r
  | PageLeft (Some l) =>
      TitleRuns (sessions_loaded l (current r)) (loops r) (calls r)
  | TitleSettled k a =>
      match nth_error (loops r) k with
      | Some (s :: todo) =>
          let st := title_settled (t_sessionId s) a (current r) in
          TitleRuns st (set_nth k todo (loops r)) (call_next st todo (calls r))
      | _ => r
      end
  end.

(** The component before its first page is loaded. *)
Definition title_start : title_runs := TitleRuns (Titles [] []) [] [].

End Home.

Module AgentGPT.

Definition elem_message (e : error_elem) : option jsstring :=
  match e with
  | ElObject o =>
      if truthy (message o) then message o
      else or_else (statusText o) (or_else (body_message_of o) UNKNOWN)
  | _ => UNKNOWN
  end.

Definition reduceErrors (errors : error_arg) : option jsstring :=
  match errors with
  | EAbsent | EString [] => UNKNOWN
  | EArray l =>
      Some (join_with (str ", ")
              (map (fun e => to_text (elem_message e)) (filter elem_truthy l)))
  | EString s => Some s
  | EObject o =>
      let fallback := or_else (message o) (or_else (statusText o) UNKNOWN) in
      match body o with
      | Some b =>
          if truthy (body_message b) then body_message b
          else
            match pageErrors b with
            | Some (pe :: _) => pe_message pe
            | _ => fallback
            end
      | None => fallback
      end
  end.

(** *** Messages prepared for the conversation view *)

(** The message with the fields that [processMessages] adds to it. *)
Record message_out : Type := MessageOut {
  source : message_in;
  roleLabel : jsstring;
  formattedTime : jsstring;
  isUser : bool;
  cssClass : jsstring;
  renderedContent : jsstring
}.

Section Messages.

Variable toUpperCase : jsstring -> jsstring.
Variable formatTime : option jsstring -> jsstring.

Definition getRoleLabel (role : jsstring) (agentName : option jsstring)
  : jsstring :=
  let upperRole := toUpperCase role in
  if str_eqb upperRole (str "USER") || str_eqb upperRole (str "ENDUSER")
  then str "You"
  else if str_eqb upperRole (str "AGENT") || str_eqb upperRole (str "SYSTEM")
  then to_text (or_else agentName (Some (str "Agentforce AI")))
  else role.

Definition agent_message (agentName : option jsstring) (msg : message_in)
  : message_out :=
  let role :=
    if truthy (msg_role msg) then toUpperCase (to_text (msg_role msg)) else [] in
  let isUser := str_eqb role (str "USER") || str_eqb role (str "ENDUSER") in
  MessageOut
    msg
    (getRoleLabel role agentName)
    (formatTime (msg_timestamp msg))
    isUser
    (if isUser then str "message user-message" else str "message agent-message")
    (renderMessageContent (msg_text msg)).

Definition processMessagesWithAgent (messages : option (list message_in))
    (agentName : option jsstring) : list message_out :=
  match messages with
  | None => []
  | Some ms => map (agent_message agentName) ms
  end.

Definition processMessages (messages : option (list message_in))
  : list message_out :=
  match messages with
  | None => []
  | Some ms => map (agent_message None) ms
  end.

End Messages.

(** *** Sessions grouped by day *)

(** The fields of a session that [groupedSessions] reads or writes. *)
Record session : Type := Session {
  sessionId : jsstring;
  startTime : option jsstring;
  formattedDate : option jsstring;
  session_cssClass : jsstring
}.

Record group : Type := Group {
  label : jsstring;
  icon : jsstring;
  sessions : list session
}.

(** The three groups while the sessions are dealt out. *)
Record groups : Type := Groups {
  today : list session;
  yesterday : list session;
  previous : list session
}.

Section Grouped.

(** Whether a start time falls on the day of the call and on the day before
    it ([isSameDay] on [Date] values), [formatDate], and
    [Array.prototype.sort] with the comparator of the start times. *)
Variable isToday : option jsstring -> bool.
Variable isYesterday : option jsstring -> bool.
Variable formatDate : option jsstring -> jsstring.
Variable sort : list session -> list session.

Definition sessionCopy (selectedSession : option session) (s : session)
  : session :=
  Session (sessionId s) (startTime s)
    (or_else (formattedDate s) (Some (formatDate (startTime s))))
    (match selectedSession with
     | Some sel =>
         if str_eqb (sessionId sel) (sessionId s)
         then str "session-item selected" else str "session-item"
     | None => str "session-item"
     end).

(** One turn of [this.sessions.forEach]. *)
Definition deal (selectedSession : option session) (g : groups) (s : session)
  : groups :=
  let c := sessionCopy selectedSession s in
  if isToday (startTime s) then Groups (today g ++ [c]) (yesterday g) (previous g)
  else if isYesterday (startTime s)
  then Groups (today g) (yesterday g ++ [c]) (previous g)
  else Groups (today g) (yesterday g) (previous g ++ [c]).

Definition previousLabel (dateFilter : Z) : jsstring :=
  if (dateFilter =? 90)%Z then str "Previous 90 Days"
  else if (dateFilter =? 30)%Z then str "Previous 30 Days"
  else str "Previous 7 Days".

Definition groupedSessions (dateFilter : Z) (selectedSession : option session)
    (ss : list session) : list group :=
  let g := fold_left (deal selectedSession) ss (Groups [] [] []) in
  filter (fun gr => negb (Nat.eqb (length (sessions gr)) 0))
    [ Group (str "Today") (str "utility:clock") (sort (today g));
      Group (str "Yesterday") (str "utility:history") (sort (yesterday g));
      Group (previousLabel dateFilter) (str "utility:date_input")
        (sort (previous g)) ].

End Grouped.

End AgentGPT.

(** Page numbers start at one, in the pager and in the calls under way. *)
Definition pager_ok (h : Home.home) : Prop :=
  (1 <= Home.currentPage (Home.page h))%Z /\
  Forall (fun n => (1 <= n)%Z) (Home.inflight h).

(** The arguments on which the two versions of [reduceErrors] are compared:
    in an array, no element without a [message] has a [statusText]. *)
Definition same_priority (errors : error_arg) : bool :=
  match errors with
  | EArray l =>
      forallb (fun e => match e with
                        | ElObject o =>
                            truthy (message o) || negb (truthy (statusText o))
                        | _ => true
                        end) l
  | _ => true
  end.

(** The arguments for which [reduceErrors] has no text: an array without an
    element that counts, and an object whose first page error has no
    message while its body has none either. *)
Definition textless (errors : error_arg) : bool :=
  match errors with
  | EArray l => negb (existsb elem_truthy l)
  | EObject o =>
      negb (truthy (body_message_of o))
      && match body o with
         | Some b =>
             match pageErrors b with
             | Some (pe :: _) => negb (truthy (pe_message pe))
             | _ => false
             end
         | None => false
         end
  | _ => false
  end.

(** The timestamp of a message does not end in a digit. *)
Definition stamp_ok (msg : message_in) : bool :=
  match rev (to_text (msg_timestamp msg)) with
  | c :: _ => negb (is_digit c)
  | [] => true
  end.

(** The role of a message in upper case, as [processMessages] has it. *)
Definition role_of (toUpperCase : jsstring -> jsstring) (msg : message_in)
  : jsstring :=
  if truthy (msg_role msg) then toUpperCase (to_text (msg_role msg)) else [].

(** The roles that [getRoleLabel] knows. *)
Definition known_role (r : jsstring) : bool :=
  str_eqb r (str "USER") || str_eqb r (str "ENDUSER")
  || str_eqb r (str "AGENT") || str_eqb r (str "SYSTEM").

(** A title that can stay: not empty and not the placeholder. *)
Definition final_title (t : jsstring) : Prop :=
  t <> [] /\ t <> Home.LOADING.

Definition cache_ok (st : Home.titles) : Prop :=
  Forall (fun kv => final_title (snd kv)) (Home.titleCache st).

(** Two sessions that wait for a title, and a course of events in which two
    runs of the loop overlap: the page is loaded twice before any call
    settles, the first run gets both titles, and then the first call of the
    second run settles. *)
Definition WAITING : list Home.titled :=
  [Home.Titled (str "s1") (Some Home.LOADING) true;
   Home.Titled (str "s2") (Some Home.LOADING) true].

Definition OVERLAP : list Home.title_event :=
  [Home.PageLoaded WAITING;
   Home.PageLoaded WAITING;
   Home.TitleSettled 0 (Home.Generated (Some (str "One")));
   Home.TitleSettled 0 (Home.Generated (Some (str "Two")));
   Home.TitleSettled 1 (Home.Generated (Some (str "One")))].
(** * Properties *)

(** ** Character classes *)

Ltac bool_hyp H :=
  repeat (rewrite ?orb_true_iff, ?andb_true_iff, ?negb_true_iff,
            ?orb_false_iff, ?andb_false_iff, ?negb_false_iff,
            ?N.eqb_eq, ?N.eqb_neq, ?N.leb_le, ?N.leb_gt in H).

Ltac bool_goal :=
  repeat (rewrite ?orb_true_iff, ?andb_true_iff, ?negb_true_iff,
            ?orb_false_iff, ?andb_false_iff, ?negb_false_iff,
            ?N.eqb_eq, ?N.eqb_neq, ?N.leb_le, ?N.leb_gt).

Lemma space_not_digit c : is_space c = true -> is_digit c = false.
Proof.
  unfold is_space, is_line_terminator, is_digit. intros H.
  bool_hyp H. bool_goal. lia.
Qed.

Lemma digit_not_space c : is_digit c = true -> is_space c = false.
Proof.
  intros H. destruct (is_space c) eqn:E; [|reflexivity].
  apply space_not_digit in E. congruence.
Qed.

Lemma digit_not_delim c : is_digit c = true -> is_ol_delim c = false.
Proof.
  unfold is_digit, is_ol_delim. intros H. bool_hyp H. bool_goal. lia.
Qed.

Lemma delim_not_digit c : is_ol_delim c = true -> is_digit c = false.
Proof.
  intros H. destruct (is_digit c) eqn:E; [|reflexivity].
  apply digit_not_delim in E. congruence.
Qed.

Lemma blank_tab_not_digit c : is_blank_tab c = true -> is_digit c = false.
Proof.
  unfold is_blank_tab, is_digit. intros H. bool_hyp H. bool_goal. lia.
Qed.

Lemma blank_tab_not_marker c : is_blank_tab c = true -> is_ul_marker c = false.
Proof.
  unfold is_blank_tab, is_ul_marker. intros H. bool_hyp H. bool_goal. lia.
Qed.

Lemma marker_not_space c : is_ul_marker c = true -> is_space c = false.
Proof.
  unfold is_space, is_line_terminator, is_ul_marker. intros H.
  bool_hyp H. bool_goal. lia.
Qed.

Lemma terminator_is_space c : is_line_terminator c = true -> is_space c = true.
Proof.
  unfold is_space. intros ->. repeat rewrite orb_true_r. reflexivity.
Qed.

Lemma not_space_is_dot c : is_space c = false -> is_dot c = true.
Proof.
  unfold is_dot. intros H. destruct (is_line_terminator c) eqn:E; [|reflexivity].
  apply terminator_is_space in E. congruence.
Qed.

(** ** Prefixes selected by a class *)

Lemma take_drop_while p s : take_while p s ++ drop_while p s = s.
Proof. induction s as [|c s IH]; simpl; [reflexivity|]. destruct (p c); simpl; congruence. Qed.

Lemma take_while_all p s : forallb p (take_while p s) = true.
Proof. induction s as [|c s IH]; simpl; [reflexivity|]. destruct (p c) eqn:E; simpl; [rewrite E|]; auto. Qed.

Lemma drop_while_head p s c t : drop_while p s = c :: t -> p c = false.
Proof.
  induction s as [|a s IH]; simpl; [discriminate|].
  destruct (p a) eqn:E; [assumption|]. intros H. inversion H; subst. assumption.
Qed.

Lemma take_while_app p w t :
  forallb p w = true ->
  take_while p (w ++ t) = w ++ take_while p t.
Proof.
  induction w as [|c w IH]; simpl; [reflexivity|]. intros H.
  apply andb_true_iff in H. destruct H as [-> H]. f_equal. auto.
Qed.

Lemma drop_while_app p w t :
  forallb p w = true ->
  drop_while p (w ++ t) = drop_while p t.
Proof.
  induction w as [|c w IH]; simpl; [reflexivity|]. intros H.
  apply andb_true_iff in H. destruct H as [-> H]. auto.
Qed.

Lemma take_while_stop p c t : p c = false -> take_while p (c :: t) = [].
Proof. simpl. intros ->. reflexivity. Qed.

Lemma drop_while_stop p c t : p c = false -> drop_while p (c :: t) = c :: t.
Proof. simpl. intros ->. reflexivity. Qed.

Lemma drop_while_nil_iff p s : drop_while p s = [] <-> forallb p s = true.
Proof.
  induction s as [|c s IH]; simpl; [tauto|].
  destruct (p c); simpl; [assumption|]. split; discriminate.
Qed.

Lemma firstn_take_while p s : firstn (length (take_while p s)) s = take_while p s.
Proof.
  induction s as [|c s IH]; simpl; [reflexivity|].
  destruct (p c); simpl; congruence.
Qed.

Lemma forallb_rev (p : cu -> bool) s : forallb p (rev s) = forallb p s.
Proof.
  induction s as [|c s IH]; simpl; [reflexivity|].
  rewrite forallb_app, IH. simpl. rewrite andb_true_r. apply andb_comm.
Qed.

Lemma trim_nil_iff s : trim s = [] <-> forallb is_space s = true.
Proof.
  unfold trim. split.
  - intros H. apply (f_equal (@rev cu)) in H. rewrite rev_involutive in H.
    simpl in H. apply drop_while_nil_iff in H. rewrite forallb_rev in H.
    destruct (drop_while is_space s) as [|c t] eqn:E.
    + apply drop_while_nil_iff. assumption.
    + apply drop_while_head in E. simpl in H. rewrite E in H. discriminate.
  - intros H. apply drop_while_nil_iff in H. rewrite H. reflexivity.
Qed.

Lemma trim_cons_not_space c s : is_space c = false -> trim (c :: s) <> [].
Proof.
  intros H E. apply trim_nil_iff in E. simpl in E. rewrite H in E. discriminate.
Qed.

Lemma forallb_elem (p : cu -> bool) a ch b :
  forallb p (a ++ ch :: b) = true -> p ch = true.
Proof.
  rewrite forallb_app. simpl. intros H.
  apply andb_true_iff in H. destruct H as [_ H].
  apply andb_true_iff in H. tauto.
Qed.


(** ** The matcher against the declarative reading *)

Lemma rep_sound q mn mx i s k z :
  within mn mx ->
  rep q mn mx i s k = Some z ->
  exists w t, s = w ++ t /\ forallb q w = true /\ (mn <= length w)%nat /\
              within (length w) mx /\ k (i + length w)%nat t = Some z.
Proof.
  revert mn mx i. induction s as [|ch s IH]; intros mn mx i Hwf H.
  - exists [], []. simpl in *.
    destruct mx as [[|m]|]; simpl in *.
    + rewrite Nat.add_0_r. repeat split; auto; lia.
    + destruct mn; simpl in H; [|discriminate].
      rewrite Nat.add_0_r. repeat split; auto; lia.
    + destruct mn; simpl in H; [|discriminate].
      rewrite Nat.add_0_r. repeat split; auto.
  - assert (Hstay : k i (ch :: s) = Some z -> mn = 0%nat ->
              exists w t, ch :: s = w ++ t /\ forallb q w = true /\
                (mn <= length w)%nat /\ within (length w) mx /\
                k (i + length w)%nat t = Some z).
    { intros Hk ->. exists [], (ch :: s). simpl. rewrite Nat.add_0_r.
      repeat split; auto. }
    assert (Hmore : rep q (pred mn) (option_map pred mx) (S i) s k = Some z ->
              mx <> Some 0%nat -> q ch = true ->
              exists w t, ch :: s = w ++ t /\ forallb q w = true /\
                (mn <= length w)%nat /\ within (length w) mx /\
                k (i + length w)%nat t = Some z).
    { intros Hr Hmx Hq. apply IH in Hr.
      - destruct Hr as (w & t & -> & Hw & Hmn & Hin & Hk).
        exists (ch :: w), t. simpl. rewrite Hq, Hw.
        replace (i + S (length w))%nat with (S i + length w)%nat by lia.
        repeat split; auto; [lia|].
        destruct mx as [[|m]|]; simpl in *; try congruence; try lia; try exact I.
      - destruct mx as [[|m]|]; simpl in *; try congruence; try lia; try exact I. }
    destruct mx as [[|m]|]; simpl in H.
    + simpl in Hwf. apply Hstay; [assumption|lia].
    + destruct (q ch) eqn:Hq.
      * match type of H with context [rep ?a ?b ?c ?d ?e ?f] =>
          destruct (rep a b c d e f) eqn:Hr end.
        -- inversion H; subst. apply Hmore; [assumption|discriminate|reflexivity].
        -- destruct mn; simpl in H; [|discriminate]. auto.
      * destruct mn; simpl in H; [|discriminate]. auto.
    + destruct (q ch) eqn:Hq.
      * match type of H with context [rep ?a ?b ?c ?d ?e ?f] =>
          destruct (rep a b c d e f) eqn:Hr end.
        -- inversion H; subst. apply Hmore; [assumption|discriminate|reflexivity].
        -- destruct mn; simpl in H; [|discriminate]. auto.
      * destruct mn; simpl in H; [|discriminate]. auto.
Qed.

Lemma rep_complete q mn mx i w t k :
  forallb q w = true -> (mn <= length w)%nat -> within (length w) mx ->
  k (i + length w)%nat t <> None ->
  rep q mn mx i (w ++ t) k <> None.
Proof.
  revert mn mx i. induction w as [|ch w IH]; intros mn mx i Hw Hmn Hmx Hk.
  - simpl in *. rewrite Nat.add_0_r in Hk. assert (mn = 0%nat) by lia. subst mn.
    destruct mx as [[|m]|]; destruct t as [|c t]; simpl; auto.
    + destruct (q c); [|assumption].
      destruct (rep q 0 (Some m) (S i) t k); [discriminate|assumption].
    + destruct (q c); [|assumption].
      destruct (rep q 0 None (S i) t k); [discriminate|assumption].
  - simpl in Hw. apply andb_true_iff in Hw. destruct Hw as [Hq Hw].
    simpl in Hmn, Hmx, Hk.
    assert (Hrec : rep q (pred mn) (option_map pred mx) (S i) (w ++ t) k <> None).
    { apply IH; auto; try lia.
      - destruct mx as [m|]; simpl in *; [lia|exact I].
      - replace (S i + length w)%nat with (i + S (length w))%nat by lia. assumption. }
    destruct mx as [[|m]|]; simpl in *; try lia; rewrite Hq.
    + destruct (rep q (pred mn) (Some m) (S i) (w ++ t) k); [discriminate|congruence].
    + destruct (rep q (pred mn) None (S i) (w ++ t) k); [discriminate|congruence].
Qed.

Theorem matcher_sound ic r :
  wf_regex r = true ->
  forall x c z, matcher ic r x c = Some z ->
  exists y, reaches ic r x y /\ c y = Some z.
Proof.
  induction r as [|a|p|p mn mx|r1 IH1 r2 IH2|r1 IH1 r2 IH2|n r IH|];
    simpl; intros Hwf x c z H.
  - exists x. auto.
  - destruct (rest x) as [|ch s] eqn:E; [discriminate|].
    destruct (chr_match ic a ch) eqn:Hm; [|discriminate].
    eexists. split; [|exact H]. exists ch, s. auto.
  - destruct (rest x) as [|ch s] eqn:E; [discriminate|].
    destruct (cls_match ic p ch) eqn:Hm; [|discriminate].
    eexists. split; [|exact H]. exists ch, s. auto.
  - apply rep_sound in H.
    + destruct H as (w & t & E & Hw & Hmn & Hmx & Hk).
      eexists. split; [|exact Hk]. exists w, t. auto.
    + destruct mx; simpl; [|exact I]. apply Nat.leb_le. assumption.
  - apply andb_true_iff in Hwf. destruct Hwf as [W1 W2].
    apply (IH1 W1) in H. destruct H as (m & R1 & H).
    apply (IH2 W2) in H. destruct H as (y & R2 & H).
    exists y. split; [exists m; auto|assumption].
  - apply andb_true_iff in Hwf. destruct Hwf as [W1 W2].
    destruct (matcher ic r1 x c) eqn:E.
    + inversion H; subst. apply (IH1 W1) in E. destruct E as (y & R & E).
      exists y. auto.
    + apply (IH2 W2) in H. destruct H as (y & R & H). exists y. auto.
  - apply (IH Hwf) in H. destruct H as (y0 & R & H).
    eexists. split; [|exact H]. exists y0. auto.
  - destruct (Nat.eqb (endIndex x) 0) eqn:E; [|discriminate].
    apply Nat.eqb_eq in E. exists x. auto.
Qed.

Theorem matcher_complete ic r :
  forall x y c, reaches ic r x y -> c y <> None -> matcher ic r x c <> None.
Proof.
  induction r as [|a|p|p mn mx|r1 IH1 r2 IH2|r1 IH1 r2 IH2|n r IH|];
    simpl; intros x y c R Hc.
  - subst. assumption.
  - destruct R as (ch & s & -> & -> & ->). assumption.
  - destruct R as (ch & s & -> & -> & ->). assumption.
  - destruct R as (w & s & -> & Hw & Hmn & Hmx & ->).
    apply rep_complete; assumption.
  - destruct R as (m & R1 & R2).
    apply (IH1 x m); [assumption|]. apply (IH2 m y); assumption.
  - destruct R as [R|R].
    + specialize (IH1 x y c R Hc).
      destruct (matcher ic r1 x c); [discriminate|congruence].
    + destruct (matcher ic r1 x c); [discriminate|]. apply (IH2 x y); assumption.
  - destruct R as (y0 & R & ->). apply (IH x y0); assumption.
  - destruct R as [E ->]. rewrite E. assumption.
Qed.

(** A match only moves forward through the input. *)
Lemma reaches_consumes ic r : forall x y,
  reaches ic r x y ->
  exists w, rest x = w ++ rest y /\ endIndex y = (endIndex x + length w)%nat.
Proof.
  induction r as [|a|p|p mn mx|r1 IH1 r2 IH2|r1 IH1 r2 IH2|n r IH|];
    simpl; intros x y R.
  - subst. exists []. simpl. auto.
  - destruct R as (ch & s & E & _ & ->). exists [ch]. simpl. split; [assumption|lia].
  - destruct R as (ch & s & E & _ & ->). exists [ch]. simpl. split; [assumption|lia].
  - destruct R as (w & s & E & _ & _ & _ & ->). exists w. simpl. auto.
  - destruct R as (m & R1 & R2).
    apply IH1 in R1. apply IH2 in R2.
    destruct R1 as (w1 & E1 & I1). destruct R2 as (w2 & E2 & I2).
    exists (w1 ++ w2). rewrite <- app_assoc, <- E2, length_app. split; [assumption|lia].
  - destruct R as [R|R]; auto.
  - destruct R as (y0 & R & ->). simpl. auto.
  - destruct R as [_ ->]. exists []. simpl. auto.
Qed.

Lemma search_sound ic r : forall s i j y,
  search ic r i s = Some (j, y) ->
  exists a b, s = a ++ b /\ j = (i + length a)%nat /\ match_at ic r j b = Some y.
Proof.
  induction s as [|c s IH]; intros i j y H; simpl in H.
  - destruct (match_at ic r i []) eqn:E; [|discriminate].
    inversion H; subst. exists [], []. simpl. rewrite Nat.add_0_r. auto.
  - destruct (match_at ic r i (c :: s)) eqn:E.
    + inversion H; subst. exists [], (c :: s). simpl. rewrite Nat.add_0_r. auto.
    + apply IH in H. destruct H as (a & b & -> & -> & H).
      exists (c :: a), b. simpl. replace (i + S (length a))%nat with (S i + length a)%nat by lia.
      auto.
Qed.

Lemma search_complete ic r : forall a b i,
  match_at ic r (i + length a) b <> None ->
  search ic r i (a ++ b) <> None.
Proof.
  induction a as [|c a IH]; intros b i H; simpl in *.
  - rewrite Nat.add_0_r in H.
    destruct b; simpl; destruct (match_at ic r i _); congruence.
  - destruct (match_at ic r i (c :: a ++ b)); [discriminate|].
    apply IH. replace (S i + length a)%nat with (i + S (length a))%nat by lia. assumption.
Qed.

(** A pattern that starts with [^] is tried with effect at index 0 only. *)
Lemma search_anchored ic r s :
  search ic (Seq Bol r) 0 s =
  match match_at ic (Seq Bol r) 0 s with
  | Some y => Some (0%nat, y)
  | None => None
  end.
Proof.
  assert (H : forall t i, search ic (Seq Bol r) (S i) t = None).
  { induction t as [|c t IH]; intros i; simpl; auto. }
  destruct s as [|c s]; simpl; destruct (match_at ic (Seq Bol r) 0 _); auto.
Qed.

(** ** Greedy quantifiers *)

(** When what follows the quantifier cannot start with a character of the
    class, giving characters back never helps: the quantifier takes the
    longest run or fails. *)
Lemma rep_inf_det q mn i s k :
  (forall j c t, q c = true -> k j (c :: t) = None) ->
  rep q mn None i s k =
  if (mn <=? length (take_while q s))%nat
  then k (i + length (take_while q s))%nat (drop_while q s) else None.
Proof.
  intros Hk. revert mn i. induction s as [|ch s IH]; intros mn i; simpl.
  - destruct mn; simpl; [rewrite Nat.add_0_r|]; reflexivity.
  - destruct (q ch) eqn:Hq; simpl.
    + rewrite IH. replace (i + S (length (take_while q s)))%nat
        with (S i + length (take_while q s))%nat by lia.
      destruct mn as [|mn]; simpl.
      * destruct (k (S (i + length (take_while q s))) (drop_while q s)) eqn:E;
          [reflexivity|]. apply Hk. assumption.
      * destruct (mn <=? length (take_while q s))%nat; [|reflexivity].
        destruct (k (S (i + length (take_while q s))) (drop_while q s)); reflexivity.
    + destruct mn; simpl; [rewrite Nat.add_0_r|]; reflexivity.
Qed.

(** The same when what follows the quantifier always succeeds. *)
Lemma rep_inf_total q mn i s k :
  (forall j t, k j t <> None) ->
  rep q mn None i s k =
  if (mn <=? length (take_while q s))%nat
  then k (i + length (take_while q s))%nat (drop_while q s) else None.
Proof.
  intros Hk. revert mn i. induction s as [|ch s IH]; intros mn i; simpl.
  - destruct mn; simpl; [rewrite Nat.add_0_r|]; reflexivity.
  - destruct (q ch) eqn:Hq; simpl.
    + rewrite IH. replace (i + S (length (take_while q s)))%nat
        with (S i + length (take_while q s))%nat by lia.
      destruct mn as [|mn]; simpl.
      * destruct (k (S (i + length (take_while q s))) (drop_while q s)) eqn:E;
          [reflexivity|]. apply Hk in E. contradiction.
      * destruct (mn <=? length (take_while q s))%nat; [|reflexivity].
        destruct (k (S (i + length (take_while q s))) (drop_while q s)); reflexivity.
    + destruct mn; simpl; [rewrite Nat.add_0_r|]; reflexivity.
Qed.

Lemma rep_zero_None q i s k : rep q 0 None i s k = None -> k i s = None.
Proof.
  destruct s as [|ch s]; simpl; [auto|].
  destruct (q ch); [|auto].
  destruct (rep q 0 None (S i) s k); [discriminate|auto].
Qed.

(** In general the quantifier stops at the longest run from which the rest
    of the pattern succeeds: one character more, when the class allows it,
    made the rest fail. *)
Lemma rep_inf_Some q mn i s k z :
  rep q mn None i s k = Some z ->
  exists w t, s = w ++ t /\ forallb q w = true /\ (mn <= length w)%nat /\
    k (i + length w)%nat t = Some z /\
    (forall c t', t = c :: t' -> q c = true ->
                  k (S (i + length w)) t' = None).
Proof.
  revert mn i. induction s as [|ch s IH]; intros mn i H; simpl in H.
  - destruct mn; simpl in H; [|discriminate].
    exists [], []. simpl. rewrite Nat.add_0_r. repeat split; auto. discriminate.
  - destruct (q ch) eqn:Hq.
    + destruct (rep q (pred mn) None (S i) s k) eqn:Hr.
      * inversion H; subst. apply IH in Hr.
        destruct Hr as (w & t & -> & Hw & Hmn & Hk & Hnext).
        exists (ch :: w), t. simpl. rewrite Hq, Hw.
        replace (i + S (length w))%nat with (S i + length w)%nat by lia.
        repeat split; auto. lia.
      * destruct mn; simpl in H; [|discriminate]. simpl in Hr.
        exists [], (ch :: s). simpl. rewrite Nat.add_0_r.
        repeat split; auto. intros c t' E _. inversion E; subst.
        apply rep_zero_None in Hr. assumption.
    + destruct mn; simpl in H; [|discriminate].
      exists [], (ch :: s). simpl. rewrite Nat.add_0_r.
      repeat split; auto. intros c t' E Hc. inversion E; subst. congruence.
Qed.

(** ** The ordered-list marker patterns *)

Lemma match_marker_at i s : match_at false INLINE_OL_SPLIT i s = marker_at i s.
Proof.
  unfold match_at, INLINE_OL_SPLIT, marker_at, plus. cbn [seqs fold_right matcher].
  cbn [endIndex rest captures].
  change (cls_match false is_space) with is_space.
  change (cls_match false is_digit) with is_digit.
  rewrite rep_inf_det.
  2:{ intros j c t Hc. rewrite rep_inf_det.
      - rewrite take_while_stop by (apply space_not_digit; assumption). reflexivity.
      - intros j' c' t' Hc'. cbn. change (cls_match false is_ol_delim c') with (is_ol_delim c').
        rewrite digit_not_delim by assumption. reflexivity. }
  destruct (take_while is_space s) as [|w ws] eqn:Ews; [reflexivity|].
  cbn [length Nat.leb].
  rewrite rep_inf_det.
  2:{ intros j' c' t' Hc'. change (cls_match false is_ol_delim c') with (is_ol_delim c').
      rewrite digit_not_delim by assumption. reflexivity. }
  destruct (take_while is_digit (drop_while is_space s)) as [|d0 ds] eqn:Eds;
    [reflexivity|].
  cbn [length Nat.leb].
  destruct (drop_while is_digit (drop_while is_space s)) as [|d s3] eqn:Es2;
    [reflexivity|].
  change (cls_match false is_ol_delim d) with (is_ol_delim d).
  destruct (is_ol_delim d); [|reflexivity].
  rewrite rep_inf_total by discriminate.
  destruct (take_while is_space s3) as [|w' ws'] eqn:Ews'; [reflexivity|].
  cbn [length Nat.leb]. f_equal. f_equal.
  - lia.
  - f_equal. f_equal.
    replace (i + S (length ws) + S (length ds) - (i + S (length ws)))%nat
      with (length (d0 :: ds)) by (simpl; lia).
    rewrite <- Eds. apply firstn_take_while.
Qed.

Lemma match_break_at i s : match_at false INLINE_OL_BREAK i s = break_at i s.
Proof.
  destruct s as [|c t]; [reflexivity|].
  unfold match_at, INLINE_OL_BREAK, break_at.
  cbn [seqs fold_right matcher rest endIndex captures chr_match].
  rewrite N.eqb_sym. destruct (c =? 46); [|reflexivity].
  apply (match_marker_at (S i) t).
Qed.

Lemma take_drop_exact p w t :
  forallb p w = true -> (forall c t', t = c :: t' -> p c = false) ->
  take_while p (w ++ t) = w /\ drop_while p (w ++ t) = t.
Proof.
  intros Hw Ht. rewrite take_while_app, drop_while_app by assumption.
  destruct t as [|c t']; simpl.
  - rewrite app_nil_r. auto.
  - rewrite (Ht c t' eq_refl). rewrite app_nil_r. auto.
Qed.

Lemma take_drop_inner p s t :
  drop_while p s <> [] ->
  take_while p (s ++ t) = take_while p s /\
  drop_while p (s ++ t) = drop_while p s ++ t.
Proof.
  induction s as [|c s IH]; simpl; [congruence|].
  destruct (p c); [|auto]. intros H. destruct (IH H) as [-> ->]. auto.
Qed.

Lemma marker_at_Some i s y :
  marker_at i s = Some y ->
  exists ws ds d ws',
    s = ws ++ ds ++ d :: ws' ++ rest y /\
    ws <> [] /\ forallb is_space ws = true /\
    ds <> [] /\ forallb is_digit ds = true /\
    is_ol_delim d = true /\
    ws' <> [] /\ forallb is_space ws' = true /\
    (forall c t, rest y = c :: t -> is_space c = false) /\
    endIndex y = (i + length ws + length ds + 1 + length ws')%nat /\
    captures y = [(1%nat, ds)].
Proof.
  unfold marker_at. intros H.
  pose proof (take_drop_while is_space s) as E1.
  pose proof (take_while_all is_space s) as A1.
  pose proof (take_drop_while is_digit (drop_while is_space s)) as E2.
  pose proof (take_while_all is_digit (drop_while is_space s)) as A2.
  destruct (take_while is_space s) as [|w ws] eqn:Ews; [discriminate|].
  destruct (take_while is_digit (drop_while is_space s)) as [|d0 ds] eqn:Eds;
    [discriminate|].
  destruct (drop_while is_digit (drop_while is_space s)) as [|d s3] eqn:Es2;
    [discriminate|].
  destruct (is_ol_delim d) eqn:Hd; [|discriminate].
  pose proof (take_drop_while is_space s3) as E3.
  pose proof (take_while_all is_space s3) as A3.
  destruct (take_while is_space s3) as [|w' ws'] eqn:Ews'; [discriminate|].
  inversion H; subst y; clear H. cbn [rest endIndex captures].
  exists (w :: ws), (d0 :: ds), d, (w' :: ws').
  repeat split; try assumption; try discriminate.
  - rewrite E3, E2. symmetry. exact E1.
  - intros c t Hc. apply drop_while_head in Hc. assumption.
Qed.

Lemma marker_at_intro i ws ds d ws' tl :
  ws <> [] -> forallb is_space ws = true ->
  ds <> [] -> forallb is_digit ds = true ->
  is_ol_delim d = true ->
  ws' <> [] -> forallb is_space ws' = true ->
  (forall c t, tl = c :: t -> is_space c = false) ->
  marker_at i (ws ++ ds ++ d :: ws' ++ tl) =
  Some (MState (i + length ws + length ds + 1 + length ws') tl [(1%nat, ds)]).
Proof.
  intros Nws Aws Nds Ads Hd Nws' Aws' Htl. unfold marker_at.
  destruct (take_drop_exact is_space ws (ds ++ d :: ws' ++ tl) Aws) as [-> ->].
  { intros c t' E. destruct ds as [|d0 ds]; [congruence|]. simpl in E, Ads.
    inversion E; subst. apply andb_true_iff in Ads. apply digit_not_space, Ads. }
  destruct (take_drop_exact is_digit ds (d :: ws' ++ tl) Ads) as [-> ->].
  { intros c t' E. inversion E; subst. apply delim_not_digit. assumption. }
  destruct ws as [|w ws]; [congruence|]. destruct ds as [|d0 ds]; [congruence|].
  rewrite Hd.
  destruct (take_drop_exact is_space ws' tl Aws' Htl) as [-> ->].
  destruct ws' as [|w' ws']; [congruence|]. reflexivity.
Qed.

Lemma marker_at_index i j s :
  marker_at j s =
  option_map (fun y => MState (endIndex y - i + j) (rest y) (captures y))
             (marker_at i s).
Proof.
  unfold marker_at.
  destruct (take_while is_space s); [reflexivity|].
  destruct (take_while is_digit _); [reflexivity|].
  destruct (drop_while is_digit _) as [|d s3]; [reflexivity|].
  destruct (is_ol_delim d); [|reflexivity].
  destruct (take_while is_space s3); [reflexivity|].
  simpl. f_equal. f_equal. lia.
Qed.

Lemma break_at_index i j s :
  break_at j s =
  option_map (fun y => MState (endIndex y - i + j) (rest y) (captures y))
             (break_at i s).
Proof.
  destruct s as [|c t]; simpl; [reflexivity|].
  destruct (c =? 46); [|reflexivity].
  rewrite (marker_at_index (S i) (S j)).
  destruct (marker_at (S i) t) as [y|] eqn:E; [|reflexivity].
  apply marker_at_Some in E.
  destruct E as (ws & ds & d & ws' & _ & _ & _ & _ & _ & _ & _ & _ & _ & E & _).
  simpl. f_equal. f_equal. lia.
Qed.

(** ** Global replacement *)

Arguments match_at : simpl never.

Lemma replace_from_skip ic r tp a : forall i t,
  replace_from ic r tp (length a) i (a ++ t) =
  replace_from ic r tp 0 (i + length a) t.
Proof.
  induction a as [|c a IH]; intros i t; simpl.
  - rewrite Nat.add_0_r. reflexivity.
  - rewrite IH. f_equal. lia.
Qed.

Lemma replace_from_copy ic r tp i c s :
  match_at ic r i (c :: s) = None ->
  replace_from ic r tp 0 i (c :: s) = c :: replace_from ic r tp 0 (S i) s.
Proof. intros H. simpl. rewrite H. reflexivity. Qed.

Lemma replace_from_match ic r tp i c a t y :
  match_at ic r i (c :: a ++ t) = Some y ->
  endIndex y = (i + S (length a))%nat ->
  replace_from ic r tp 0 i (c :: a ++ t) =
  expand tp y ++ replace_from ic r tp 0 (i + S (length a)) t.
Proof.
  intros H E. simpl. rewrite H, E.
  replace (i + S (length a) - i)%nat with (S (length a)) by lia.
  rewrite replace_from_skip. do 2 f_equal. lia.
Qed.

(** ** The pre-pass *)

Lemma prepass_from_index : forall s k i j,
  replace_from false INLINE_OL_BREAK BREAK_REPL k i s =
  replace_from false INLINE_OL_BREAK BREAK_REPL k j s.
Proof.
  induction s as [|c s IH]; intros k i j.
  - destruct k; reflexivity.
  - destruct k as [|k]; [|simpl; apply IH].
    cbn [replace_from]. rewrite !match_break_at, (break_at_index i j).
    destruct (break_at i (c :: s)) as [y|]; cbn [option_map].
    + cbn [endIndex]. rewrite Nat.add_sub. f_equal.
      destruct (endIndex y - i)%nat; [f_equal|]; apply IH.
    + f_equal. apply IH.
Qed.

Lemma break_at_Some i s y :
  break_at i s = Some y ->
  exists ws ds d ws',
    s = 46 :: ws ++ ds ++ d :: ws' ++ rest y /\
    ws <> [] /\ forallb is_space ws = true /\
    ds <> [] /\ forallb is_digit ds = true /\
    is_ol_delim d = true /\
    ws' <> [] /\ forallb is_space ws' = true /\
    (forall c t, rest y = c :: t -> is_space c = false) /\
    endIndex y = (i + S (length (ws ++ ds ++ d :: ws')))%nat /\
    captures y = [(1%nat, ds)].
Proof.
  destruct s as [|c t]; simpl; [discriminate|].
  destruct (N.eqb_spec c 46) as [->|]; [|discriminate]. intros H.
  apply marker_at_Some in H.
  destruct H as (ws & ds & d & ws' & E & H1 & H2 & H3 & H4 & H5 & H6 & H7 & H8 & H9 & H10).
  exists ws, ds, d, ws'. repeat split; try assumption.
  - rewrite E. reflexivity.
  - rewrite H9. repeat (rewrite length_app; simpl). lia.
Qed.

(** The equation the pre-pass obeys: at a match the replacement is written
    and the scan resumes after the match; elsewhere one code unit is
    copied. *)
Lemma prepass_unfold s :
  prepass s =
  match break_at 0 s with
  | Some y => 46 :: LF :: group 1 y ++ 46 :: 32 :: prepass (rest y)
  | None =>
      match s with
      | [] => []
      | c :: t => c :: prepass t
      end
  end.
Proof.
  unfold prepass, replace_all.
  destruct (break_at 0 s) as [y|] eqn:E.
  - pose proof E as E'. apply break_at_Some in E'.
    destruct E' as (ws & ds & d & ws' & Es & _ & _ & _ & _ & _ & _ & _ & _ & Ei & Ec).
    rewrite Es at 1.
    replace (ws ++ ds ++ d :: ws' ++ rest y)
      with ((ws ++ ds ++ d :: ws') ++ rest y)
      by (repeat (rewrite <- app_assoc; simpl); reflexivity).
    rewrite (replace_from_match _ _ _ _ _ _ _ y).
    + rewrite (prepass_from_index _ 0 _ 0). unfold expand, BREAK_REPL, group.
      simpl. rewrite <- app_assoc. reflexivity.
    + rewrite match_break_at. rewrite <- E. f_equal.
      rewrite Es. repeat (rewrite <- app_assoc; simpl). reflexivity.
    + assumption.
  - destruct s as [|c t]; [reflexivity|].
    cbn [replace_from]. rewrite match_break_at, E. f_equal.
    apply prepass_from_index.
Qed.

Lemma prepass_related_upto : forall n s,
  (length s <= n)%nat -> prepass_rel s (prepass s).
Proof.
  induction n as [|n IH]; intros s Hn.
  - destruct s; [|simpl in Hn; lia]. rewrite prepass_unfold. simpl. constructor.
  - rewrite prepass_unfold. destruct (break_at 0 s) as [y|] eqn:E.
    + apply break_at_Some in E.
      destruct E as (ws & ds & d & ws' & Es & N1 & A1 & N2 & A2 & Hd & N3 & A3 & _ & _ & Ec).
      unfold group. rewrite Ec. cbn [lookup Nat.eqb].
      rewrite Es at 1. apply PR_fire; try assumption.
      apply IH. rewrite Es in Hn. simpl in Hn.
      repeat (rewrite length_app in Hn; simpl in Hn). lia.
    + destruct s as [|c t]; constructor. apply IH. simpl in Hn. lia.
Qed.

Lemma prepass_related s : prepass_rel s (prepass s).
Proof. apply (prepass_related_upto (length s)). lia. Qed.

Lemma last_app_cons (a t : jsstring) c x : last (a ++ c :: t) x = last (c :: t) x.
Proof.
  induction a as [|b a IH]; [reflexivity|].
  simpl app. rewrite <- IH. simpl. destruct (a ++ c :: t) eqn:E; [|reflexivity].
  destruct a; discriminate.
Qed.

Lemma prepass_rel_nil_inv s s' : prepass_rel s s' -> (s = [] <-> s' = []).
Proof. intros H. destruct H; split; intros; congruence. Qed.

Lemma prepass_rel_last s s' x :
  prepass_rel s s' -> s <> [] -> last s' x = last s x \/ last s' x = 32.
Proof.
  induction 1 as [|c s s' H IH|ws ds d ws' s s' N1 A1 N2 A2 Hd N3 A3 H IH]; intros Hne.
  - congruence.
  - destruct s as [|c0 s].
    + apply prepass_rel_nil_inv in H. destruct H as [H _]. rewrite (H eq_refl). auto.
    + assert (Hs' : s' <> []).
      { intros E. apply prepass_rel_nil_inv in H. destruct H as [_ H]. specialize (H E). discriminate. }
      destruct s' as [|c1 s']; [congruence|]. apply IH. discriminate.
  - destruct s as [|c0 s].
    + apply prepass_rel_nil_inv in H. destruct H as [H _]. rewrite (H eq_refl).
      right. change (46 :: LF :: ds ++ [46; 32]) with ((46 :: LF :: ds) ++ 46 :: [32]).
      rewrite last_app_cons. reflexivity.
    + assert (Hs' : s' <> []).
      { intros E. apply prepass_rel_nil_inv in H. destruct H as [_ H]. specialize (H E). discriminate. }
      destruct s' as [|c1 s']; [congruence|].
      replace (46 :: LF :: ds ++ 46 :: 32 :: c1 :: s')
        with ((46 :: LF :: ds ++ 46 :: [32]) ++ c1 :: s')
        by (simpl; rewrite <- app_assoc; reflexivity).
      replace (46 :: ws ++ ds ++ d :: ws' ++ c0 :: s)
        with (((46 :: ws) ++ ds ++ d :: ws') ++ c0 :: s)
        by (repeat (rewrite <- app_assoc; simpl); reflexivity).
      rewrite !last_app_cons. apply IH. discriminate.
Qed.

Lemma digit_not_period c : is_digit c = true -> (c =? 46) = false.
Proof. unfold is_digit. intros H. bool_hyp H. bool_goal. lia. Qed.

Lemma space_not_period c : is_space c = true -> (c =? 46) = false.
Proof.
  unfold is_space, is_line_terminator. intros H. bool_hyp H. bool_goal. lia.
Qed.

Lemma ends_with_digit_suffix a t : ends_with_digit t -> ends_with_digit (a ++ t).
Proof.
  intros (p & c & -> & H). exists (a ++ p), c. rewrite app_assoc. auto.
Qed.

Lemma ends_after_period_suffix a t :
  ends_after_period t -> ends_after_period (a ++ t).
Proof.
  intros (p & ws & -> & H). exists (a ++ p), ws. rewrite <- app_assoc. auto.
Qed.

Lemma all_digits_ends_with_digit s :
  s <> [] -> forallb is_digit s = true -> ends_with_digit s.
Proof.
  intros Hne Hall. destruct (exists_last Hne) as (p & c & ->).
  exists p, c. split; [reflexivity|].
  rewrite forallb_app in Hall. apply andb_true_iff in Hall. simpl in Hall.
  destruct Hall as [_ Hall]. rewrite andb_true_r in Hall. assumption.
Qed.

(** A numeral that follows neither a digit nor a period and whitespace has
    no effect on the matches before it. *)
Lemma break_at_ext s d0 tl :
  is_digit d0 = true -> ~ ends_with_digit s -> ~ ends_after_period s ->
  break_at 0 (s ++ d0 :: tl) =
  option_map (fun y => MState (endIndex y) (rest y ++ d0 :: tl) (captures y))
             (break_at 0 s).
Proof.
  intros Hd0 Hnd Hnp. destruct s as [|c t]; simpl.
  { rewrite digit_not_period by assumption. reflexivity. }
  destruct (N.eqb_spec c 46) as [->|]; [|reflexivity].
  unfold marker_at.
  destruct (drop_while is_space t) as [|x s1'] eqn:E1.
  { apply drop_while_nil_iff in E1. destruct t as [|w t].
    - simpl. rewrite digit_not_space by assumption. reflexivity.
    - exfalso. apply Hnp. exists [], (w :: t). split; [reflexivity|].
      split; [discriminate|assumption]. }
  destruct (take_drop_inner is_space t (d0 :: tl)) as [-> ->];
    [rewrite E1; discriminate|]. rewrite E1.
  destruct (take_while is_space t) as [|w ws] eqn:Ews; [reflexivity|].
  pose proof (take_drop_while is_space t) as Et. rewrite Ews, E1 in Et.
  destruct (drop_while is_digit (x :: s1')) as [|d s3] eqn:E2.
  { exfalso. apply drop_while_nil_iff in E2. apply Hnd.
    change (46 :: t) with ([46] ++ t). rewrite <- Et.
    apply ends_with_digit_suffix. apply ends_with_digit_suffix.
    apply all_digits_ends_with_digit; [discriminate|assumption]. }
  destruct (take_drop_inner is_digit (x :: s1') (d0 :: tl)) as [-> ->];
    [rewrite E2; discriminate|]. rewrite E2.
  destruct (take_while is_digit (x :: s1')) as [|dd ds] eqn:Eds; [reflexivity|].
  cbn [app]. destruct (is_ol_delim d); [|reflexivity].
  destruct (drop_while is_space s3) as [|x3 s4] eqn:E3.
  - apply drop_while_nil_iff in E3.
    destruct (take_drop_exact is_space s3 (d0 :: tl) E3) as [-> ->].
    { intros c t' E. inversion E; subst. apply digit_not_space. assumption. }
    pose proof (take_drop_while is_space s3) as Es3.
    apply drop_while_nil_iff in E3. rewrite E3, app_nil_r in Es3. rewrite Es3.
    destruct s3; reflexivity.
  - destruct (take_drop_inner is_space s3 (d0 :: tl)) as [-> ->];
      [rewrite E3; discriminate|]. rewrite E3.
    destruct (take_while is_space s3); reflexivity.
Qed.

Lemma prepass_digit d0 tl :
  is_digit d0 = true -> prepass (d0 :: tl) = d0 :: prepass tl.
Proof.
  intros H. rewrite prepass_unfold. simpl.
  rewrite digit_not_period by assumption. reflexivity.
Qed.

Lemma prepass_split_upto : forall n a d0 tl,
  (length a <= n)%nat ->
  is_digit d0 = true -> ~ ends_with_digit a -> ~ ends_after_period a ->
  prepass (a ++ d0 :: tl) = prepass a ++ d0 :: prepass tl.
Proof.
  induction n as [|n IH]; intros a d0 tl Hn Hd Hnd Hnp.
  - destruct a; [|simpl in Hn; lia]. simpl. apply prepass_digit. assumption.
  - rewrite (prepass_unfold (a ++ d0 :: tl)), (prepass_unfold a).
    rewrite break_at_ext by assumption.
    destruct (break_at 0 a) as [y|] eqn:E; cbn [option_map].
    + apply break_at_Some in E.
      destruct E as (ws & ds & d & ws' & Es & _).
      unfold group. cbn [captures rest].
      assert (Hsuf : a = (46 :: ws ++ ds ++ d :: ws') ++ rest y).
      { rewrite Es. simpl. repeat (rewrite <- app_assoc; simpl). reflexivity. }
      rewrite IH; try assumption.
      * simpl. rewrite <- app_assoc. reflexivity.
      * rewrite Hsuf in Hn. rewrite length_app in Hn. simpl in Hn.
        unfold jsstring, cu in *. lia.
      * intros H. apply Hnd. rewrite Hsuf. apply ends_with_digit_suffix. assumption.
      * intros H. apply Hnp. rewrite Hsuf. apply ends_after_period_suffix. assumption.
    + destruct a as [|c t]; simpl.
      * reflexivity.
      * f_equal. apply IH; try assumption.
        -- simpl in Hn. lia.
        -- intros H. apply Hnd. apply (ends_with_digit_suffix [c]). assumption.
        -- intros H. apply Hnp. apply (ends_after_period_suffix [c]). assumption.
Qed.

Lemma prepass_split a d0 tl :
  is_digit d0 = true -> ~ ends_with_digit a -> ~ ends_after_period a ->
  prepass (a ++ d0 :: tl) = prepass a ++ d0 :: prepass tl.
Proof. apply (prepass_split_upto (length a)). lia. Qed.

Lemma prepass_no_period s :
  forallb (fun c => negb (c =? 46)) s = true -> prepass s = s.
Proof.
  induction s as [|c s IH]; intros H; rewrite prepass_unfold; simpl.
  - reflexivity.
  - simpl in H. apply andb_true_iff in H. destruct H as [Hc H].
    apply negb_true_iff in Hc. rewrite Hc. f_equal. auto.
Qed.

Lemma last_of_spaces ws : forall c,
  forallb is_space ws = true ->
  last (c :: ws) 0 = c \/ is_space (last (c :: ws) 0) = true.
Proof.
  induction ws as [|w ws IH]; intros c H; [left; reflexivity|].
  simpl in H. apply andb_true_iff in H. destruct H as [Hw H].
  right. change (last (c :: w :: ws) 0) with (last (w :: ws) 0).
  destruct (IH w H) as [->|E]; assumption.
Qed.

Lemma last_snoc (p : jsstring) x d : last (p ++ [x]) d = x.
Proof. rewrite last_app_cons. reflexivity. Qed.

Lemma context_after_other pre c ws :
  c <> 46 -> is_space c = false -> is_digit c = false ->
  forallb is_space ws = true ->
  ~ ends_with_digit (pre ++ c :: ws) /\ ~ ends_after_period (pre ++ c :: ws).
Proof.
  intros Hc Hsp Hdg Hws. split.
  - intros (p & x & E & Hx).
    apply (f_equal (fun l => last l 0)) in E.
    rewrite last_app_cons, last_snoc in E.
    destruct (last_of_spaces ws c Hws) as [E'|E']; rewrite E in E'.
    + congruence.
    + apply space_not_digit in E'. congruence.
  - intros (p & ws2 & E & Hne & Hall).
    apply (f_equal (fun l => drop_while is_space (rev l))) in E.
    rewrite !rev_app_distr in E. simpl in E. rewrite <- !app_assoc in E.
    rewrite (drop_while_app is_space (rev ws)) in E
      by (rewrite forallb_rev; assumption).
    rewrite (drop_while_app is_space (rev ws2)) in E
      by (rewrite forallb_rev; assumption).
    simpl in E. rewrite Hsp in E. inversion E. congruence.
Qed.

Lemma context_of_spaces ind :
  forallb is_space ind = true ->
  ~ ends_with_digit ind /\ ~ ends_after_period ind.
Proof.
  intros H. split.
  - intros (p & x & -> & Hx). apply (forallb_elem is_space p x []) in H.
    apply space_not_digit in H. congruence.
  - intros (p & ws2 & -> & _). apply (forallb_elem is_space p 46 ws2) in H.
    discriminate.
Qed.

Lemma spaces_no_period ind :
  forallb is_space ind = true ->
  forallb (fun c => negb (c =? 46)) ind = true.
Proof.
  induction ind as [|c ind IH]; simpl; [reflexivity|]. intros H.
  apply andb_true_iff in H. destruct H as [Hc H].
  rewrite (space_not_period c Hc). simpl. auto.
Qed.

(** ** The detector *)

Lemma reaches_lit : forall name nm i t caps,
  ci_eqb nm name = true ->
  reaches true (seqs (map Chr name)) (MState i (nm ++ t) caps)
               (MState (i + length nm) t caps).
Proof.
  induction name as [|a name IH]; intros [|x nm] i t caps H; simpl in H;
    try discriminate.
  - simpl. rewrite Nat.add_0_r. reflexivity.
  - apply andb_true_iff in H. destruct H as [Hx H].
    cbn [map seqs fold_right reaches].
    exists (MState (S i) (nm ++ t) caps). split.
    + exists x, (nm ++ t). cbn [rest endIndex captures chr_match].
      rewrite N.eqb_sym. auto.
    + replace (i + length (x :: nm))%nat with (S i + length nm)%nat by (simpl; lia).
      apply IH. assumption.
Qed.

Lemma reaches_alts ic r' x y : forall l r,
  In r' (r :: l) -> reaches ic r' x y -> reaches ic (alts r l) x y.
Proof.
  induction l as [|r0 l IH]; intros r Hin R; simpl in *.
  - destruct Hin as [->|[]]. assumption.
  - destruct Hin as [->|Hin]; [left; assumption|].
    right. apply IH; assumption.
Qed.

Lemma to_upper_digit x d :
  in_range 49 54 d = true -> to_upper x = to_upper d -> x = d.
Proof.
  unfold in_range, to_upper. intros H.
  bool_hyp H.
  destruct ((97 <=? x) && (x <=? 122)) eqn:E1;
    destruct ((97 <=? d) && (d <=? 122)) eqn:E2; bool_hyp E1; bool_hyp E2; lia.
Qed.

Ltac pick_alt :=
  solve [cbn [In]; repeat (first [left; reflexivity | right])].

Lemma reaches_tag name nm i t caps :
  In name TAG_NAMES -> ci_eqb nm (str name) = true ->
  exists r,
    HTML_PATTERN =
      seqs [Chr 60; opt (is_char 47); Grp 1 r; Cls tag_end] /\
    reaches true r (MState i (nm ++ t) caps) (MState (i + length nm) t caps).
Proof.
  intros Hin Hci. eexists. split; [reflexivity|].
  assert (Hlit : forall s, In (lit s)
            [ lit "p"; lit "br"; lit "strong"; lit "b"; lit "em"; lit "i";
              lit "ul"; lit "ol"; lit "li";
              Seq (Chr 104) (Cls (in_range 49 54));
              lit "a"; lit "div"; lit "span"; lit "blockquote";
              lit "pre"; lit "code"; lit "table" ] ->
            ci_eqb nm (str s) = true ->
            reaches true
              (alts (lit "p")
                 [ lit "br"; lit "strong"; lit "b"; lit "em"; lit "i";
                   lit "ul"; lit "ol"; lit "li";
                   Seq (Chr 104) (Cls (in_range 49 54));
                   lit "a"; lit "div"; lit "span"; lit "blockquote";
                   lit "pre"; lit "code"; lit "table" ])
              (MState i (nm ++ t) caps) (MState (i + length nm) t caps)).
  { intros s Hs Hc. eapply reaches_alts; [exact Hs|]. apply reaches_lit. assumption. }
  assert (Hh : forall d, in_range 49 54 d = true -> ci_eqb nm [104; d] = true ->
            reaches true
              (alts (lit "p")
                 [ lit "br"; lit "strong"; lit "b"; lit "em"; lit "i";
                   lit "ul"; lit "ol"; lit "li";
                   Seq (Chr 104) (Cls (in_range 49 54));
                   lit "a"; lit "div"; lit "span"; lit "blockquote";
                   lit "pre"; lit "code"; lit "table" ])
              (MState i (nm ++ t) caps) (MState (i + length nm) t caps)).
  { intros d Hd Hc.
    eapply (reaches_alts true (Seq (Chr 104) (Cls (in_range 49 54)))); [pick_alt|].
    destruct nm as [|x [|y [|z nm]]]; simpl in Hc; try discriminate;
      try (repeat rewrite andb_false_r in Hc; discriminate).
    rewrite andb_true_r in Hc. apply andb_true_iff in Hc. destruct Hc as [Hx Hy].
    apply N.eqb_eq in Hy. apply (to_upper_digit y d Hd) in Hy. subst y.
    cbn [reaches]. exists (MState (S i) (d :: t) caps). split.
    - exists x, (d :: t). cbn [rest endIndex captures chr_match app].
      rewrite N.eqb_sym. auto.
    - exists d, t. cbn [rest endIndex captures cls_match].
      rewrite Hd. repeat split. simpl. f_equal. lia. }
  unfold TAG_NAMES in Hin. simpl in Hin.
  repeat (destruct Hin as [<-|Hin];
          [match type of Hci with
           | ci_eqb _ (str ?s) = true =>
               first [ apply (Hlit s); [pick_alt|exact Hci]
                     | eapply Hh; [|exact Hci]; reflexivity ]
           end|]).
  contradiction.
Qed.

Lemma html_boundary_detected pre slash name nm c post :
  In name TAG_NAMES -> ci_eqb nm (str name) = true ->
  slash = [] \/ slash = [47] -> tag_end c = true ->
  regex_test true HTML_PATTERN (pre ++ 60 :: slash ++ nm ++ c :: post) = true.
Proof.
  intros Hin Hci Hsl Hc.
  unfold regex_test, regex_exec.
  assert (H : search true HTML_PATTERN 0 (pre ++ 60 :: slash ++ nm ++ c :: post) <> None).
  { apply search_complete. unfold match_at.
    destruct (reaches_tag name nm (S (0 + length pre) + length slash) (c :: post) []
                Hin Hci) as (r & -> & R).
    eapply matcher_complete; [|discriminate].
    cbn [seqs fold_right reaches].
    eexists. split.
    { exists 60, (slash ++ nm ++ c :: post). split; [reflexivity|].
      split; reflexivity. }
    eexists. split.
    { exists slash, (nm ++ c :: post). cbn [rest endIndex captures].
      split; [reflexivity|]. split.
      { destruct Hsl as [->| ->]; reflexivity. }
      split; [lia|]. split.
      { destruct Hsl as [->| ->]; simpl; lia. }
      reflexivity. }
    eexists. split.
    { eexists. split; [exact R|reflexivity]. }
    eexists. split; [|reflexivity].
    exists c, post. cbn [rest endIndex captures cls_match].
    rewrite Hc. auto. }
  destruct (search true HTML_PATTERN 0 _) as [[j y]|]; [reflexivity|congruence].
Qed.

(** ** Line patterns *)

Lemma exec_anchored ic r s :
  regex_exec ic (Seq Bol r) s = match_at ic (Seq Bol r) 0 s.
Proof.
  unfold regex_exec. rewrite search_anchored.
  destruct (match_at ic (Seq Bol r) 0 s); reflexivity.
Qed.

Lemma ol_exec_content line m :
  regex_exec false OL_RE line = Some m ->
  exists c0 tl, group 1 m = c0 :: tl /\ (is_space c0 = false \/ tl = []).
Proof.
  unfold OL_RE. cbn [seqs fold_right]. rewrite exec_anchored.
  unfold match_at, star, plus. cbn [matcher endIndex rest captures Nat.eqb].
  change (cls_match false is_blank_tab) with is_blank_tab.
  change (cls_match false is_digit) with is_digit.
  change (cls_match false is_space) with is_space.
  change (cls_match false is_dot) with is_dot.
  rewrite rep_inf_det.
  2:{ intros j c t Hc. rewrite rep_inf_det.
      - rewrite take_while_stop by (apply blank_tab_not_digit; assumption). reflexivity.
      - intros j' c' t' Hc'. change (cls_match false is_ol_delim c') with (is_ol_delim c').
        rewrite digit_not_delim by assumption. reflexivity. }
  cbn [Nat.leb].
  rewrite rep_inf_det.
  2:{ intros j' c' t' Hc'. change (cls_match false is_ol_delim c') with (is_ol_delim c').
      rewrite digit_not_delim by assumption. reflexivity. }
  destruct (1 <=? _)%nat; [|discriminate].
  destruct (drop_while is_digit _) as [|d s3]; [discriminate|].
  change (cls_match false is_ol_delim d) with (is_ol_delim d).
  destruct (is_ol_delim d); [|discriminate].
  intros H. apply rep_inf_Some in H.
  destruct H as (w & t & Es3 & Hw & Hlen & Hk & Hnext).
  rewrite rep_inf_total in Hk by discriminate.
  destruct (take_while is_dot t) as [|c0 content] eqn:Et; [discriminate|].
  cbn [length Nat.leb] in Hk. inversion Hk; subst m; clear Hk.
  unfold group. cbn [captures lookup Nat.eqb].
  match goal with |- context [firstn ?n t] =>
    replace n with (length (take_while is_dot t)) by (rewrite Et; simpl; lia) end.
  rewrite firstn_take_while, Et.
  exists c0, content. split; [reflexivity|].
  destruct (is_space c0) eqn:Hc0; [right|left; reflexivity].
  destruct t as [|c t']; [discriminate|]. simpl in Et.
  destruct (is_dot c); [|discriminate]. inversion Et; subst c.
  specialize (Hnext c0 t' eq_refl Hc0).
  rewrite rep_inf_total in Hnext by discriminate.
  destruct (take_while is_dot t'); [reflexivity|discriminate].
Qed.

Lemma wf_UL_RE : wf_regex UL_RE = true.
Proof. reflexivity. Qed.
Lemma wf_OL_RE : wf_regex OL_RE = true.
Proof. reflexivity. Qed.
Lemma wf_H_RE : wf_regex H_RE = true.
Proof. reflexivity. Qed.

Lemma exec_sound ic r s y :
  wf_regex r = true -> regex_exec ic r s = Some y ->
  exists a b j, s = a ++ b /\ j = length a /\ reaches ic r (MState j b []) y.
Proof.
  intros Hwf H. unfold regex_exec in H.
  destruct (search ic r 0 s) as [[j y']|] eqn:E; [|discriminate].
  inversion H; subst y'. apply search_sound in E.
  destruct E as (a & b & -> & -> & E). unfold match_at in E.
  apply matcher_sound in E; [|assumption].
  destruct E as (y' & R & Ey). inversion Ey; subst y'.
  exists a, b, (length a). auto.
Qed.

(** An unordered-list line holds a marker, an ordered-list line a digit. *)
Lemma ul_exec_marker line m :
  regex_exec false UL_RE line = Some m ->
  exists a ch b, line = a ++ ch :: b /\ is_ul_marker ch = true.
Proof.
  intros H. apply exec_sound in H; [|apply wf_UL_RE].
  destruct H as (a & b & j & -> & _ & R).
  unfold UL_RE in R. cbn [seqs fold_right reaches] in R.
  destruct R as (m1 & [_ ->] & m2 & (w & s & E & _ & _ & _ & ->) & m3 & R & _).
  destruct R as (ch & s' & E' & Hch & _). cbn [rest] in E, E'.
  subst b s. exists (a ++ w), ch, s'. rewrite <- app_assoc. auto.
Qed.

Lemma ol_exec_digit line m :
  regex_exec false OL_RE line = Some m ->
  exists a ch b, line = a ++ ch :: b /\ is_digit ch = true.
Proof.
  intros H. apply exec_sound in H; [|apply wf_OL_RE].
  destruct H as (a & b & j & -> & _ & R).
  unfold OL_RE in R. cbn [seqs fold_right reaches] in R.
  destruct R as (m1 & [_ ->] & m2 & (w & s & E & _ & _ & _ & ->) & m3 & R & _).
  destruct R as (w' & s' & E' & Hw' & Hlen & _). cbn [rest] in E, E'.
  destruct w' as [|ch w']; [simpl in Hlen; lia|].
  simpl in Hw'. apply andb_true_iff in Hw'. destruct Hw' as [Hch _].
  subst b s. exists (a ++ w), ch, (w' ++ s'). rewrite <- app_assoc. auto.
Qed.

Lemma blank_not_ul line :
  trim line = [] -> regex_exec false UL_RE line = None.
Proof.
  intros H. apply trim_nil_iff in H.
  destruct (regex_exec false UL_RE line) as [m|] eqn:E; [|reflexivity].
  apply ul_exec_marker in E. destruct E as (a & ch & b & -> & Hch).
  apply forallb_elem in H. apply marker_not_space in Hch. congruence.
Qed.

Lemma blank_not_ol line :
  trim line = [] -> regex_exec false OL_RE line = None.
Proof.
  intros H. apply trim_nil_iff in H.
  destruct (regex_exec false OL_RE line) as [m|] eqn:E; [|reflexivity].
  apply ol_exec_digit in E. destruct E as (a & ch & b & -> & Hch).
  apply forallb_elem in H. apply digit_not_space in Hch. congruence.
Qed.

(** The level of a heading. *)
Lemma h_exec_level line m :
  regex_exec false H_RE line = Some m ->
  (1 <= length (group 1 m) <= 6)%nat.
Proof.
  intros H. apply exec_sound in H; [|apply wf_H_RE].
  destruct H as (a & b & j & -> & _ & R).
  unfold H_RE in R. cbn [seqs fold_right reaches] in R.
  destruct R as (m1 & [_ ->] & m2 & (y0 & R1 & ->) & m3 & R2 & m4 & (y1 & R3 & ->) & ->).
  destruct R1 as (w & s & E & _ & Hmin & Hmax & ->).
  destruct R2 as (w2 & s2 & _ & _ & _ & _ & ->).
  destruct R3 as (w3 & s3 & _ & _ & _ & _ & ->).
  cbn [rest endIndex captures within] in *. subst b.
  unfold group. cbn [captures lookup Nat.eqb].
  rewrite Nat.add_comm, Nat.add_sub, firstn_app, Nat.sub_diag, firstn_all.
  simpl. rewrite app_nil_r. lia.
Qed.

(** ** Splitting at a pattern *)

Lemma split_from_first ic r : forall s i cur,
  cur <> [] ->
  exists p tl, split_from ic r 0 i cur s = (rev cur ++ p) :: tl.
Proof.
  induction s as [|c s IH]; intros i cur Hne.
  - exists [], []. simpl. rewrite app_nil_r. reflexivity.
  - cbn [split_from].
    destruct (match_at ic r i (c :: s)) as [y|].
    + destruct (endIndex y - i)%nat; destruct cur as [|c1 cur]; try congruence;
        eexists [], _; rewrite app_nil_r; reflexivity.
    + destruct (IH (S i) (c :: cur)) as (p & tl & E); [discriminate|].
      rewrite E. exists (c :: p), tl. simpl. rewrite <- app_assoc. reflexivity.
Qed.

Lemma split_from_skip ic r a : forall i cur t,
  split_from ic r (length a) i cur (a ++ t) =
  match a with
  | [] => split_from ic r 0 i cur t
  | _ :: _ => split_from ic r 0 (i + length a) [] t
  end.
Proof.
  induction a as [|c a IH]; intros i cur t; [reflexivity|].
  cbn [length app split_from]. rewrite IH.
  destruct a; simpl; f_equal; lia.
Qed.

Lemma ol_items_nonempty c0 tl :
  is_space c0 = false \/ tl = [] -> ol_items (c0 :: tl) <> [].
Proof.
  intros H. unfold ol_items, regex_split.
  cbn [split_from]. rewrite match_marker_at.
  assert (Hno : tl = [] -> marker_at 0 [c0] = None).
  { intros _. unfold marker_at. simpl. destruct (is_space c0); reflexivity. }
  destruct (is_space c0) eqn:Hc0.
  - destruct H as [H|H]; [discriminate|]. subst tl. rewrite (Hno eq_refl).
    simpl. discriminate.
  - assert (E : marker_at 0 (c0 :: tl) = None).
    { unfold marker_at. simpl. rewrite Hc0. reflexivity. }
    rewrite E.
    destruct (split_from_first false INLINE_OL_SPLIT tl 1 [c0]) as (p & ps & ->);
      [discriminate|].
    match goal with |- context [Nat.ltb ?a ?b] => destruct (Nat.ltb a b) end;
      [|discriminate].
    cbn [rev app every_other flat_map].
    destruct (trim (c0 :: p)) eqn:Et; [|discriminate].
    exfalso. revert Et. apply trim_cons_not_space. assumption.
Qed.

(** ** The loop *)

Lemma flushList_empty s : listItems s = [] -> flushList s = s.
Proof. unfold flushList. intros ->. reflexivity. Qed.

Lemma flushList_pending s :
  listItems s <> [] ->
  flushList s = Conv (out s ++ [list_block (listType s) (listItems s)]) None [].
Proof. unfold flushList. destruct (listItems s); [congruence|reflexivity]. Qed.

Lemma flushList_clears s :
  listType (flushList s) = listType s /\ listItems s = [] \/
  listType (flushList s) = None /\ listItems (flushList s) = [].
Proof.
  unfold flushList. destruct (listItems s); [left|right]; auto.
Qed.

Lemma step_ok s line : accumulator_ok s -> accumulator_ok (step s line).
Proof.
  unfold accumulator_ok, step. intros Hs.
  destruct (regex_exec false UL_RE line) as [m|].
  { cbn [listType listItems]. split; [discriminate|].
    intros E. apply app_eq_nil in E. destruct E; discriminate. }
  destruct (regex_exec false OL_RE line) as [m|] eqn:Eol.
  { cbn [listType listItems]. split; [discriminate|].
    intros E. apply app_eq_nil in E. destruct E as [_ E].
    apply ol_exec_content in Eol. destruct Eol as (c0 & tl & Eg & Hc).
    rewrite Eg in E. apply ol_items_nonempty in E; [contradiction|assumption]. }
  assert (Hf : accumulator_ok (flushList s)).
  { unfold accumulator_ok. destruct (flushList_clears s) as [[E1 E2]|[E1 E2]].
    - rewrite (flushList_empty s E2). assumption.
    - rewrite E1, E2. tauto. }
  destruct (trim line).
  - destruct (listType s) eqn:Et; [rewrite Et; assumption|exact Hf].
  - destruct (regex_exec false H_RE line); exact Hf.
Qed.

Lemma fold_step_ok lines : forall s,
  accumulator_ok s -> accumulator_ok (fold_left step lines s).
Proof.
  induction lines as [|l lines IH]; intros s Hs; simpl; [assumption|].
  apply IH, step_ok, Hs.
Qed.

Lemma run_ok lines : accumulator_ok (run lines).
Proof. apply fold_step_ok. unfold accumulator_ok. simpl. tauto. Qed.

Lemma pending_typed s :
  accumulator_ok s -> forall k, listType s = Some k -> listItems s <> [].
Proof. intros [H1 H2] k Hk E. apply H2 in E. congruence. Qed.

Lemma step_blank s l :
  accumulator_ok s -> trim l = [] ->
  (listItems s <> [] -> step s l = s) /\
  (listItems s = [] -> step s l = Conv (out s ++ [str "<br>"]) None []).
Proof.
  intros Hs Hl. unfold step.
  rewrite (blank_not_ul l Hl), (blank_not_ol l Hl), Hl.
  destruct Hs as [H1 H2]. split; intros H.
  - destruct (listType s); [reflexivity|]. exfalso. apply H, H1. reflexivity.
  - rewrite (H2 H), (flushList_empty s H). unfold push_out.
    rewrite (H2 H), H. reflexivity.
Qed.

Lemma step_ul_after_ol s l m :
  accumulator_ok s -> listType s = Some ol ->
  regex_exec false UL_RE l = Some m ->
  step s l = Conv (out s ++ [list_block (Some ol) (listItems s)]) (Some ul)
                  [li (inlineFormat (group 1 m))].
Proof.
  intros Hs Ht Hm. unfold step. rewrite Hm, Ht.
  rewrite (flushList_pending s (pending_typed s Hs ol Ht)), Ht. reflexivity.
Qed.

Lemma step_ol_after_ul s l m :
  accumulator_ok s -> listType s = Some ul ->
  regex_exec false UL_RE l = None -> regex_exec false OL_RE l = Some m ->
  step s l = Conv (out s ++ [list_block (Some ul) (listItems s)]) (Some ol)
                  (ol_items (group 1 m)).
Proof.
  intros Hs Ht Hu Hm. unfold step. rewrite Hu, Hm, Ht.
  rewrite (flushList_pending s (pending_typed s Hs ul Ht)), Ht. reflexivity.
Qed.

Lemma step_plain s l :
  regex_exec false UL_RE l = None -> regex_exec false OL_RE l = None ->
  trim l <> [] ->
  step s l = push_out (flushList s) (plain_block l).
Proof.
  intros Hu Ho Hl. unfold step, plain_block. rewrite Hu, Ho.
  destruct (trim l); [congruence|].
  destruct (regex_exec false H_RE l); reflexivity.
Qed.

(** ** The items of an ordered-list line *)

Lemma starts_marker_iff i s : marker_at i s <> None <-> starts_marker s.
Proof.
  split.
  - destruct (marker_at i s) as [y|] eqn:E; [|congruence]. intros _.
    apply marker_at_Some in E.
    destruct E as (ws & ds & d & ws' & -> & H1 & H2 & H3 & H4 & H5 & H6 & H7 & _).
    exists (ws ++ ds ++ d :: ws'), ds, (rest y). split.
    + exists ws, d, ws'. repeat split; assumption.
    + repeat (rewrite <- app_assoc; simpl). reflexivity.
  - intros (m & ds & tl & (ws & d & ws' & -> & H1 & H2 & H3 & H4 & H5 & H6 & H7) & ->).
    replace ((ws ++ ds ++ d :: ws') ++ tl)
      with (ws ++ ds ++ d :: (ws' ++ take_while is_space tl)
              ++ drop_while is_space tl).
    + rewrite marker_at_intro; try assumption; try discriminate.
      * intros E. apply app_eq_nil in E. destruct E. congruence.
      * rewrite forallb_app, H7, take_while_all. reflexivity.
      * intros c t E. apply drop_while_head in E. assumption.
    + repeat (rewrite <- app_assoc; simpl). rewrite take_drop_while. reflexivity.
Qed.

Lemma not_starts_marker i s : ~ starts_marker s -> marker_at i s = None.
Proof.
  intros H. destruct (marker_at i s) eqn:E; [|reflexivity].
  exfalso. apply H. apply (starts_marker_iff i). congruence.
Qed.

Lemma split_walk : forall p tail i cur,
  (forall a b, p = a ++ b -> b <> [] -> ~ starts_marker (b ++ tail)) ->
  split_from false INLINE_OL_SPLIT 0 i cur (p ++ tail) =
  split_from false INLINE_OL_SPLIT 0 (i + length p) (rev p ++ cur) tail.
Proof.
  induction p as [|c p IH]; intros tail i cur H.
  - simpl. rewrite Nat.add_0_r. reflexivity.
  - cbn [app split_from]. rewrite match_marker_at.
    rewrite (not_starts_marker i (c :: p ++ tail)).
    + rewrite IH.
      * simpl. rewrite <- app_assoc. simpl. f_equal. lia.
      * intros a b E. apply (H (c :: a) b). rewrite E. reflexivity.
    + apply (H [] (c :: p)); [reflexivity|discriminate].
Qed.

Lemma split_skip : forall a i t,
  split_from false INLINE_OL_SPLIT (length a) i [] (a ++ t) =
  split_from false INLINE_OL_SPLIT 0 (i + length a) [] t.
Proof.
  induction a as [|c a IH]; intros i t.
  - simpl. rewrite Nat.add_0_r. reflexivity.
  - cbn [length app split_from]. rewrite IH. f_equal. lia.
Qed.

Lemma split_fire m ds tl i cur :
  is_marker m ds -> (forall c t, tl = c :: t -> is_space c = false) ->
  split_from false INLINE_OL_SPLIT 0 i cur (m ++ tl) =
  rev cur :: ds :: split_from false INLINE_OL_SPLIT 0 (i + length m) [] tl.
Proof.
  intros (ws & d & ws' & -> & H1 & H2 & H3 & H4 & H5 & H6 & H7) Htl.
  destruct ws as [|w ws]; [congruence|].
  replace (((w :: ws) ++ ds ++ d :: ws') ++ tl)
    with (w :: (ws ++ ds ++ d :: ws') ++ tl) by reflexivity.
  cbn [split_from]. rewrite match_marker_at.
  replace (w :: (ws ++ ds ++ d :: ws') ++ tl)
    with ((w :: ws) ++ ds ++ d :: ws' ++ tl)
    by (repeat (rewrite <- app_assoc; simpl); reflexivity).
  rewrite marker_at_intro by assumption.
  cbn [endIndex].
  replace (i + length (w :: ws) + length ds + 1 + length ws' - i)%nat
    with (S (length (ws ++ ds ++ d :: ws')))
    by (simpl; repeat (rewrite length_app; simpl); lia).
  unfold group. cbn [captures lookup Nat.eqb].
  replace ((w :: ws) ++ ds ++ d :: ws' ++ tl)
    with (w :: (ws ++ ds ++ d :: ws') ++ tl)
    by (repeat (rewrite <- app_assoc; simpl); reflexivity).
  rewrite split_skip. do 3 f_equal. simpl. lia.
Qed.

Lemma marker_nonempty m ds : is_marker m ds -> m <> [].
Proof.
  intros (ws & d & ws' & -> & H1 & _) E. apply app_eq_nil in E. tauto.
Qed.

Lemma marker_split_pieces s ps : marker_split s ps -> ps <> [].
Proof. destruct 1; discriminate. Qed.

Lemma split_from_spec s ps :
  marker_split s ps ->
  forall i cur,
    every_other (split_from false INLINE_OL_SPLIT 0 i cur s)
      = (rev cur ++ hd [] ps) :: tl ps /\
    length (split_from false INLINE_OL_SPLIT 0 i cur s)
      = (2 * length ps - 1)%nat.
Proof.
  induction 1 as [p Hp|p m ds tl ps Hm Htl Hp Hs IH]; intros i cur.
  - assert (E : split_from false INLINE_OL_SPLIT 0 i cur p = [rev cur ++ p]).
    { rewrite <- (app_nil_r p) at 1. rewrite split_walk.
      - simpl. rewrite rev_app_distr, rev_involutive. reflexivity.
      - intros a b E _. rewrite app_nil_r. apply (Hp a b E). }
    rewrite E. simpl. auto.
  - rewrite split_walk by assumption.
    rewrite (split_fire m ds tl _ _ Hm Htl).
    destruct (IH (i + length p + length m)%nat []) as [E1 E2].
    pose proof (marker_split_pieces tl ps Hs) as Hne.
    destruct ps as [|p0 ps]; [congruence|].
    cbn [every_other length]. rewrite E1, E2.
    rewrite rev_app_distr, rev_involutive. simpl. split; [reflexivity|lia].
Qed.

Lemma marker_split_nil ps : marker_split [] ps -> ps = [[]].
Proof.
  intros H. inversion H as [p Hp|p m ds tl ps' Hm Htl Hp Hs E]; [reflexivity|].
  apply app_eq_nil in E. destruct E as [_ E].
  apply app_eq_nil in E. destruct E as [E _].
  apply marker_nonempty in Hm. contradiction.
Qed.

Lemma regex_split_spec s ps :
  marker_split s ps ->
  every_other (regex_split false INLINE_OL_SPLIT s) = ps /\
  length (regex_split false INLINE_OL_SPLIT s) = (2 * length ps - 1)%nat.
Proof.
  intros H. destruct s as [|c s].
  - apply marker_split_nil in H. subst ps. vm_compute. auto.
  - unfold regex_split. destruct (split_from_spec (c :: s) ps H 0%nat []) as [E1 E2].
    rewrite E1, E2. pose proof (marker_split_pieces _ _ H) as Hne.
    destruct ps; [congruence|]. auto.
Qed.

Lemma items_of_pieces ps :
  flat_map (fun part => match trim part with
                        | [] => []
                        | _ :: _ => [li (inlineFormat (trim part))]
                        end) ps
  = map (fun t => li (inlineFormat t)) (filter nonempty (map trim ps)).
Proof.
  induction ps as [|p ps IH]; simpl; [reflexivity|].
  rewrite IH. destruct (trim p); reflexivity.
Qed.

Lemma ol_items_spec content ps :
  marker_split content ps -> (2 <= length ps)%nat ->
  ol_items content
  = map (fun t => li (inlineFormat t)) (filter nonempty (map trim ps)).
Proof.
  intros H Hlen. unfold ol_items.
  destruct (regex_split_spec content ps H) as [E1 E2].
  rewrite E1, E2.
  replace (1 <? 2 * length ps - 1)%nat with true
    by (symmetry; apply Nat.ltb_lt; lia).
  apply items_of_pieces.
Qed.

Lemma in_tails : forall p a b, p = a ++ b -> b <> [] -> In b (tails p).
Proof.
  induction p as [|c p IH]; intros a b E Hb.
  - destruct a; destruct b; simpl in E; congruence.
  - destruct a as [|c' a]; simpl in E.
    + subst b. left. reflexivity.
    + inversion E; subst. right. apply (IH a b); auto.
Qed.

Lemma marker_free_spec p tail :
  marker_free p tail = true ->
  forall a b, p = a ++ b -> b <> [] -> ~ starts_marker (b ++ tail).
Proof.
  unfold marker_free. intros H a b E Hb Hs.
  rewrite forallb_forall in H. specialize (H b (in_tails p a b E Hb)).
  apply (starts_marker_iff 0) in Hs.
  destruct (marker_at 0 (b ++ tail)); [discriminate|congruence].
Qed.

Lemma marker_free_last p :
  marker_free p [] = true ->
  forall a b, p = a ++ b -> ~ starts_marker b.
Proof.
  intros H a b E. destruct b as [|c b].
  - intros (m & ds & tl & Hm & E'). apply marker_nonempty in Hm.
    destruct m; [congruence|discriminate].
  - rewrite <- (app_nil_r (c :: b)).
    apply (marker_free_spec p [] H a); [assumption|discriminate].
Qed.

Lemma not_starts_marker_nil : ~ starts_marker [].
Proof.
  intros (m & ds & tl & Hm & E). apply marker_nonempty in Hm.
  destruct m; [congruence|discriminate].
Qed.

(** Either no marker starts anywhere in [s], or there is a leftmost one. *)
Lemma first_marker s :
  (forall a b, s = a ++ b -> ~ starts_marker b) \/
  (exists p b y,
     s = p ++ b /\ marker_at 0 b = Some y /\
     forall a' b', p = a' ++ b' -> b' <> [] -> ~ starts_marker (b' ++ b)).
Proof.
  induction s as [|c s IH].
  - left. intros a b E. destruct a; destruct b; try discriminate.
    apply not_starts_marker_nil.
  - destruct (marker_at 0 (c :: s)) as [y|] eqn:E.
    + right. exists [], (c :: s), y. repeat split; [assumption|].
      intros a' b' E' Hb'. destruct a'; destruct b'; simpl in E'; congruence.
    + assert (Hc : ~ starts_marker (c :: s)).
      { intros H. apply (starts_marker_iff 0) in H. congruence. }
      destruct IH as [H|(p & b & y & -> & Hy & Hp)].
      * left. intros a b E'. destruct a as [|c' a]; simpl in E'.
        -- subst b. assumption.
        -- inversion E'; subst. apply (H a b). reflexivity.
      * right. exists (c :: p), b, y. repeat split; [assumption|].
        intros a' b' E' Hb'. destruct a' as [|c' a']; simpl in E'.
        -- subst b'. assumption.
        -- inversion E'; subst. apply (Hp a' b'); auto.
Qed.

Lemma marker_split_exists_upto : forall n s,
  (length s <= n)%nat -> exists ps, marker_split s ps.
Proof.
  induction n as [|n IH]; intros s Hn.
  - destruct s; [|simpl in Hn; lia]. exists [[]]. apply MS_last.
    intros a b E. destruct a; destruct b; try discriminate.
    apply not_starts_marker_nil.
  - destruct (first_marker s) as [H|(p & b & y & -> & Hy & Hp)].
    + exists [s]. apply MS_last. assumption.
    + apply marker_at_Some in Hy.
      destruct Hy as (ws & ds & d & ws' & Eb & H1 & H2 & H3 & H4 & H5 & H6 & H7 & H8 & _).
      assert (Eb' : b = (ws ++ ds ++ d :: ws') ++ rest y).
      { rewrite Eb. repeat (rewrite <- app_assoc; simpl). reflexivity. }
      destruct (IH (rest y)) as (ps & Hps).
      { rewrite Eb' in Hn. rewrite !length_app in Hn. simpl in Hn.
        unfold jsstring, cu in *. lia. }
      exists (p :: ps). rewrite Eb'.
      apply (MS_cons p (ws ++ ds ++ d :: ws') ds (rest y) ps).
      * exists ws, d, ws'. repeat split; assumption.
      * assumption.
      * rewrite <- Eb'. assumption.
      * assumption.
Qed.

Lemma marker_split_exists s : exists ps, marker_split s ps.
Proof. apply (marker_split_exists_upto (length s)). lia. Qed.

(** A string in which a marker starts somewhere has at least two pieces. *)
Lemma marker_split_two s ps a b :
  marker_split s ps -> s = a ++ b -> starts_marker b -> (2 <= length ps)%nat.
Proof.
  intros H E Hb. destruct H as [p Hp|p m ds tl ps Hm Htl Hp Hs].
  - exfalso. apply (Hp a b E Hb).
  - apply marker_split_pieces in Hs. destruct ps; [congruence|]. simpl. lia.
Qed.

(** ** Inline formatting *)

Lemma replace_from_none ic r tp : forall s i,
  (forall a b, s = a ++ b -> match_at ic r (i + length a) b = None) ->
  replace_from ic r tp 0 i s = s.
Proof.
  induction s as [|c s IH]; intros i H.
  - pose proof (H [] [] eq_refl) as H0. simpl in H0. rewrite Nat.add_0_r in H0.
    cbn [replace_from]. rewrite H0. reflexivity.
  - rewrite replace_from_copy.
    + f_equal. apply IH. intros a b E.
      replace (S i + length a)%nat with (i + length (c :: a))%nat by (simpl; lia).
      apply H. rewrite E. reflexivity.
    + specialize (H [] (c :: s) eq_refl). simpl in H. rewrite Nat.add_0_r in H. exact H.
Qed.

Lemma stars_app a b : stars (a ++ b) = (stars a + stars b)%nat.
Proof. apply count_occ_app. Qed.

Lemma chr_match_exact a ch : chr_match false a ch = true -> ch = a.
Proof. unfold chr_match. intros H. apply N.eqb_eq in H. auto. Qed.

Lemma bold_needs_stars i b :
  match_at false BOLD_RE i b <> None -> (2 <= stars b)%nat.
Proof.
  destruct (match_at false BOLD_RE i b) as [y|] eqn:E; [|congruence]. intros _.
  unfold match_at in E. apply matcher_sound in E; [|reflexivity].
  destruct E as (y' & R & _). unfold BOLD_RE in R.
  cbn [seqs fold_right reaches] in R.
  destruct R as (m1 & (c1 & s1 & E1 & H1 & ->) & m2 & (c2 & s2 & E2 & H2 & ->) & _).
  cbn [rest] in E1, E2. subst b s1.
  apply chr_match_exact in H1, H2. subst c1 c2.
  unfold stars. simpl. lia.
Qed.

Lemma italic_needs_stars i b :
  match_at false ITALIC_RE i b <> None -> (2 <= stars b)%nat.
Proof.
  destruct (match_at false ITALIC_RE i b) as [y|] eqn:E; [|congruence]. intros _.
  unfold match_at in E. apply matcher_sound in E; [|reflexivity].
  destruct E as (y' & R & _). unfold ITALIC_RE in R.
  cbn [seqs fold_right reaches] in R.
  destruct R as (m1 & (c1 & s1 & E1 & H1 & ->) & m2 & (y0 & R0 & ->) & m3 & R3 & _).
  destruct R0 as (w & s2 & E2 & _ & _ & _ & ->).
  destruct R3 as (c3 & s3 & E3 & H3 & _).
  cbn [rest] in E1, E2, E3. subst b s1 s2.
  apply chr_match_exact in H1, H3. subst c1 c3.
  unfold stars. simpl. rewrite count_occ_app. simpl. lia.
Qed.

Lemma few_stars_untouched r tp s :
  (forall i b, match_at false r i b <> None -> (2 <= stars b)%nat) ->
  (stars s <= 1)%nat ->
  replace_all false r tp s = s.
Proof.
  intros Hr Hs. unfold replace_all. apply replace_from_none.
  intros a b E. destruct (match_at false r (0 + length a) b) eqn:Em; [|reflexivity].
  exfalso. assert (H : (2 <= stars b)%nat) by (apply (Hr (0 + length a)%nat); congruence).
  rewrite E, stars_app in Hs. lia.
Qed.

(** What a match of the code pattern looks like. *)
Lemma code_match i s y :
  match_at false CODE_RE i s = Some y ->
  exists w, s = 96 :: w ++ 96 :: rest y /\ group 1 y = w /\
            endIndex y = (i + S (length (w ++ [96%N])))%nat.
Proof.
  intros E. unfold match_at in E. apply matcher_sound in E; [|reflexivity].
  destruct E as (y' & R & Ey). inversion Ey; subst y'; clear Ey.
  unfold CODE_RE in R. cbn [seqs fold_right reaches] in R.
  destruct R as (m1 & (c1 & s1 & E1 & H1 & ->) & m2 & (y0 & R0 & ->) & m3 & R3 & ->).
  destruct R0 as (w & s2 & E2 & _ & _ & _ & ->).
  destruct R3 as (c3 & s3 & E3 & H3 & ->).
  cbn [rest endIndex captures] in *. subst s s1 s2.
  apply chr_match_exact in H1, H3. subst c1 c3.
  exists w. unfold group. cbn [captures lookup Nat.eqb].
  rewrite Nat.add_comm, Nat.add_sub, firstn_app, Nat.sub_diag, firstn_all.
  simpl. rewrite app_nil_r. repeat split. rewrite length_app. simpl.
  unfold jsstring, cu in *. lia.
Qed.

Lemma code_keeps_stars_upto : forall n s i,
  (length s <= n)%nat ->
  stars (replace_from false CODE_RE
           [RLit (str "<code>"); RGrp 1; RLit (str "</code>")] 0 i s)
  = stars s.
Proof.
  induction n as [|n IH]; intros s i Hn.
  - destruct s; [|simpl in Hn; lia]. reflexivity.
  - destruct (match_at false CODE_RE i s) as [y|] eqn:E.
    + destruct (code_match i s y E) as (w & Es & Eg & Ei).
      assert (Es' : s = 96 :: (w ++ [96]) ++ rest y).
      { rewrite Es. rewrite <- app_assoc. reflexivity. }
      rewrite Es' in E |- *.
      rewrite (replace_from_match _ _ _ _ _ _ _ y E Ei).
      unfold expand. cbn [flat_map]. rewrite Eg.
      change (96 :: (w ++ [96]) ++ rest y) with ([96] ++ (w ++ [96]) ++ rest y).
      rewrite !stars_app. rewrite IH.
      * unfold stars. simpl. lia.
      * rewrite Es' in Hn. simpl in Hn. rewrite length_app in Hn.
        unfold jsstring, cu in *. lia.
    + destruct s as [|c s]; [reflexivity|].
      rewrite replace_from_copy by assumption.
      change (c :: ?x) with ([c] ++ x). unfold stars in *.
      simpl. rewrite IH by (simpl in Hn; lia). reflexivity.
Qed.

Lemma code_keeps_stars s :
  stars (replace_all false CODE_RE
           [RLit (str "<code>"); RGrp 1; RLit (str "</code>")] s)
  = stars s.
Proof. apply (code_keeps_stars_upto (length s)). lia. Qed.

(** ** The converter's output is detected as HTML *)

Lemma detected_paragraph s : detected (paragraph s).
Proof. intros t. vm_compute. reflexivity. Qed.

Lemma detected_br : detected (str "<br>").
Proof. intros t. vm_compute. reflexivity. Qed.

Lemma detected_list k items : detected (list_block (Some k) items).
Proof. intros t. destruct k; vm_compute; reflexivity. Qed.

Lemma detected_heading lvl s : (1 <= lvl <= 6)%nat -> detected (heading lvl s).
Proof.
  intros H t.
  do 7 (destruct lvl as [|lvl]; [first [lia | vm_compute; reflexivity]|]).
  lia.
Qed.

Lemma detected_plain l : detected (plain_block l).
Proof.
  unfold plain_block. destruct (regex_exec false H_RE l) as [m|] eqn:E.
  - apply detected_heading. apply h_exec_level with (line := l). assumption.
  - apply detected_paragraph.
Qed.

Lemma flushList_detected s :
  accumulator_ok s -> all_detected s -> all_detected (flushList s).
Proof.
  unfold all_detected, flushList. intros Hs Ho.
  destruct (listItems s) as [|x items] eqn:E; [assumption|].
  cbn [out]. apply Forall_app. split; [assumption|].
  constructor; [|constructor].
  destruct (listType s) as [k|] eqn:Et.
  - apply detected_list.
  - destruct Hs as [H _]. rewrite (H Et) in E. discriminate.
Qed.

Lemma push_out_detected s b :
  all_detected s -> detected b -> all_detected (push_out s b).
Proof.
  unfold all_detected, push_out. intros Ho Hb. cbn [out].
  apply Forall_app. split; [assumption|]. constructor; [assumption|constructor].
Qed.

Lemma step_detected s l :
  accumulator_ok s -> all_detected s -> all_detected (step s l).
Proof.
  intros Hs Ho.
  destruct (regex_exec false UL_RE l) as [m|] eqn:Eu.
  { unfold step. rewrite Eu.
    destruct (listType s) as [[|]|]; try exact Ho.
    apply (flushList_detected s Hs Ho). }
  destruct (regex_exec false OL_RE l) as [m|] eqn:Eo.
  { unfold step. rewrite Eu, Eo.
    destruct (listType s) as [[|]|]; try exact Ho.
    apply (flushList_detected s Hs Ho). }
  destruct (trim l) as [|c t] eqn:El.
  - unfold step. rewrite Eu, Eo, El.
    destruct (listType s); [exact Ho|].
    apply push_out_detected; [apply flushList_detected; assumption|apply detected_br].
  - rewrite step_plain by (assumption || congruence).
    apply push_out_detected; [apply flushList_detected; assumption|apply detected_plain].
Qed.

(** After a line has been processed something is in [out] or pending. *)
Lemma step_started s l :
  accumulator_ok s -> out (step s l) <> [] \/ listItems (step s l) <> [].
Proof.
  intros Hs. pose proof (step_ok s l Hs) as Hs'.
  destruct (regex_exec false UL_RE l) as [m|] eqn:Eu.
  { right. unfold step. rewrite Eu. cbn [listItems].
    intros E. apply app_eq_nil in E. destruct E; discriminate. }
  destruct (regex_exec false OL_RE l) as [m|] eqn:Eo.
  { right. intros E. destruct Hs' as [_ H]. apply H in E.
    unfold step in E. rewrite Eu, Eo in E. discriminate. }
  destruct (trim l) as [|c t] eqn:El.
  - unfold step. rewrite Eu, Eo, El.
    destruct (listType s) eqn:Et.
    + right. apply (pending_typed s Hs l0 Et).
    + left. unfold push_out. cbn [out]. intros E.
      apply app_eq_nil in E. destruct E; discriminate.
  - left. rewrite step_plain by (assumption || congruence).
    unfold push_out. cbn [out]. intros E.
    apply app_eq_nil in E. destruct E; discriminate.
Qed.

Lemma fold_step_detected lines : forall s,
  accumulator_ok s -> all_detected s -> all_detected (fold_left step lines s).
Proof.
  induction lines as [|l lines IH]; intros s Hs Ho; simpl; [assumption|].
  apply IH; [apply step_ok|apply step_detected]; assumption.
Qed.

Lemma split_on_nonempty sep s : split_on sep s <> [].
Proof.
  destruct s as [|c s]; simpl; [discriminate|].
  destruct (c =? sep); [discriminate|].
  destruct (split_on sep s); discriminate.
Qed.

Lemma blocks_detected text :
  blocks text <> [] /\ Forall detected (blocks text).
Proof.
  unfold blocks.
  destruct (exists_last (split_on_nonempty LF (prepass text))) as (ls & l & ->).
  unfold run. rewrite fold_left_app. cbn [fold_left].
  fold (run ls). pose proof (run_ok ls) as Hs.
  assert (Ho : all_detected (run ls)).
  { apply fold_step_detected; [unfold accumulator_ok; simpl; tauto|constructor]. }
  pose proof (step_ok _ l Hs) as Hs'.
  pose proof (step_detected _ l Hs Ho) as Ho'.
  split; [|apply flushList_detected; assumption].
  destruct (step_started _ l Hs) as [H|H].
  - unfold flushList. destruct (listItems (step (run ls) l)); [assumption|].
    cbn [out]. intros E. apply app_eq_nil in E. destruct E; discriminate.
  - rewrite (flushList_pending _ H). cbn [out]. intros E.
    apply app_eq_nil in E. destruct E; discriminate.
Qed.

Lemma markdown_detected text :
  markdownToHtml text <> [] /\
  regex_test true HTML_PATTERN (markdownToHtml text) = true.
Proof.
  unfold markdownToHtml. destruct (blocks_detected text) as [Hne Hall].
  destruct (blocks text) as [|b bs]; [congruence|].
  inversion Hall as [|b' bs' Hb _]; subst.
  assert (H : regex_test true HTML_PATTERN (join (b :: bs)) = true) by apply Hb.
  split; [|assumption].
  intros E. rewrite E in H. vm_compute in H. discriminate.
Qed.

(** ** What [trim] removes *)

Lemma trim_spec s :
  exists ws ws',
    s = ws ++ trim s ++ ws' /\
    forallb is_space ws = true /\ forallb is_space ws' = true /\
    (forall c t, trim s = c :: t -> is_space c = false) /\
    (forall c t, rev (trim s) = c :: t -> is_space c = false).
Proof.
  set (s1 := drop_while is_space s).
  exists (take_while is_space s), (rev (take_while is_space (rev s1))).
  assert (E1 : s1 = trim s ++ rev (take_while is_space (rev s1))).
  { unfold trim. fold s1. rewrite <- rev_app_distr, take_drop_while.
    symmetry. apply rev_involutive. }
  split; [|split; [|split; [|split]]].
  - rewrite <- E1. unfold s1. symmetry. apply take_drop_while.
  - apply take_while_all.
  - rewrite forallb_rev. apply take_while_all.
  - intros c t E. rewrite E in E1. simpl in E1.
    apply (drop_while_head is_space s c _ E1).
  - intros c t E. unfold trim in E. rewrite rev_involutive in E.
    apply (drop_while_head is_space _ c t E).
Qed.

(** * The claims *)

(** C1. An input that contains anywhere, in any letter case, [<] or [</]
    followed by one of the structural tag names and then whitespace, [/] or
    [>] is returned unchanged, whatever the converter would have done with
    it. *)
Theorem render_html_passthrough pre slash name nm c post :
  In name TAG_NAMES -> ci_eqb nm (str name) = true ->
  slash = [] \/ slash = [47] -> tag_end c = true ->
  let text := pre ++ 60 :: slash ++ nm ++ c :: post in
  renderMessageContent (JStr text) = text /\
  forall convert,
    render_with (regex_test true HTML_PATTERN) convert (JStr text) = text.
Proof.
  intros Hin Hci Hsl Hc text.
  assert (H : forall convert,
             render_with (regex_test true HTML_PATTERN) convert (JStr text) = text).
  { intros convert. unfold render_with.
    replace (falsy (JStr text)) with false by (subst text; destruct pre; reflexivity).
    subst text. rewrite (html_boundary_detected pre slash name nm c post); auto. }
  split; [apply H|exact H].
Qed.

Lemma render_html_passthrough_witness :
  renderMessageContent (JStr (str "see <DIV class=x>y")) = str "see <DIV class=x>y".
Proof.
  apply (render_html_passthrough (str "see ") [] "div" (str "DIV") 32
           (str "class=x>y")).
  - simpl. tauto.
  - reflexivity.
  - left. reflexivity.
  - reflexivity.
Defined.

(** C2. On ["Summary. 2. Second. 3. Third."] the pre-pass puts a line break
    before ["2."] and before ["3."], the ordered-list pattern then matches
    both new lines, and the converter emits the paragraph of the first
    sentence followed by exactly one ordered list, with the items in input
    order. *)
Theorem render_inline_numbered_summary :
  let text := str "Summary. 2. Second. 3. Third." in
  prepass text = str "Summary." ++ LF :: str "2. Second." ++ LF :: str "3. Third." /\
  option_map (group 1) (regex_exec false OL_RE (str "2. Second."))
    = Some (str "Second.") /\
  option_map (group 1) (regex_exec false OL_RE (str "3. Third."))
    = Some (str "Third.") /\
  blocks text =
    [str "<p>Summary.</p>"; str "<ol><li>Second.</li><li>Third.</li></ol>"] /\
  renderMessageContent (JStr text)
    = str "<p>Summary.</p><ol><li>Second.</li><li>Third.</li></ol>".
Proof. vm_compute. repeat split. Qed.

(** C9. For an absent argument ([undefined] or [null]) and for the empty
    string the result is the empty string, and neither the detector nor the
    converter has a say in it. *)
Theorem render_absent_or_empty text :
  text = JUndefined \/ text = JNull \/ text = JStr [] ->
  renderMessageContent text = [] /\
  forall isHtml convert, render_with isHtml convert text = [].
Proof.
  intros [->|[->| ->]]; split; reflexivity.
Qed.

Lemma render_absent_or_empty_witness :
  renderMessageContent JNull = [].
Proof.
  apply (render_absent_or_empty JNull). right. left. reflexivity.
Defined.

(** C4. A line that is empty or all whitespace, met while items are pending,
    changes nothing: it adds no block and the list stays open, so that
    ["1. a\n\n2. b"] gives one ordered list with the items [a] and [b]; met
    while no item is pending, it adds the line-break block [<br>]. *)
Theorem blank_line_inside_and_outside_list :
  (forall lines l,
     trim l = [] ->
     let s := run lines in
     (listItems s <> [] -> step s l = s) /\
     (listItems s = [] -> step s l = Conv (out s ++ [str "<br>"]) None [])) /\
  blocks (str "1. a" ++ LF :: LF :: str "2. b")
    = [str "<ol><li>a</li><li>b</li></ol>"] /\
  renderMessageContent (JStr (str "1. a" ++ LF :: LF :: str "2. b"))
    = str "<ol><li>a</li><li>b</li></ol>".
Proof.
  split.
  - intros lines l Hl s. apply step_blank; [apply run_ok|assumption].
  - vm_compute. split; reflexivity.
Qed.

Lemma blank_line_inside_and_outside_list_witness :
  let s := run [str "1. a"] in
  trim [32; 9] = [] /\ listItems s <> [] /\ step s [32; 9] = s.
Proof.
  intros s. split; [reflexivity|]. split; [discriminate|].
  apply (proj1 blank_line_inside_and_outside_list [str "1. a"] [32; 9]).
  - reflexivity.
  - discriminate.
Defined.

(** C7. ["- a\n1. b"] gives two list blocks, the unordered list with the
    item [a] and then the ordered list with the item [b]; at any point of any
    input, a list line of the other kind first closes the pending list as a
    block of its own kind and starts the accumulator afresh. *)
Theorem switching_list_kind_flushes :
  blocks (str "- a" ++ LF :: str "1. b")
    = [str "<ul><li>a</li></ul>"; str "<ol><li>b</li></ol>"] /\
  renderMessageContent (JStr (str "- a" ++ LF :: str "1. b"))
    = str "<ul><li>a</li></ul><ol><li>b</li></ol>" /\
  (forall lines l m,
     let s := run lines in
     listType s = Some ul ->
     regex_exec false UL_RE l = None -> regex_exec false OL_RE l = Some m ->
     step s l = Conv (out s ++ [list_block (Some ul) (listItems s)]) (Some ol)
                     (ol_items (group 1 m))) /\
  (forall lines l m,
     let s := run lines in
     listType s = Some ol ->
     regex_exec false UL_RE l = Some m ->
     step s l = Conv (out s ++ [list_block (Some ol) (listItems s)]) (Some ul)
                     [li (inlineFormat (group 1 m))]).
Proof.
  split; [vm_compute; reflexivity|].
  split; [vm_compute; reflexivity|].
  split.
  - intros lines l m s. apply step_ol_after_ul. apply run_ok.
  - intros lines l m s. apply step_ul_after_ol. apply run_ok.
Qed.

Lemma switching_list_kind_flushes_witness :
  step (run [str "- a"]) (str "1. b")
  = Conv [str "<ul><li>a</li></ul>"] (Some ol) [str "<li>b</li>"].
Proof.
  refine (eq_trans
    (proj1 (proj2 (proj2 switching_list_kind_flushes)) [str "- a"] (str "1. b")
       (MState 4 [] [(1%nat, str "b")]) _ _ _) _);
    vm_compute; reflexivity.
Defined.

(** C5, the claim as it is stated, fails: in ["Intro. 2. First"] the marker
    ["2. "] is the first list marker of the only paragraph (neither a digit
    nor a line break comes before it); it follows the period of a sentence,
    and the pre-pass puts a line break before it, which is what the pattern
    is for. *)
Lemma first_marker_break_counterexample :
  prepass (str "Intro. 2. First") = str "Intro." ++ LF :: str "2. First" /\
  ~ (forall a ds d w tl,
       forallb (fun c => negb (is_digit c) && negb (c =? LF)) a = true ->
       ds <> [] -> forallb is_digit ds = true ->
       is_ol_delim d = true -> is_space w = true ->
       exists o, prepass (a ++ ds ++ d :: w :: tl) = a ++ ds ++ o).
Proof.
  split; [vm_compute; reflexivity|].
  intros H.
  assert (E : exists o, prepass (str "Intro. " ++ [50] ++ 46 :: 32 :: str "First")
                        = str "Intro. " ++ [50] ++ o).
  { apply H; try reflexivity. discriminate. }
  destruct E as [o E]. vm_compute in E. discriminate.
Qed.

(** C5, amended.  The pre-pass rewrites nothing but a period, whitespace, a
    numeral, a [.] or [)] and whitespace.  So a numeral whose preceding text
    does not end with a period and whitespace gets no line break: the text
    before it is rewritten as if it ended there.  This holds for a numeral
    that follows another character than a period, where what precedes the
    numeral in the output is the character that preceded it or a blank, and
    for the numeral of a list marker that has only whitespace before it in
    the text, which is copied with that prefix.  (A first list marker
    numbered two or higher that follows the period of a sentence, as in
    ["Intro. 2. First"], does get a line break.) *)
Theorem prepass_fires_only_after_period :
  (forall text, prepass_rel text (prepass text)) /\
  (forall a d0 tl,
     is_digit d0 = true -> ~ ends_with_digit a -> ~ ends_after_period a ->
     prepass (a ++ d0 :: tl) = prepass a ++ d0 :: prepass tl) /\
  (forall pre c ws d0 tl,
     c <> 46 -> is_space c = false -> is_digit c = false ->
     forallb is_space ws = true -> is_digit d0 = true ->
     prepass (pre ++ c :: ws ++ d0 :: tl)
       = prepass (pre ++ c :: ws) ++ d0 :: prepass tl /\
     (last (prepass (pre ++ c :: ws)) 0 = last (c :: ws) 0 \/
      last (prepass (pre ++ c :: ws)) 0 = 32)) /\
  (forall ind d0 tl,
     forallb is_space ind = true -> is_digit d0 = true ->
     prepass (ind ++ d0 :: tl) = ind ++ d0 :: prepass tl).
Proof.
  split; [exact prepass_related|].
  split; [intros a d0 tl; apply prepass_split|].
  split.
  - intros pre c ws d0 tl Hc Hsp Hdg Hws Hd0.
    destruct (context_after_other pre c ws Hc Hsp Hdg Hws) as [H1 H2].
    split.
    + replace (pre ++ c :: ws ++ d0 :: tl) with ((pre ++ c :: ws) ++ d0 :: tl)
        by (rewrite <- app_assoc; reflexivity).
      apply prepass_split; assumption.
    + destruct (prepass_rel_last (pre ++ c :: ws) (prepass (pre ++ c :: ws)) 0
                  (prepass_related _)) as [E|E].
      * destruct pre; discriminate.
      * left. rewrite E. apply last_app_cons.
      * right. assumption.
  - intros ind d0 tl Hind Hd0.
    destruct (context_of_spaces ind Hind) as [H1 H2].
    rewrite prepass_split by assumption.
    rewrite (prepass_no_period ind (spaces_no_period ind Hind)). reflexivity.
Qed.

Lemma prepass_fires_only_after_period_witness :
  prepass (str "Wait! 2. Second") = str "Wait! 2. Second" /\
  prepass (str "  1. First") = str "  1. First".
Proof.
  split.
  - refine (eq_trans
      (proj1 (proj1 (proj2 (proj2 prepass_fires_only_after_period))
                (str "Wait") 33 [32] 50 (str ". Second") _ _ _ _ _)) _);
      try reflexivity; try discriminate.
  - refine (eq_trans
      (proj2 (proj2 (proj2 prepass_fires_only_after_period))
         [32; 32] 49 (str ". First") _ _) _);
      reflexivity.
Defined.

(** C3, the claim as it is stated, fails: a blank line is no list line, yet
    met while items are pending it flushes nothing.  After the line
    ["1. a"] the empty line leaves the state as it is, with the item still
    pending and nothing in [out]. *)
Lemma nonlist_line_flush_counterexample :
  run [str "1. a"] = Conv [] (Some ol) [str "<li>a</li>"] /\
  step (run [str "1. a"]) [] = run [str "1. a"] /\
  ~ (forall lines l,
       regex_exec false UL_RE l = None -> regex_exec false OL_RE l = None ->
       listItems (run lines) <> [] ->
       listItems (step (run lines) l) = [] /\
       exists b, out (step (run lines) l)
                 = out (run lines)
                   ++ list_block (listType (run lines)) (listItems (run lines))
                   :: b).
Proof.
  split; [vm_compute; reflexivity|].
  split; [vm_compute; reflexivity|].
  intros H.
  destruct (H [str "1. a"] []) as [E _].
  - vm_compute. reflexivity.
  - vm_compute. reflexivity.
  - vm_compute. discriminate.
  - vm_compute in E. discriminate.
Qed.

(** C3, amended.  On every state the loop reaches, [listType] is [null]
    exactly when no item is pending, and one step does the following: a list
    line of the pending kind, or met with nothing pending, appends its items;
    a list line of the other kind first closes the pending list as one block;
    a line that is neither a list item nor blank closes the pending list and
    then adds its own block; a blank line leaves pending items alone.  At
    the end of the input the pending list is closed. *)
Theorem accumulator_flush_points :
  forall lines l,
    let s := run lines in
    (listType s = None <-> listItems s = []) /\
    (forall m, regex_exec false UL_RE l = Some m -> listType s <> Some ol ->
       step s l = Conv (out s) (Some ul)
                    (listItems s ++ [li (inlineFormat (group 1 m))])) /\
    (forall m, regex_exec false UL_RE l = Some m -> listType s = Some ol ->
       step s l = Conv (out s ++ [list_block (Some ol) (listItems s)]) (Some ul)
                    [li (inlineFormat (group 1 m))]) /\
    (forall m, regex_exec false UL_RE l = None ->
       regex_exec false OL_RE l = Some m -> listType s <> Some ul ->
       step s l = Conv (out s) (Some ol) (listItems s ++ ol_items (group 1 m))) /\
    (forall m, regex_exec false UL_RE l = None ->
       regex_exec false OL_RE l = Some m -> listType s = Some ul ->
       step s l = Conv (out s ++ [list_block (Some ul) (listItems s)]) (Some ol)
                    (ol_items (group 1 m))) /\
    (regex_exec false UL_RE l = None -> regex_exec false OL_RE l = None ->
     trim l <> [] -> listItems s <> [] ->
       step s l = Conv (out s ++ [list_block (listType s) (listItems s);
                                  plain_block l]) None []) /\
    (trim l = [] -> listItems s <> [] -> step s l = s) /\
    out (flushList s)
      = out s ++ match listItems s with
                 | [] => []
                 | _ :: _ => [list_block (listType s) (listItems s)]
                 end.
Proof.
  intros lines l s. pose proof (run_ok lines) as Hs. fold s in Hs.
  split; [exact Hs|].
  split.
  { intros m Hm Ht. unfold step. rewrite Hm.
    destruct (listType s) as [[|]|]; try reflexivity. congruence. }
  split; [intros m Hm Ht; apply step_ul_after_ol; assumption|].
  split.
  { intros m Hu Hm Ht. unfold step. rewrite Hu, Hm.
    destruct (listType s) as [[|]|]; try reflexivity. congruence. }
  split; [intros m Hu Hm Ht; apply step_ol_after_ul; assumption|].
  split.
  { intros Hu Ho Hl Hp. rewrite step_plain by assumption.
    rewrite (flushList_pending s Hp). unfold push_out. simpl.
    rewrite <- app_assoc. reflexivity. }
  split.
  { intros Hl Hp. apply (step_blank s l Hs Hl). assumption. }
  unfold flushList. destruct (listItems s); simpl; [rewrite app_nil_r|]; reflexivity.
Qed.

Lemma accumulator_flush_points_witness :
  step (run [str "- a"; str "- b"]) (str "# Title")
  = Conv [str "<ul><li>a</li><li>b</li></ul>"; str "<h1>Title</h1>"] None [].
Proof.
  refine (eq_trans
    (proj1 (proj2 (proj2 (proj2 (proj2 (proj2
       (accumulator_flush_points [str "- a"; str "- b"] (str "# Title")))))))
       _ _ _ _) _);
    vm_compute; try reflexivity; discriminate.
Defined.

(** C6, the claim as it is stated, fails: it takes every numeral with [.]
    or [)] and whitespace after it, and whitespace in front of it, not at
    the start of the content, for a marker at which the content is split,
    so that the text after the last marker is the last item.  In
    ["First 2) 3) x"] the blank in front of ["3)"] belongs to the marker
    ["2)"]: the content is split once, and the last item is ["3) x"], not
    ["x"]. *)
Lemma shared_whitespace_counterexample :
  ol_items (str "First 2) 3) x") = [str "<li>First</li>"; str "<li>3) x</li>"] /\
  ~ (forall a w0 ds d w tl,
       a <> [] ->
       is_space w0 = true -> ds <> [] -> forallb is_digit ds = true ->
       is_ol_delim d = true -> is_space w = true ->
       forallb (fun c => negb (is_digit c)) tl = true -> trim tl <> [] ->
       last (ol_items (a ++ w0 :: ds ++ d :: w :: tl)) []
       = li (inlineFormat (trim tl))).
Proof.
  split; [vm_compute; reflexivity|].
  intros H.
  specialize (H (str "First 2)") 32 [51] 41 32 (str "x")
                ltac:(discriminate)
                eq_refl ltac:(discriminate) eq_refl eq_refl eq_refl eq_refl
                ltac:(discriminate)).
  vm_compute in H. discriminate.
Qed.

(** C6, amended.  A marker inside the content of an ordered-list line is
    whitespace, a numeral, [.] or [)] and whitespace; it takes all the
    whitespace on both sides of its numeral, and the markers are found from
    left to right without overlap, so that whitespace taken by one marker
    opens no other.  When the content holds such a marker, it has pieces
    between these markers, two or more, and the line adds one item for each
    piece in order: the piece without the whitespace at its two ends, left
    out when nothing remains, and passed through inline formatting.  The
    content ["First 2. Second 3. Third"] has the pieces [First], [Second],
    [Third] and gives these three items; trailing blanks of the last piece
    are removed and spans are formatted, a piece that is empty gives no
    item, and ["First 2) 3) x"] gives the two items [First] and [3) x]. *)
Theorem ordered_line_inline_items :
  (forall s line m,
     regex_exec false UL_RE line = None ->
     regex_exec false OL_RE line = Some m ->
     (exists a b, group 1 m = a ++ b /\ starts_marker b) ->
     exists ps,
       marker_split (group 1 m) ps /\ (2 <= length ps)%nat /\
       let s' := match listType s with Some ul => flushList s | _ => s end in
       step s line
       = Conv (out s') (Some ol)
           (listItems s'
              ++ map (fun t => li (inlineFormat t))
                     (filter nonempty (map trim ps)))) /\
  marker_split (str "First 2. Second 3. Third")
    [str "First"; str "Second"; str "Third"] /\
  ol_items (str "First 2. Second 3. Third")
    = [str "<li>First</li>"; str "<li>Second</li>"; str "<li>Third</li>"] /\
  blocks (str "1. First 2. Second 3. Third")
    = [str "<ol><li>First</li><li>Second</li><li>Third</li></ol>"] /\
  (forall p,
     exists ws ws',
       p = ws ++ trim p ++ ws' /\
       forallb is_space ws = true /\ forallb is_space ws' = true /\
       (forall c t, trim p = c :: t -> is_space c = false) /\
       (forall c t, rev (trim p) = c :: t -> is_space c = false)) /\
  blocks (str "1. First 2. **Second** 3. `Third`" ++ [32; 9])
    = [str "<ol><li>First</li><li><strong>Second</strong></li><li><code>Third</code></li></ol>"] /\
  ol_items (str "a 2. ") = [str "<li>a</li>"] /\
  ol_items (str "First 2) 3) x")
    = [str "<li>First</li>"; str "<li>3) x</li>"].
Proof.
  split.
  { intros s line m Hu Ho (a & b & E & Hb).
    destruct (marker_split_exists (group 1 m)) as (ps & Hs).
    pose proof (marker_split_two _ ps a b Hs E Hb) as Hlen.
    exists ps. split; [assumption|]. split; [assumption|].
    intros s'. unfold step. rewrite Hu, Ho.
    rewrite (ol_items_spec _ ps Hs Hlen). reflexivity. }
  split.
  { assert (Hm : forall d, is_digit d = true -> is_marker [32; d; 46; 32] [d]).
    { intros d Hd. exists [32], 46, [32]. simpl. rewrite Hd.
      repeat split; try discriminate. }
    apply (MS_cons (str "First") [32; 50; 46; 32] [50] (str "Second 3. Third")).
    - apply Hm. reflexivity.
    - intros c t E. inversion E. reflexivity.
    - apply marker_free_spec. vm_compute. reflexivity.
    - apply (MS_cons (str "Second") [32; 51; 46; 32] [51] (str "Third")).
      + apply Hm. reflexivity.
      + intros c t E. inversion E. reflexivity.
      + apply marker_free_spec. vm_compute. reflexivity.
      + apply MS_last. apply marker_free_last. vm_compute. reflexivity. }
  split; [vm_compute; reflexivity|].
  split; [vm_compute; reflexivity|].
  split; [exact trim_spec|].
  repeat split; vm_compute; reflexivity.
Qed.

Lemma ordered_line_inline_items_witness :
  exists ps,
    marker_split (str "a 2) b") ps /\ (2 <= length ps)%nat /\
    step conv_init (str "1. a 2) b")
    = Conv [] (Some ol)
        (map (fun t => li (inlineFormat t)) (filter nonempty (map trim ps))).
Proof.
  apply (proj1 ordered_line_inline_items conv_init (str "1. a 2) b")
           (MState 9 [] [(1%nat, str "a 2) b")])).
  - vm_compute. reflexivity.
  - vm_compute. reflexivity.
  - exists [97], (str " 2) b"). split; [reflexivity|].
    exists (str " 2) "), [50], [98]. split; [|reflexivity].
    exists [32], 41, [32]. repeat split; discriminate.
Defined.

(** C8. Inline formatting replaces bold spans first, then italic spans, then
    code spans, each over the whole string.  ["**bold**"] becomes one
    paragraph around one strong span with the text [bold].  A string with at
    most one asterisk goes through the bold and italic substitutions as it
    is, and the code substitution keeps every asterisk, so an unmatched
    asterisk stays in the output. *)
Theorem inline_format_order_and_literals :
  (forall s,
     inlineFormat s
     = replace_all false CODE_RE
         [RLit (str "<code>"); RGrp 1; RLit (str "</code>")]
         (replace_all false ITALIC_RE
            [RLit (str "<em>"); RGrp 1; RLit (str "</em>")]
            (replace_all false BOLD_RE
               [RLit (str "<strong>"); RGrp 1; RLit (str "</strong>")] s))) /\
  blocks (str "**bold**") = [str "<p><strong>bold</strong></p>"] /\
  renderMessageContent (JStr (str "**bold**"))
    = str "<p><strong>bold</strong></p>" /\
  inlineFormat (str "**a** and **b**, *c* and *d*, `e` and `f`")
    = str "<strong>a</strong> and <strong>b</strong>, <em>c</em> and <em>d</em>, <code>e</code> and <code>f</code>" /\
  (forall s,
     (stars s <= 1)%nat ->
     inlineFormat s
     = replace_all false CODE_RE
         [RLit (str "<code>"); RGrp 1; RLit (str "</code>")] s /\
     stars (inlineFormat s) = stars s) /\
  renderMessageContent (JStr (str "a * b")) = str "<p>a * b</p>".
Proof.
  split; [reflexivity|].
  split; [vm_compute; reflexivity|].
  split; [vm_compute; reflexivity|].
  split; [vm_compute; reflexivity|].
  split; [|vm_compute; reflexivity].
  intros s Hs.
  assert (E : inlineFormat s
              = replace_all false CODE_RE
                  [RLit (str "<code>"); RGrp 1; RLit (str "</code>")] s).
  { unfold inlineFormat.
    rewrite (few_stars_untouched BOLD_RE _ s bold_needs_stars Hs).
    rewrite (few_stars_untouched ITALIC_RE _ s italic_needs_stars Hs).
    reflexivity. }
  split; [exact E|]. rewrite E. apply code_keeps_stars.
Qed.

Lemma inline_format_order_and_literals_witness :
  stars (inlineFormat (str "2 * `x`")) = stars (str "2 * `x`").
Proof.
  apply (proj1 (proj2 (proj2 (proj2 (proj2 inline_format_order_and_literals))))
           (str "2 * `x`")).
  vm_compute. lia.
Defined.

(** C10. Rendering twice gives what rendering once gives, for every
    argument: the converter's output is never empty and always starts with a
    block that the detector classifies as HTML, so a second call returns it
    as it is. *)
Theorem render_idempotent :
  (forall text,
     renderMessageContent (JStr (renderMessageContent text))
     = renderMessageContent text) /\
  (forall s,
     markdownToHtml s <> [] /\
     regex_test true HTML_PATTERN (markdownToHtml s) = true).
Proof.
  split; [|exact markdown_detected].
  intros [| |s]; try reflexivity.
  destruct s as [|c s]; [reflexivity|].
  unfold renderMessageContent, render_with. cbn [falsy].
  destruct (regex_test true HTML_PATTERN (c :: s)) eqn:E.
  - cbn [falsy]. rewrite E. reflexivity.
  - destruct (markdown_detected (c :: s)) as [Hne Hd].
    destruct (markdownToHtml (c :: s)) as [|c' o]; [congruence|].
    cbn [falsy]. rewrite Hd. reflexivity.
Qed.

(** * Further properties *)

(** ** The detector, conversely *)

Lemma reaches_alts_inv ic x y : forall l r,
  reaches ic (alts r l) x y -> exists r', In r' (r :: l) /\ reaches ic r' x y.
Proof.
  induction l as [|r0 l IH]; intros r R; simpl in R.
  - exists r. simpl. auto.
  - destruct R as [R|R].
    + exists r. simpl. auto.
    + destruct (IH r0 R) as (r' & Hin & R'). exists r'. simpl. auto.
Qed.

Lemma reaches_lit_inv : forall name x y,
  reaches true (seqs (map Chr name)) x y ->
  exists nm, rest x = nm ++ rest y /\ ci_eqb nm name = true /\
             length nm = length name.
Proof.
  induction name as [|a name IH]; intros x y R; cbn [map seqs fold_right reaches] in R.
  - subst y. exists []. auto.
  - destruct R as (m & (ch & s & E & Hm & ->) & R).
    apply IH in R. destruct R as (nm & E' & Hci & Hlen). cbn [rest] in E'.
    exists (ch :: nm). rewrite E, E'. simpl. rewrite Hci, Hlen.
    unfold chr_match in Hm. rewrite N.eqb_sym, Hm. auto.
Qed.

Lemma to_upper_below_letters a ch :
  a < 65 -> to_upper a = to_upper ch -> ch = a.
Proof.
  unfold to_upper. intros Ha.
  destruct ((97 <=? a) && (a <=? 122)) eqn:E1;
    destruct ((97 <=? ch) && (ch <=? 122)) eqn:E2; bool_hyp E1; bool_hyp E2; lia.
Qed.

Lemma tag_end_ci c : cls_match true tag_end c = true -> tag_end c = true.
Proof.
  unfold cls_match. intros H.
  destruct (tag_end c) eqn:E; [reflexivity|]. simpl in H.
  unfold to_upper, to_lower in H.
  destruct ((97 <=? c) && (c <=? 122)) eqn:E1;
    destruct ((65 <=? c) && (c <=? 90)) eqn:E2;
    rewrite ?E in H; simpl in H; try discriminate;
    bool_hyp E1; bool_hyp E2; try lia;
    unfold tag_end, is_space, is_line_terminator in H; bool_hyp H; lia.
Qed.

Lemma slash_ci ch : cls_match true (is_char 47) ch = true -> ch = 47.
Proof.
  unfold cls_match, is_char, to_upper, to_lower. intros H.
  destruct ((97 <=? ch) && (ch <=? 122)) eqn:E1;
    destruct ((65 <=? ch) && (ch <=? 90)) eqn:E2;
    bool_hyp E1; bool_hyp E2; bool_hyp H; lia.
Qed.

Lemma digit_class_ci d :
  cls_match true (in_range 49 54) d = true -> in_range 49 54 d = true.
Proof.
  unfold cls_match, in_range, to_upper, to_lower. intros H.
  destruct ((97 <=? d) && (d <=? 122)) eqn:E1;
    destruct ((65 <=? d) && (d <=? 90)) eqn:E2;
    bool_hyp E1; bool_hyp E2; bool_hyp H; bool_goal; lia.
Qed.

(** What the alternation of tag names matches is a tag name in some letter
    case. *)
Lemma reaches_tag_inv x y :
  reaches true
    (alts (lit "p")
       [ lit "br"; lit "strong"; lit "b"; lit "em"; lit "i";
         lit "ul"; lit "ol"; lit "li";
         Seq (Chr 104) (Cls (in_range 49 54));
         lit "a"; lit "div"; lit "span"; lit "blockquote";
         lit "pre"; lit "code"; lit "table" ]) x y ->
  exists name nm,
    In name TAG_NAMES /\ ci_eqb nm (str name) = true /\ rest x = nm ++ rest y.
Proof.
  intros R.
  apply reaches_alts_inv in R. destruct R as (r' & Hin & R).
  assert (Hlit : forall s, In s TAG_NAMES -> reaches true (lit s) x y ->
            exists name nm, In name TAG_NAMES /\ ci_eqb nm (str name) = true /\
                            rest x = nm ++ rest y).
  { intros s Hs Rs. apply reaches_lit_inv in Rs.
    destruct Rs as (nm & Er & Hci & _). exists s, nm. auto. }
  cbn [In] in Hin.
  repeat (destruct Hin as [<-|Hin];
          [first [ match type of R with
                   | reaches true (lit ?s) _ _ =>
                       solve [apply (Hlit s); [unfold TAG_NAMES; pick_alt|exact R]]
                   end
                 | idtac ]|]);
    try contradiction.
  (* h[1-6] *)
  cbn [reaches] in R.
  destruct R as (m & (c1 & s1 & E1 & H1 & ->) & (c2 & s2 & E2 & H2 & ->)).
  cbn [rest] in E2 |- *. subst s1. apply digit_class_ci in H2.
  assert (Hn : exists name, In name TAG_NAMES /\ str name = [104; c2]).
  { unfold in_range in H2. bool_hyp H2.
    assert (c2 = 49 \/ c2 = 50 \/ c2 = 51 \/ c2 = 52 \/ c2 = 53 \/ c2 = 54) as Hc by lia.
    destruct Hc as [->|[->|[->|[->|[->| ->]]]]];
      [exists "h1"%string|exists "h2"%string|exists "h3"%string
      |exists "h4"%string|exists "h5"%string|exists "h6"%string];
      (split; [unfold TAG_NAMES; pick_alt|reflexivity]). }
  destruct Hn as (name & Hname & En).
  exists name, [c1; c2]. rewrite En, E1. split; [assumption|]. split; [|reflexivity].
  unfold chr_match in H1. simpl. rewrite N.eqb_sym, H1, N.eqb_refl. reflexivity.
Qed.

Lemma html_detected_boundary t :
  regex_test true HTML_PATTERN t = true -> tag_boundary t.
Proof.
  unfold regex_test. destruct (regex_exec true HTML_PATTERN t) as [y|] eqn:E;
    [|discriminate]. intros _.
  apply exec_sound in E; [|reflexivity].
  destruct E as (a & b & j & -> & _ & R).
  change HTML_PATTERN
    with (seqs [Chr 60; opt (is_char 47);
                Grp 1 (alts (lit "p")
                  [ lit "br"; lit "strong"; lit "b"; lit "em"; lit "i";
                    lit "ul"; lit "ol"; lit "li";
                    Seq (Chr 104) (Cls (in_range 49 54));
                    lit "a"; lit "div"; lit "span"; lit "blockquote";
                    lit "pre"; lit "code"; lit "table" ]);
                Cls tag_end]) in R.
  cbn [seqs fold_right] in R. cbn [reaches] in R.
  destruct R as (m1 & (c0 & s0 & E0 & H0 & ->) & m2 & R2 & m3 & (y0 & R3 & ->) & m4 & R4 & ->).
  unfold opt in R2. cbn [reaches] in R2.
  destruct R2 as (w & s1 & E1 & Hw & _ & Hmax & ->).
  destruct R4 as (c & post & E4 & Hc & ->).
  cbn [rest endIndex captures within] in *.
  destruct (reaches_tag_inv _ _ R3) as (name & nm & Hname & Hci & E3).
  cbn [rest] in E3. rewrite E4 in E3. subst s1 s0 b.
  unfold chr_match in H0. apply N.eqb_eq in H0.
  apply (to_upper_below_letters 60) in H0; [|reflexivity].
  subst c0. apply tag_end_ci in Hc.
  exists a, w, name, nm, c, post. repeat split; try assumption.
  destruct w as [|w0 [|w1 w]]; [left; reflexivity| |simpl in Hmax; lia].
  right. simpl in Hw. rewrite andb_true_r in Hw. apply slash_ci in Hw. subst. reflexivity.
Qed.

(** ** Inline formatting, span by span *)

Lemma ticks_app a b : ticks (a ++ b) = (ticks a + ticks b)%nat.
Proof. apply count_occ_app. Qed.

Lemma bold_needs_four_stars i b :
  match_at false BOLD_RE i b <> None -> (4 <= stars b)%nat.
Proof.
  destruct (match_at false BOLD_RE i b) as [y|] eqn:E; [|congruence]. intros _.
  unfold match_at in E. apply matcher_sound in E; [|reflexivity].
  destruct E as (y' & R & _). unfold BOLD_RE in R.
  cbn [seqs fold_right reaches] in R.
  destruct R as (m1 & (c1 & s1 & E1 & H1 & ->) & m2 & (c2 & s2 & E2 & H2 & ->)
                 & m3 & (y0 & R0 & ->) & m4 & (c4 & s4 & E4 & H4 & ->)
                 & m5 & (c5 & s5 & E5 & H5 & ->) & _).
  destruct R0 as (w & s3 & E3 & _ & _ & _ & ->).
  cbn [rest] in *. subst b s1 s2 s3 s4.
  apply chr_match_exact in H1, H2, H4, H5. subst c1 c2 c4 c5.
  unfold stars. simpl. rewrite count_occ_app. simpl. lia.
Qed.

Lemma code_needs_ticks i b :
  match_at false CODE_RE i b <> None -> (2 <= ticks b)%nat.
Proof.
  destruct (match_at false CODE_RE i b) as [y|] eqn:E; [|congruence]. intros _.
  destruct (code_match i b y E) as (w & -> & _).
  unfold ticks. simpl. rewrite count_occ_app. simpl. lia.
Qed.

(** A pattern that needs [n] occurrences of a character to match leaves a
    string with fewer of them as it is. *)
Lemma scarce_untouched (f : jsstring -> nat) r tp s n :
  (forall a b, f (a ++ b) = (f a + f b)%nat) ->
  (forall i b, match_at false r i b <> None -> (n <= f b)%nat) ->
  (f s < n)%nat ->
  replace_all false r tp s = s.
Proof.
  intros Hf Hr Hs. unfold replace_all. apply replace_from_none.
  intros a b E. destruct (match_at false r (0 + length a) b) eqn:Em; [|reflexivity].
  exfalso. assert (H : (n <= f b)%nat) by (apply (Hr (0 + length a)%nat); congruence).
  rewrite E, Hf in Hs. lia.
Qed.

Lemma inlineFormat_plain s :
  (stars s <= 1)%nat -> (ticks s <= 1)%nat -> inlineFormat s = s.
Proof.
  intros Hs Ht. unfold inlineFormat.
  rewrite (few_stars_untouched BOLD_RE _ s bold_needs_stars Hs).
  rewrite (few_stars_untouched ITALIC_RE _ s italic_needs_stars Hs).
  apply (scarce_untouched ticks CODE_RE _ s 2 ticks_app code_needs_ticks). lia.
Qed.

Lemma count_zero_all a s :
  count_occ N.eq_dec s a = 0%nat -> forallb (not_char a) s = true.
Proof.
  induction s as [|c s IH]; simpl; [reflexivity|].
  unfold not_char at 1. destruct (N.eq_dec c a) as [->|Hne].
  - discriminate.
  - intros H. apply N.eqb_neq in Hne. rewrite Hne. simpl. auto.
Qed.

Lemma replace_from_prefix r tp a pre :
  starts_with_char r a -> forallb (not_char a) pre = true ->
  forall i s,
    replace_from false r tp 0 i (pre ++ s)
    = pre ++ replace_from false r tp 0 (i + length pre) s.
Proof.
  intros [Hr _]. induction pre as [|c pre IH]; intros Hp i s.
  - simpl. rewrite Nat.add_0_r. reflexivity.
  - simpl in Hp. apply andb_true_iff in Hp. destruct Hp as [Hc Hp].
    unfold not_char in Hc. apply negb_true_iff in Hc.
    cbn [app]. rewrite replace_from_copy by (apply Hr; assumption).
    rewrite IH by assumption.
    replace (i + length (c :: pre))%nat with (S i + length pre)%nat by (simpl; lia).
    reflexivity.
Qed.

Lemma replace_from_all_plain r tp a s i :
  starts_with_char r a -> forallb (not_char a) s = true ->
  replace_from false r tp 0 i s = s.
Proof.
  intros Hr Hs. rewrite <- (app_nil_r s) at 1.
  rewrite (replace_from_prefix r tp a s Hr Hs).
  cbn [replace_from]. destruct Hr as [_ Hr]. rewrite Hr. apply app_nil_r.
Qed.

Lemma bold_starts : starts_with_char BOLD_RE 42.
Proof.
  split; intros; unfold match_at, BOLD_RE;
    cbn [seqs fold_right matcher rest endIndex captures chr_match];
    [|reflexivity].
  rewrite N.eqb_sym. rewrite H. reflexivity.
Qed.

Lemma italic_starts : starts_with_char ITALIC_RE 42.
Proof.
  split; intros; unfold match_at, ITALIC_RE;
    cbn [seqs fold_right matcher rest endIndex captures chr_match];
    [|reflexivity].
  rewrite N.eqb_sym. rewrite H. reflexivity.
Qed.

Lemma code_starts : starts_with_char CODE_RE 96.
Proof.
  split; intros; unfold match_at, CODE_RE;
    cbn [seqs fold_right matcher rest endIndex captures chr_match];
    [|reflexivity].
  rewrite N.eqb_sym. rewrite H. reflexivity.
Qed.

(** The run [[^a]+] in front of the closing [a]; [k] continues from the
    index of the closing character. *)
Lemma plus_not_char a x tl i k :
  x <> [] -> forallb (not_char a) x = true ->
  rep (not_char a) 1 None i (x ++ a :: tl)
      (fun j s => match s with
                  | ch :: s' => if a =? ch then k j s' else None
                  | [] => None
                  end)
  = k (i + length x)%nat tl.
Proof.
  intros Hne Hx. rewrite rep_inf_det.
  - destruct (take_drop_exact (not_char a) x (a :: tl) Hx) as [-> ->].
    { intros c t' E. inversion E; subst. unfold not_char. rewrite N.eqb_refl. reflexivity. }
    destruct x; [congruence|]. cbn [length Nat.leb]. rewrite N.eqb_refl. reflexivity.
  - intros j c t Hc. unfold not_char in Hc. apply negb_true_iff in Hc.
    rewrite N.eqb_sym, Hc. reflexivity.
Qed.

Lemma firstn_exact (x tl : jsstring) n :
  n = length x -> firstn n (x ++ tl) = x.
Proof.
  intros ->. rewrite firstn_app, Nat.sub_diag, firstn_all. simpl. apply app_nil_r.
Qed.

Lemma italic_match_span x tl i :
  x <> [] -> forallb (not_char 42) x = true ->
  match_at false ITALIC_RE i (42 :: x ++ 42 :: tl)
  = Some (MState (S (S (i + length x))) tl [(1%nat, x)]).
Proof.
  intros Hne Hx. unfold match_at, ITALIC_RE, plus.
  cbn [seqs fold_right matcher rest endIndex captures chr_match].
  rewrite N.eqb_refl.
  change (cls_match false (not_char 42)) with (not_char 42).
  etransitivity.
  { apply (plus_not_char 42 x tl (S i)
             (fun j s => Some (MState (S j) s
                                 [(1%nat, firstn (j - S i) (x ++ 42 :: tl))]))); assumption. }
  cbv beta.
  rewrite firstn_exact by lia. reflexivity.
Qed.

Lemma code_match_span x tl i :
  x <> [] -> forallb (not_char 96) x = true ->
  match_at false CODE_RE i (96 :: x ++ 96 :: tl)
  = Some (MState (S (S (i + length x))) tl [(1%nat, x)]).
Proof.
  intros Hne Hx. unfold match_at, CODE_RE, plus.
  cbn [seqs fold_right matcher rest endIndex captures chr_match].
  rewrite N.eqb_refl.
  change (cls_match false (not_char 96)) with (not_char 96).
  etransitivity.
  { apply (plus_not_char 96 x tl (S i)
             (fun j s => Some (MState (S j) s
                                 [(1%nat, firstn (j - S i) (x ++ 96 :: tl))]))); assumption. }
  cbv beta.
  rewrite firstn_exact by lia. reflexivity.
Qed.

Lemma bold_match_span x tl i :
  x <> [] -> forallb (not_char 42) x = true ->
  match_at false BOLD_RE i (42 :: 42 :: x ++ 42 :: 42 :: tl)
  = Some (MState (S (S (S (S (i + length x))))) tl [(1%nat, x)]).
Proof.
  intros Hne Hx. unfold match_at, BOLD_RE, plus.
  cbn [seqs fold_right matcher rest endIndex captures chr_match].
  rewrite !N.eqb_refl.
  change (cls_match false (not_char 42)) with (not_char 42).
  etransitivity.
  { apply (plus_not_char 42 x (42 :: tl) (S (S i))
             (fun j s => match s with
                         | ch :: s' =>
                             if 42 =? ch
                             then Some (MState (S (S j)) s'
                                    [(1%nat, firstn (j - S (S i))
                                               (x ++ 42 :: 42 :: tl))])
                             else None
                         | [] => None
                         end)); assumption. }
  cbv beta.
  rewrite N.eqb_refl. rewrite firstn_exact by lia. reflexivity.
Qed.

(** One match in a string that has the pattern's first character nowhere
    else: the text before and after the match is copied. *)
Lemma replace_lone_match r tp a pre mid tl y :
  starts_with_char r a ->
  forallb (not_char a) pre = true ->
  forallb (not_char a) tl = true ->
  match_at false r (length pre) (a :: mid ++ tl) = Some y ->
  endIndex y = (length pre + S (length mid))%nat ->
  replace_all false r tp (pre ++ a :: mid ++ tl) = pre ++ expand tp y ++ tl.
Proof.
  intros Hr Hpre Htl Hm He. unfold replace_all.
  rewrite (replace_from_prefix r tp a pre Hr Hpre). cbn [Nat.add].
  rewrite (replace_from_match false r tp (length pre) a mid tl y Hm He).
  rewrite (replace_from_all_plain r tp a tl _ Hr Htl). reflexivity.
Qed.

Lemma zero_parts (f : jsstring -> nat) pre x post :
  (forall a b, f (a ++ b) = (f a + f b)%nat) ->
  f (pre ++ x ++ post) = 0%nat -> f pre = 0%nat /\ f x = 0%nat /\ f post = 0%nat.
Proof. intros Hf. rewrite !Hf. lia. Qed.

Lemma italic_lone pre x post :
  x <> [] -> stars (pre ++ x ++ post) = 0%nat ->
  replace_all false ITALIC_RE [RLit (str "<em>"); RGrp 1; RLit (str "</em>")]
    (pre ++ 42 :: x ++ 42 :: post)
  = pre ++ str "<em>" ++ x ++ str "</em>" ++ post.
Proof.
  intros Hne Hs. destruct (zero_parts stars pre x post stars_app Hs) as (Hp & Hx & Ht).
  apply count_zero_all in Hp, Hx, Ht.
  replace (pre ++ 42 :: x ++ 42 :: post) with (pre ++ 42 :: (x ++ [42]) ++ post)
    by (rewrite <- app_assoc; reflexivity).
  rewrite (replace_lone_match ITALIC_RE _ 42 pre (x ++ [42]) post
             (MState (S (S (length pre + length x))) post [(1%nat, x)])
             italic_starts Hp Ht).
  - unfold expand, group. cbn [flat_map captures lookup Nat.eqb].
    rewrite app_nil_r, <- !app_assoc. reflexivity.
  - rewrite <- app_assoc. apply italic_match_span; assumption.
  - cbn [endIndex]. rewrite length_app. simpl. lia.
Qed.

Lemma code_lone pre x post :
  x <> [] -> ticks (pre ++ x ++ post) = 0%nat ->
  replace_all false CODE_RE [RLit (str "<code>"); RGrp 1; RLit (str "</code>")]
    (pre ++ 96 :: x ++ 96 :: post)
  = pre ++ str "<code>" ++ x ++ str "</code>" ++ post.
Proof.
  intros Hne Hs. destruct (zero_parts ticks pre x post ticks_app Hs) as (Hp & Hx & Ht).
  apply count_zero_all in Hp, Hx, Ht.
  replace (pre ++ 96 :: x ++ 96 :: post) with (pre ++ 96 :: (x ++ [96]) ++ post)
    by (rewrite <- app_assoc; reflexivity).
  rewrite (replace_lone_match CODE_RE _ 96 pre (x ++ [96]) post
             (MState (S (S (length pre + length x))) post [(1%nat, x)])
             code_starts Hp Ht).
  - unfold expand, group. cbn [flat_map captures lookup Nat.eqb].
    rewrite app_nil_r, <- !app_assoc. reflexivity.
  - rewrite <- app_assoc. apply code_match_span; assumption.
  - cbn [endIndex]. rewrite length_app. simpl. lia.
Qed.

Lemma bold_lone pre x post :
  x <> [] -> stars (pre ++ x ++ post) = 0%nat ->
  replace_all false BOLD_RE [RLit (str "<strong>"); RGrp 1; RLit (str "</strong>")]
    (pre ++ 42 :: 42 :: x ++ 42 :: 42 :: post)
  = pre ++ str "<strong>" ++ x ++ str "</strong>" ++ post.
Proof.
  intros Hne Hs. destruct (zero_parts stars pre x post stars_app Hs) as (Hp & Hx & Ht).
  apply count_zero_all in Hp, Hx, Ht.
  replace (pre ++ 42 :: 42 :: x ++ 42 :: 42 :: post)
    with (pre ++ 42 :: (42 :: x ++ [42; 42]) ++ post)
    by (cbn [app]; rewrite <- app_assoc; reflexivity).
  rewrite (replace_lone_match BOLD_RE _ 42 pre (42 :: x ++ [42; 42]) post
             (MState (S (S (S (S (length pre + length x))))) post [(1%nat, x)])
             bold_starts Hp Ht).
  - unfold expand, group. cbn [flat_map captures lookup Nat.eqb].
    rewrite app_nil_r, <- !app_assoc. reflexivity.
  - cbn [app]. rewrite <- app_assoc. apply bold_match_span; assumption.
  - cbn [endIndex length]. rewrite length_app. simpl. lia.
Qed.

Lemma stars_tagged pre (o : string) x (c : string) post :
  stars (str o) = 0%nat -> stars (str c) = 0%nat ->
  stars (pre ++ x ++ post) = 0%nat ->
  stars (pre ++ str o ++ x ++ str c ++ post) = 0%nat.
Proof. intros Ho Hc. rewrite !stars_app. lia. Qed.

Lemma ticks_tagged pre (o : string) x (c : string) post :
  ticks (str o) = 0%nat -> ticks (str c) = 0%nat ->
  ticks (pre ++ x ++ post) = 0%nat ->
  ticks (pre ++ str o ++ x ++ str c ++ post) = 0%nat.
Proof. intros Ho Hc. rewrite !ticks_app. lia. Qed.

Lemma code_untouched s tp : (ticks s <= 1)%nat -> replace_all false CODE_RE tp s = s.
Proof.
  intros H. apply (scarce_untouched ticks CODE_RE tp s 2 ticks_app code_needs_ticks). lia.
Qed.

Lemma bold_untouched s tp : (stars s <= 3)%nat -> replace_all false BOLD_RE tp s = s.
Proof.
  intros H.
  apply (scarce_untouched stars BOLD_RE tp s 4 stars_app bold_needs_four_stars). lia.
Qed.

Lemma italic_untouched s tp : (stars s <= 1)%nat -> replace_all false ITALIC_RE tp s = s.
Proof. intros H. apply few_stars_untouched; [apply italic_needs_stars|assumption]. Qed.

Lemma inlineFormat_bold pre x post :
  x <> [] -> stars (pre ++ x ++ post) = 0%nat -> ticks (pre ++ x ++ post) = 0%nat ->
  inlineFormat (pre ++ str "**" ++ x ++ str "**" ++ post)
  = pre ++ str "<strong>" ++ x ++ str "</strong>" ++ post.
Proof.
  intros Hne Hs Ht. unfold inlineFormat.
  change (pre ++ str "**" ++ x ++ str "**" ++ post)
    with (pre ++ 42 :: 42 :: x ++ 42 :: 42 :: post).
  rewrite (bold_lone pre x post Hne Hs).
  rewrite italic_untouched
    by (rewrite (stars_tagged pre "<strong>" x "</strong>" post eq_refl eq_refl Hs); lia).
  apply code_untouched.
  rewrite (ticks_tagged pre "<strong>" x "</strong>" post eq_refl eq_refl Ht). lia.
Qed.

Lemma inlineFormat_italic pre x post :
  x <> [] -> stars (pre ++ x ++ post) = 0%nat -> ticks (pre ++ x ++ post) = 0%nat ->
  inlineFormat (pre ++ str "*" ++ x ++ str "*" ++ post)
  = pre ++ str "<em>" ++ x ++ str "</em>" ++ post.
Proof.
  intros Hne Hs Ht. unfold inlineFormat.
  change (pre ++ str "*" ++ x ++ str "*" ++ post)
    with (pre ++ 42 :: x ++ 42 :: post).
  rewrite bold_untouched.
  2:{ destruct (zero_parts stars pre x post stars_app Hs) as (Hp & Hx & Hpo).
      change (pre ++ 42 :: x ++ 42 :: post) with (pre ++ [42] ++ x ++ [42] ++ post).
      rewrite !stars_app, Hp, Hx, Hpo. simpl. lia. }
  rewrite (italic_lone pre x post Hne Hs).
  apply code_untouched.
  rewrite (ticks_tagged pre "<em>" x "</em>" post eq_refl eq_refl Ht). lia.
Qed.

Lemma inlineFormat_code pre x post :
  x <> [] -> stars (pre ++ x ++ post) = 0%nat -> ticks (pre ++ x ++ post) = 0%nat ->
  inlineFormat (pre ++ str "`" ++ x ++ str "`" ++ post)
  = pre ++ str "<code>" ++ x ++ str "</code>" ++ post.
Proof.
  intros Hne Hs Ht. unfold inlineFormat.
  change (pre ++ str "`" ++ x ++ str "`" ++ post)
    with (pre ++ 96 :: x ++ 96 :: post).
  assert (Hst : stars (pre ++ 96 :: x ++ 96 :: post) = 0%nat).
  { destruct (zero_parts stars pre x post stars_app Hs) as (Hp & Hx & Hpo).
    change (pre ++ 96 :: x ++ 96 :: post) with (pre ++ [96] ++ x ++ [96] ++ post).
    rewrite !stars_app, Hp, Hx, Hpo. reflexivity. }
  rewrite bold_untouched by lia.
  rewrite italic_untouched by lia.
  apply (code_lone pre x post Hne Ht).
Qed.

(** ** Line patterns on lines of a known shape *)

(** The greedy quantifier stops at the end of the run when the rest of the
    pattern succeeds from there. *)
Lemma rep_inf_greedy q k z : forall s mn i,
  (mn <= length (take_while q s))%nat ->
  k (i + length (take_while q s))%nat (drop_while q s) = Some z ->
  rep q mn None i s k = Some z.
Proof.
  induction s as [|ch s IH]; intros mn i Hmn Hk; simpl in *.
  - assert (mn = 0%nat) by lia. subst mn. rewrite Nat.add_0_r in Hk. exact Hk.
  - destruct (q ch) eqn:Hq; simpl in *.
    + rewrite (IH (pred mn) (S i)); [reflexivity|lia|].
      replace (S i + length (take_while q s))%nat
        with (i + S (length (take_while q s)))%nat by lia. exact Hk.
    + assert (mn = 0%nat) by lia. subst mn. rewrite Nat.add_0_r in Hk. exact Hk.
Qed.

(** A bounded quantifier in front of a pattern that cannot start with a
    character of the class: the whole run is taken, and it has to fit the
    bounds. *)
Lemma rep_bounded_det q k :
  (forall j c t, q c = true -> k j (c :: t) = None) ->
  forall s mn mx i,
  (mn <= mx)%nat ->
  rep q mn (Some mx) i s k =
  if ((mn <=? length (take_while q s)) && (length (take_while q s) <=? mx))%nat
  then k (i + length (take_while q s))%nat (drop_while q s) else None.
Proof.
  intros Hk. induction s as [|ch s IH]; intros mn mx i Hmn.
  - destruct mx as [|mx].
    + assert (mn = 0%nat) by lia. subst mn. simpl. rewrite Nat.add_0_r. reflexivity.
    + destruct mn; simpl; [rewrite Nat.add_0_r|]; reflexivity.
  - destruct mx as [|mx].
    + assert (mn = 0%nat) by lia. subst mn. cbn [rep take_while drop_while].
      destruct (q ch) eqn:Hq; simpl.
      * apply Hk. assumption.
      * rewrite Nat.add_0_r. reflexivity.
    + cbn [rep take_while drop_while option_map]. destruct (q ch) eqn:Hq.
      * rewrite (IH (pred mn) (pred (S mx)) (S i)) by (simpl; lia).
        cbn [length pred].
        replace (S i + length (take_while q s))%nat
          with (i + S (length (take_while q s)))%nat by lia.
        replace (mn <=? S (length (take_while q s)))%nat
          with (pred mn <=? length (take_while q s))%nat
          by (destruct mn; simpl; reflexivity).
        change (S (length (take_while q s)) <=? S mx)%nat
          with (length (take_while q s) <=? mx)%nat.
        destruct ((pred mn <=? _) && _)%nat.
        -- destruct (k _ _); [reflexivity|].
           rewrite (Hk i ch s Hq). destruct (mn =? 0)%nat; reflexivity.
        -- rewrite (Hk i ch s Hq). destruct (mn =? 0)%nat; reflexivity.
      * destruct mn; simpl; [rewrite Nat.add_0_r|]; reflexivity.
Qed.

(** [\s+(.+)] at the end of a line pattern, on whitespace followed by a
    character that is no whitespace: the group takes the rest of the line up
    to its first line terminator. *)
Lemma space_content_tail n caps i ws c tl :
  ws <> [] -> forallb is_space ws = true -> is_space c = false ->
  rep is_space 1 None i (ws ++ c :: tl)
    (fun j s =>
       rep is_dot 1 None j s
         (fun j' s' => Some (MState j' s' ((n, firstn (j' - j) s) :: caps))))
  = Some (MState (i + length ws + length (take_while is_dot (c :: tl)))
                 (drop_while is_dot (c :: tl))
                 ((n, take_while is_dot (c :: tl)) :: caps)).
Proof.
  intros Hne Hws Hc.
  assert (Hstop : forall c' t', c :: tl = c' :: t' -> is_space c' = false)
    by (intros c' t' E; inversion E; subst; assumption).
  destruct (take_drop_exact is_space ws (c :: tl) Hws Hstop) as [Et Ed].
  apply rep_inf_greedy; rewrite Et, ?Ed.
  - destruct ws; [congruence|simpl; lia].
  - rewrite rep_inf_total by discriminate.
    assert (Hd : is_dot c = true) by (apply not_space_is_dot; assumption).
    replace (1 <=? length (take_while is_dot (c :: tl)))%nat with true
      by (simpl; rewrite Hd; reflexivity).
    replace (i + length ws + length (take_while is_dot (c :: tl))
             - (i + length ws))%nat
      with (length (take_while is_dot (c :: tl))) by lia.
    rewrite firstn_take_while. reflexivity.
Qed.

Lemma marker_not_blank_tab c : is_ul_marker c = true -> is_blank_tab c = false.
Proof.
  intros H. destruct (is_blank_tab c) eqn:B; [|reflexivity].
  apply blank_tab_not_marker in B. congruence.
Qed.

Lemma digit_not_blank_tab c : is_digit c = true -> is_blank_tab c = false.
Proof.
  intros H. destruct (is_blank_tab c) eqn:B; [|reflexivity].
  apply blank_tab_not_digit in B. congruence.
Qed.

Lemma ul_exec_shape ind m ws c tl :
  forallb is_blank_tab ind = true -> is_ul_marker m = true ->
  ws <> [] -> forallb is_space ws = true -> is_space c = false ->
  exists y, regex_exec false UL_RE (ind ++ m :: ws ++ c :: tl) = Some y /\
            group 1 y = take_while is_dot (c :: tl).
Proof.
  intros Hind Hm Hne Hws Hc.
  unfold UL_RE. cbn [seqs fold_right]. rewrite exec_anchored.
  unfold match_at, star, plus. cbn [matcher endIndex rest captures Nat.eqb].
  change (cls_match false is_blank_tab) with is_blank_tab.
  change (cls_match false is_space) with is_space.
  change (cls_match false is_dot) with is_dot.
  rewrite rep_inf_det.
  2:{ intros j c' t Hc'.
      change (cls_match false is_ul_marker c') with (is_ul_marker c').
      rewrite blank_tab_not_marker by assumption. reflexivity. }
  destruct (take_drop_exact is_blank_tab ind (m :: ws ++ c :: tl) Hind) as [-> ->].
  { intros c' t' E. inversion E; subst. apply marker_not_blank_tab. assumption. }
  cbn [Nat.leb].
  change (cls_match false is_ul_marker m) with (is_ul_marker m). rewrite Hm.
  rewrite (space_content_tail 1 [] _ ws c tl Hne Hws Hc).
  eexists. split; [reflexivity|].
  unfold group. cbn [captures lookup Nat.eqb]. reflexivity.
Qed.

Lemma ol_exec_shape ind ds d ws c tl :
  forallb is_blank_tab ind = true ->
  ds <> [] -> forallb is_digit ds = true -> is_ol_delim d = true ->
  ws <> [] -> forallb is_space ws = true -> is_space c = false ->
  exists y, regex_exec false OL_RE (ind ++ ds ++ d :: ws ++ c :: tl) = Some y /\
            group 1 y = take_while is_dot (c :: tl).
Proof.
  intros Hind Hne Hds Hd Hnw Hws Hc.
  unfold OL_RE. cbn [seqs fold_right]. rewrite exec_anchored.
  unfold match_at, star, plus. cbn [matcher endIndex rest captures Nat.eqb].
  change (cls_match false is_blank_tab) with is_blank_tab.
  change (cls_match false is_digit) with is_digit.
  change (cls_match false is_space) with is_space.
  change (cls_match false is_dot) with is_dot.
  rewrite rep_inf_det.
  2:{ intros j c' t Hc'. rewrite rep_inf_det.
      - rewrite take_while_stop by (apply blank_tab_not_digit; assumption). reflexivity.
      - intros j' c'' t' Hc''.
        change (cls_match false is_ol_delim c'') with (is_ol_delim c'').
        rewrite digit_not_delim by assumption. reflexivity. }
  destruct ds as [|d0 ds]; [congruence|].
  pose proof Hds as Hd0. simpl in Hd0. apply andb_true_iff in Hd0. destruct Hd0 as [Hd0 _].
  destruct (take_drop_exact is_blank_tab ind ((d0 :: ds) ++ d :: ws ++ c :: tl) Hind)
    as [-> ->].
  { intros c' t' E. inversion E; subst. apply digit_not_blank_tab. assumption. }
  cbn [Nat.leb].
  rewrite rep_inf_det.
  2:{ intros j' c' t' Hc'.
      change (cls_match false is_ol_delim c') with (is_ol_delim c').
      rewrite digit_not_delim by assumption. reflexivity. }
  destruct (take_drop_exact is_digit (d0 :: ds) (d :: ws ++ c :: tl) Hds) as [-> ->].
  { intros c' t' E. inversion E; subst. apply delim_not_digit. assumption. }
  cbn [length Nat.leb].
  change (cls_match false is_ol_delim d) with (is_ol_delim d). rewrite Hd.
  rewrite (space_content_tail 1 [] _ ws c tl Hnw Hws Hc).
  eexists. split; [reflexivity|].
  unfold group. cbn [captures lookup Nat.eqb]. reflexivity.
Qed.

Lemma hash_run k t :
  (forall c t', t = c :: t' -> is_char 35 c = false) ->
  take_while (is_char 35) (repeat 35 k ++ t) = repeat 35 k /\
  drop_while (is_char 35) (repeat 35 k ++ t) = t.
Proof.
  intros Ht. apply take_drop_exact; [|assumption].
  induction k; simpl; [reflexivity|assumption].
Qed.

Lemma space_not_hash c : is_space c = true -> is_char 35 c = false.
Proof.
  intros H. unfold is_char. destruct (c =? 35) eqn:E; [|reflexivity].
  apply N.eqb_eq in E. subst c. discriminate H.
Qed.

Lemma hash_not_space c : is_char 35 c = true -> is_space c = false.
Proof.
  intros H. destruct (is_space c) eqn:E; [|reflexivity].
  apply space_not_hash in E. congruence.
Qed.

(** [^(#{1,6})] and what follows it in [H_RE], on a line that starts with
    [k] hashes: more than six, or none, and the pattern fails. *)
Lemma h_exec_hashes k t :
  (forall c t', t = c :: t' -> is_char 35 c = false) ->
  regex_exec false H_RE (repeat 35 k ++ t) =
  if ((1 <=? k) && (k <=? 6))%nat
  then rep is_space 1 None k t
         (fun j s =>
            rep is_dot 1 None j s
              (fun j' s' =>
                 Some (MState j' s' [(2%nat, firstn (j' - j) s);
                                     (1%nat, firstn (k - 0) (repeat 35 k ++ t))])))
  else None.
Proof.
  intros Ht. unfold H_RE. cbn [seqs fold_right]. rewrite exec_anchored.
  unfold match_at, plus. cbn [matcher endIndex rest captures Nat.eqb].
  change (cls_match false (is_char 35)) with (is_char 35).
  change (cls_match false is_space) with is_space.
  change (cls_match false is_dot) with is_dot.
  rewrite rep_bounded_det; [|intros j c t' Hc|lia].
  - destruct (hash_run k t Ht) as [-> ->]. rewrite repeat_length. reflexivity.
  - cbn [rep]. rewrite (hash_not_space c Hc). reflexivity.
Qed.

(** A line whose first character after the indentation is no list marker
    is no unordered item, and likewise for digits and ordered items. *)
Lemma ul_exec_none line :
  (forall c t, drop_while is_blank_tab line = c :: t -> is_ul_marker c = false) ->
  regex_exec false UL_RE line = None.
Proof.
  intros H. unfold UL_RE. cbn [seqs fold_right]. rewrite exec_anchored.
  unfold match_at, star, plus. cbn [matcher endIndex rest captures Nat.eqb].
  change (cls_match false is_blank_tab) with is_blank_tab.
  rewrite rep_inf_det.
  2:{ intros j c' t Hc'.
      change (cls_match false is_ul_marker c') with (is_ul_marker c').
      rewrite blank_tab_not_marker by assumption. reflexivity. }
  cbn [Nat.leb]. destruct (drop_while is_blank_tab line) as [|c t]; [reflexivity|].
  change (cls_match false is_ul_marker c) with (is_ul_marker c).
  rewrite (H c t eq_refl). reflexivity.
Qed.

Lemma ol_exec_none line :
  (forall c t, drop_while is_blank_tab line = c :: t -> is_digit c = false) ->
  regex_exec false OL_RE line = None.
Proof.
  intros H. unfold OL_RE. cbn [seqs fold_right]. rewrite exec_anchored.
  unfold match_at, star, plus. cbn [matcher endIndex rest captures Nat.eqb].
  change (cls_match false is_blank_tab) with is_blank_tab.
  change (cls_match false is_digit) with is_digit.
  rewrite rep_inf_det.
  2:{ intros j c' t Hc'. rewrite rep_inf_det.
      - rewrite take_while_stop by (apply blank_tab_not_digit; assumption). reflexivity.
      - intros j' c'' t' Hc''.
        change (cls_match false is_ol_delim c'') with (is_ol_delim c'').
        rewrite digit_not_delim by assumption. reflexivity. }
  cbn [Nat.leb].
  rewrite rep_inf_det.
  2:{ intros j' c' t' Hc'.
      change (cls_match false is_ol_delim c') with (is_ol_delim c').
      rewrite digit_not_delim by assumption. reflexivity. }
  destruct (drop_while is_blank_tab line) as [|c t]; [reflexivity|].
  rewrite take_while_stop by (apply (H c t eq_refl)). reflexivity.
Qed.

(** The two list patterns exclude each other. *)
Lemma ul_excludes_ol line :
  regex_exec false UL_RE line <> None -> regex_exec false OL_RE line = None.
Proof.
  intros Hu. apply ol_exec_none. intros c t E.
  destruct (is_digit c) eqn:Hd; [|reflexivity]. exfalso. apply Hu.
  apply ul_exec_none. intros c' t' E'. rewrite E in E'. inversion E'; subst.
  unfold is_digit, in_range in Hd. unfold is_ul_marker.
  bool_hyp Hd. bool_goal. lia.
Qed.

(** ** Whole lines and whole texts *)

Lemma split_on_no_sep sep l :
  forallb (fun c => negb (c =? sep)) l = true -> split_on sep l = [l].
Proof.
  induction l as [|c l IH]; simpl; [reflexivity|].
  intros H. apply andb_true_iff in H. destruct H as [Hc Hl].
  apply negb_true_iff in Hc. rewrite Hc, (IH Hl). reflexivity.
Qed.

Lemma split_on_app sep l t :
  forallb (fun c => negb (c =? sep)) l = true ->
  split_on sep (l ++ sep :: t) = l :: split_on sep t.
Proof.
  induction l as [|c l IH]; simpl.
  - rewrite N.eqb_refl. reflexivity.
  - intros H. apply andb_true_iff in H. destruct H as [Hc Hl].
    apply negb_true_iff in Hc. rewrite Hc, (IH Hl). reflexivity.
Qed.

(** [split] undoes [join] when no line holds the separator. *)
Lemma split_join sep lines :
  lines <> [] ->
  Forall (fun l => forallb (fun c => negb (c =? sep)) l = true) lines ->
  split_on sep (join_with [sep] lines) = lines.
Proof.
  induction lines as [|l lines IH]; [congruence|]. intros _ H.
  inversion H as [|? ? Hl Hls]; subst.
  destruct lines as [|l' lines'].
  - simpl. apply split_on_no_sep. assumption.
  - change (join_with [sep] (l :: l' :: lines'))
      with (l ++ sep :: join_with [sep] (l' :: lines')).
    rewrite split_on_app by assumption. f_equal. apply IH; [discriminate|assumption].
Qed.

Lemma digits_app a b : digits (a ++ b) = (digits a + digits b)%nat.
Proof. unfold digits. rewrite filter_app, length_app. reflexivity. Qed.

Lemma digits_all s : forallb is_digit s = true -> digits s = length s.
Proof.
  unfold digits. induction s as [|c s IH]; simpl; [reflexivity|].
  intros H. apply andb_true_iff in H. destruct H as [-> Hs]. simpl. f_equal. auto.
Qed.

Lemma break_needs_digit i b :
  match_at false INLINE_OL_BREAK i b <> None -> (1 <= digits b)%nat.
Proof.
  rewrite match_break_at. destruct (break_at i b) as [y|] eqn:E; [|congruence].
  intros _. apply break_at_Some in E.
  destruct E as (ws & ds & d & ws' & -> & _ & _ & Hne & Hds & _).
  change (46 :: ws ++ ds ++ d :: ws' ++ rest y)
    with ([46] ++ ws ++ ds ++ d :: ws' ++ rest y).
  rewrite !digits_app, (digits_all ds Hds).
  destruct ds; [congruence|simpl; lia].
Qed.

(** A text without digits passes the normalization unchanged. *)
Lemma prepass_no_digits t : digits t = 0%nat -> prepass t = t.
Proof.
  intros H. unfold prepass.
  apply (scarce_untouched digits INLINE_OL_BREAK _ t 1 digits_app break_needs_digit).
  lia.
Qed.

Lemma h_exec_none_first line :
  (forall c t, line = c :: t -> is_char 35 c = false) ->
  regex_exec false H_RE line = None.
Proof.
  intros H. apply (h_exec_hashes 0 line H).
Qed.

Lemma drop_while_incl (p : cu -> bool) s c :
  In c (drop_while p s) -> In c s.
Proof.
  induction s as [|a s IH]; simpl; [auto|].
  destruct (p a); simpl; auto.
Qed.

Lemma no_digit_chars l :
  forallb (fun c => negb (c =? 10) && negb (is_digit c)) l = true ->
  forallb (fun c => negb (c =? 10)) l = true /\ digits l = 0%nat /\
  forall c, In c l -> is_digit c = false.
Proof.
  induction l as [|a l IH]; simpl; [intros _; repeat split; intros c []|].
  intros H. apply andb_true_iff in H. destruct H as [Ha Hl].
  apply andb_true_iff in Ha. destruct Ha as [Ha1 Ha2].
  destruct (IH Hl) as (H1 & H2 & H3). apply negb_true_iff in Ha2.
  rewrite Ha1, H1. unfold digits in *. simpl. rewrite Ha2.
  repeat split; [assumption|]. intros c [<-|Hc]; auto.
Qed.

Lemma step_prose s l :
  prose_line l = true -> listType s = None -> listItems s = [] ->
  step s l = Conv (out s ++ [prose_block l]) None [].
Proof.
  intros Hp Ht Hi. unfold prose_line in Hp.
  apply andb_true_iff in Hp. destruct Hp as [Hp Hh].
  apply andb_true_iff in Hp. destruct Hp as [Hp Hu].
  apply andb_true_iff in Hp. destruct Hp as [Hp Hk].
  apply andb_true_iff in Hp. destruct Hp as [Hc Hs].
  apply Nat.leb_le in Hs, Hk.
  destruct (no_digit_chars l Hc) as (_ & _ & Hd).
  unfold prose_block. destruct (trim l) as [|c0 tr] eqn:Etr.
  - assert (Hok : accumulator_ok s) by (unfold accumulator_ok; tauto).
    apply (proj2 (step_blank s l Hok Etr) Hi).
  - rewrite step_plain.
    + rewrite (flushList_empty s Hi). unfold push_out. rewrite Ht, Hi.
      unfold plain_block. rewrite h_exec_none_first.
      * rewrite inlineFormat_plain by assumption. reflexivity.
      * intros c t ->. apply negb_true_iff in Hh. exact Hh.
    + apply ul_exec_none. intros c t E. rewrite E in Hu.
      apply negb_true_iff in Hu. exact Hu.
    + apply ol_exec_none. intros c t E. apply Hd.
      apply (drop_while_incl is_blank_tab). rewrite E. left. reflexivity.
    + rewrite Etr. discriminate.
Qed.

Lemma fold_prose lines : forall s,
  forallb prose_line lines = true -> listType s = None -> listItems s = [] ->
  fold_left step lines s = Conv (out s ++ map prose_block lines) None [].
Proof.
  induction lines as [|l lines IH]; intros s H Ht Hi.
  - simpl. rewrite app_nil_r. destruct s; simpl in *; subst; reflexivity.
  - simpl in H. apply andb_true_iff in H. destruct H as [Hl Hls].
    cbn [fold_left]. rewrite (step_prose s l Hl Ht Hi).
    rewrite IH by (assumption || reflexivity). cbn [out map].
    rewrite <- app_assoc. reflexivity.
Qed.

Lemma digits_join lines :
  Forall (fun l => digits l = 0%nat) lines -> digits (join_with [LF] lines) = 0%nat.
Proof.
  induction 1 as [|l lines Hl Hls IH]; [reflexivity|].
  destruct lines as [|l' lines']; [assumption|].
  change (join_with [LF] (l :: l' :: lines'))
    with (l ++ [LF] ++ join_with [LF] (l' :: lines')).
  rewrite !digits_app, Hl, IH. reflexivity.
Qed.

Lemma blocks_prose lines :
  lines <> [] -> forallb prose_line lines = true ->
  blocks (join_with [LF] lines) = map prose_block lines.
Proof.
  intros Hne H. unfold blocks.
  assert (Hall : Forall (fun l => forallb (fun c => negb (c =? 10)) l = true /\
                                  digits l = 0%nat) lines).
  { apply Forall_forall. intros l Hl.
    assert (Hp : prose_line l = true)
      by (apply (proj1 (forallb_forall prose_line lines) H); assumption).
    unfold prose_line in Hp.
    repeat (apply andb_true_iff in Hp; destruct Hp as [Hp _]).
    destruct (no_digit_chars l Hp) as (H1 & H2 & _). auto. }
  rewrite prepass_no_digits.
  2:{ apply digits_join. eapply Forall_impl; [|exact Hall]. intros l [_ Hd]. exact Hd. }
  match goal with |- context [split_on ?a ?b] =>
    replace (split_on a b) with lines
  end.
  2:{ symmetry. apply (split_join LF lines Hne).
      eapply Forall_impl; [|exact Hall]. intros l [Hl _]. exact Hl. }
  unfold run. rewrite (fold_prose lines conv_init H eq_refl eq_refl).
  reflexivity.
Qed.

Lemma digit_not_marker c : is_digit c = true -> is_ul_marker c = false.
Proof.
  unfold is_digit, in_range, is_ul_marker. intros H.
  bool_hyp H. bool_goal. lia.
Qed.

Lemma hash_line_plain s k t :
  (1 <= k)%nat ->
  step s (repeat 35 k ++ t) = push_out (flushList s) (plain_block (repeat 35 k ++ t)).
Proof.
  intros Hk. destruct k as [|k]; [lia|]. cbn [repeat app].
  apply step_plain.
  - apply ul_exec_none. intros c' t' E. simpl in E. inversion E; subst. reflexivity.
  - apply ol_exec_none. intros c' t' E. simpl in E. inversion E; subst. reflexivity.
  - apply trim_cons_not_space. reflexivity.
Qed.

Lemma firstn_repeat_app k (t : jsstring) :
  firstn (k - 0) (repeat 35 k ++ t) = repeat 35 k.
Proof.
  rewrite Nat.sub_0_r. apply firstn_exact. rewrite repeat_length. reflexivity.
Qed.

(** *** What the loop does to [out] *)

Lemma flushList_out s :
  exists bs, out (flushList s) = out s ++ bs /\ length bs = pending s /\
             listItems (flushList s) = [].
Proof.
  unfold flushList, pending. destruct (listItems s) as [|x items] eqn:E.
  - exists []. rewrite app_nil_r. auto.
  - eexists. cbn [out listItems]. split; [reflexivity|]. auto.
Qed.

Lemma enter_list_out k s :
  exists bs, out (enter_list k s) = out s ++ bs /\
             (length bs + pending (enter_list k s) <= pending s)%nat.
Proof.
  assert (Hid : exists bs, out s = out s ++ bs /\
                           (length bs + pending s <= pending s)%nat)
    by (exists []; rewrite app_nil_r; simpl; auto).
  assert (Hfl : exists bs, out (flushList s) = out s ++ bs /\
                           (length bs + pending (flushList s) <= pending s)%nat).
  { destruct (flushList_out s) as (bs & E & L & I). exists bs. split; [assumption|].
    unfold pending at 1. rewrite I. lia. }
  unfold enter_list. destruct k, (listType s) as [[|]|]; assumption.
Qed.

Lemma pending_app_le (s : conv) o t items more :
  (pending (Conv o t (items ++ more)) <= 1)%nat.
Proof. unfold pending. cbn [listItems]. destruct (items ++ more); lia. Qed.

(** A turn of the loop appends to [out] and changes none of the blocks
    already there; the blocks and the pending list together grow by one at
    most. *)
Lemma step_out s l :
  exists bs, out (step s l) = out s ++ bs /\
             (length bs + pending (step s l) <= S (pending s))%nat.
Proof.
  unfold step.
  destruct (regex_exec false UL_RE l) as [m|].
  { destruct (enter_list_out ul s) as (bs & E & L).
    change (match listType s with Some ol => flushList s | _ => s end)
      with (enter_list ul s).
    exists bs. cbn [out]. split; [assumption|].
    pose proof (pending_app_le s (out (enter_list ul s)) (Some ul)
                  (listItems (enter_list ul s)) [li (inlineFormat (group 1 m))]).
    lia. }
  destruct (regex_exec false OL_RE l) as [m|].
  { destruct (enter_list_out ol s) as (bs & E & L).
    change (match listType s with Some ul => flushList s | _ => s end)
      with (enter_list ol s).
    exists bs. cbn [out]. split; [assumption|].
    pose proof (pending_app_le s (out (enter_list ol s)) (Some ol)
                  (listItems (enter_list ol s)) (ol_items (group 1 m))).
    lia. }
  destruct (flushList_out s) as (bs & E & L & I).
  assert (Hpush : forall b,
    exists bs', out (push_out (flushList s) b) = out s ++ bs' /\
                (length bs' + pending (push_out (flushList s) b) <= S (pending s))%nat).
  { intros b. exists (bs ++ [b]). unfold push_out, pending at 1. cbn [out listItems].
    rewrite I, E, <- app_assoc, length_app. simpl. split; [reflexivity|lia]. }
  destruct (trim l).
  - destruct (listType s); [|apply Hpush].
    exists []. rewrite app_nil_r. simpl. auto.
  - destruct (regex_exec false H_RE l); apply Hpush.
Qed.

Lemma fold_step_out lines : forall s,
  exists bs, out (fold_left step lines s) = out s ++ bs /\
             (length bs + pending (fold_left step lines s)
              <= length lines + pending s)%nat.
Proof.
  induction lines as [|l lines IH]; intros s.
  - exists []. rewrite app_nil_r. simpl. auto.
  - cbn [fold_left]. destruct (IH (step s l)) as (bs2 & E2 & L2).
    destruct (step_out s l) as (bs1 & E1 & L1).
    exists (bs1 ++ bs2). rewrite E2, E1, <- app_assoc, length_app.
    split; [reflexivity|]. simpl. lia.
Qed.

(** *** Runs of list lines *)

Lemma is_blank_trim l : is_blank l = true -> trim l = [].
Proof. unfold is_blank. destruct (trim l); [reflexivity|discriminate]. Qed.

Lemma test_exec ic r l :
  regex_test ic r l = true -> exists m, regex_exec ic r l = Some m.
Proof.
  unfold regex_test. destruct (regex_exec ic r l) as [m|]; [eauto|discriminate].
Qed.

Lemma fold_ul_run lines : forall s,
  listType s = Some ul -> listItems s <> [] ->
  forallb (fun l => regex_test false UL_RE l || is_blank l) lines = true ->
  exists items,
    fold_left step lines s = Conv (out s) (Some ul) (listItems s ++ items) /\
    length items = length (filter (regex_test false UL_RE) lines).
Proof.
  induction lines as [|l lines IH]; intros s Ht Hi H.
  - exists []. rewrite app_nil_r. destruct s; simpl in *; subst. auto.
  - simpl in H. apply andb_true_iff in H. destruct H as [Hl Hls].
    cbn [fold_left filter].
    destruct (regex_test false UL_RE l) eqn:Hu.
    + destruct (test_exec _ _ _ Hu) as (m & E).
      assert (Es : step s l = Conv (out s) (Some ul)
                     (listItems s ++ [li (inlineFormat (group 1 m))]))
        by (unfold step; rewrite E, Ht; reflexivity).
      rewrite Es.
      destruct (IH (Conv (out s) (Some ul)
                      (listItems s ++ [li (inlineFormat (group 1 m))])))
        as (items & E' & L); [reflexivity| |assumption|].
      { cbn [listItems]. destruct (listItems s); discriminate. }
      exists (li (inlineFormat (group 1 m)) :: items).
      rewrite E'. cbn [out listItems length]. rewrite <- app_assoc.
      split; [reflexivity|congruence].
    + simpl in Hl. apply is_blank_trim in Hl.
      assert (Hok : accumulator_ok s).
      { unfold accumulator_ok. rewrite Ht. split; [discriminate|contradiction]. }
      rewrite (proj1 (step_blank s l Hok Hl) Hi). apply IH; assumption.
Qed.

Lemma fold_ol_run lines : forall s,
  listType s = Some ol -> listItems s <> [] ->
  forallb (fun l => regex_test false OL_RE l || is_blank l) lines = true ->
  exists items,
    fold_left step lines s = Conv (out s) (Some ol) (listItems s ++ items) /\
    (length (filter (regex_test false OL_RE) lines) <= length items)%nat.
Proof.
  induction lines as [|l lines IH]; intros s Ht Hi H.
  - exists []. rewrite app_nil_r. destruct s; simpl in *; subst. auto.
  - simpl in H. apply andb_true_iff in H. destruct H as [Hl Hls].
    cbn [fold_left filter].
    destruct (regex_test false OL_RE l) eqn:Ho.
    + destruct (test_exec _ _ _ Ho) as (m & E).
      assert (Eu : regex_exec false UL_RE l = None).
      { destruct (regex_exec false UL_RE l) eqn:Eu; [|reflexivity].
        rewrite ul_excludes_ol in E; [discriminate|congruence]. }
      assert (Es : step s l = Conv (out s) (Some ol)
                     (listItems s ++ ol_items (group 1 m)))
        by (unfold step; rewrite Eu, E, Ht; reflexivity).
      destruct (ol_exec_content l m E) as (c0 & tl & G & Hc).
      pose proof (ol_items_nonempty c0 tl Hc) as Hne. rewrite <- G in Hne.
      rewrite Es.
      destruct (IH (Conv (out s) (Some ol) (listItems s ++ ol_items (group 1 m))))
        as (items & E' & L); [reflexivity| |assumption|].
      { cbn [listItems]. destruct (listItems s); [|discriminate].
        destruct (ol_items (group 1 m)); [congruence|discriminate]. }
      exists (ol_items (group 1 m) ++ items).
      rewrite E'. cbn [out listItems]. rewrite <- app_assoc, length_app.
      split; [reflexivity|].
      destruct (ol_items (group 1 m)); [congruence|]. simpl. lia.
    + simpl in Hl. apply is_blank_trim in Hl.
      assert (Hok : accumulator_ok s).
      { unfold accumulator_ok. rewrite Ht. split; [discriminate|contradiction]. }
      rewrite (proj1 (step_blank s l Hok Hl) Hi). apply IH; assumption.
Qed.

(** *** The shapes of the blocks *)

Lemma ol_items_shape content : Forall is_item (ol_items content).
Proof.
  unfold ol_items. destruct (1 <? _)%nat.
  - induction (every_other _) as [|p ps IH]; [constructor|].
    cbn [flat_map]. apply Forall_app. split; [|exact IH].
    destruct (trim p); [constructor|].
    constructor; [eexists; reflexivity|constructor].
  - constructor; [eexists; reflexivity|constructor].
Qed.

Lemma flushList_shaped s :
  accumulator_ok s -> shaped s -> shaped (flushList s).
Proof.
  intros Hok [Ho Hi]. unfold flushList.
  destruct (listItems s) as [|x items] eqn:E; [split; [assumption|rewrite E; assumption]|].
  split; cbn [out listItems]; [|constructor].
  apply Forall_app. split; [assumption|]. constructor; [|constructor].
  destruct (listType s) as [k|] eqn:Et.
  - apply BS_list; [discriminate|assumption].
  - destruct Hok as [H _]. rewrite (H Et) in E. discriminate.
Qed.

Lemma push_out_shaped s b :
  shaped s -> block_shape b -> shaped (push_out s b).
Proof.
  intros [Ho Hi] Hb. split; cbn [push_out out listItems]; [|assumption].
  apply Forall_app. split; [assumption|]. constructor; [assumption|constructor].
Qed.

Lemma plain_block_shape l : block_shape (plain_block l).
Proof.
  unfold plain_block. destruct (regex_exec false H_RE l) as [m|] eqn:E.
  - apply BS_heading. apply h_exec_level with (line := l). assumption.
  - apply BS_paragraph.
Qed.

Lemma enter_list_shaped k s :
  accumulator_ok s -> shaped s -> shaped (enter_list k s).
Proof.
  intros Hok Hs. unfold enter_list.
  destruct k, (listType s) as [[|]|]; try assumption;
    apply flushList_shaped; assumption.
Qed.

Lemma step_shaped s l : accumulator_ok s -> shaped s -> shaped (step s l).
Proof.
  intros Hok Hs. unfold step.
  destruct (regex_exec false UL_RE l) as [m|] eqn:Eu.
  { change (match listType s with Some ol => flushList s | _ => s end)
      with (enter_list ul s).
    destruct (enter_list_shaped ul s Hok Hs) as [Ho Hi].
    split; cbn [out listItems]; [assumption|].
    apply Forall_app. split; [assumption|].
    constructor; [eexists; reflexivity|constructor]. }
  destruct (regex_exec false OL_RE l) as [m|] eqn:Eo.
  { change (match listType s with Some ul => flushList s | _ => s end)
      with (enter_list ol s).
    destruct (enter_list_shaped ol s Hok Hs) as [Ho Hi].
    split; cbn [out listItems]; [assumption|].
    apply Forall_app. split; [assumption|apply ol_items_shape]. }
  destruct (trim l) as [|c t] eqn:El.
  - destruct (listType s); [assumption|].
    apply push_out_shaped; [apply flushList_shaped; assumption|apply BS_break].
  - pose proof (plain_block_shape l) as Hp. unfold plain_block in Hp.
    destruct (regex_exec false H_RE l);
      (apply push_out_shaped; [apply flushList_shaped; assumption|exact Hp]).
Qed.

Lemma fold_step_shaped lines : forall s,
  accumulator_ok s -> shaped s -> shaped (fold_left step lines s).
Proof.
  induction lines as [|l lines IH]; intros s Hok Hs; simpl; [assumption|].
  apply IH; [apply step_ok|apply step_shaped]; assumption.
Qed.

(** ** Where the code units of the output come from *)

Section Provenance.

Variable P : cu -> Prop.

Lemma Forall_firstn_P n (s : jsstring) : Forall P s -> Forall P (firstn n s).
Proof.
  revert n. induction s as [|c s IH]; intros n H; destruct n; simpl;
    try constructor; inversion H; subst; auto.
Qed.

Lemma Forall_app_r (w s : jsstring) : Forall P (w ++ s) -> Forall P s.
Proof. intros H. apply Forall_app in H. tauto. Qed.

Lemma reaches_clean ic r : forall x y,
  reaches ic r x y -> clean P x -> clean P y.
Proof.
  induction r as [|a|p|p mn mx|r1 IH1 r2 IH2|r1 IH1 r2 IH2|n r IH|];
    intros x y R [Hr Hc]; cbn [reaches] in R.
  - subst. split; assumption.
  - destruct R as (ch & s & E & _ & ->). rewrite E in Hr. inversion Hr; subst.
    split; assumption.
  - destruct R as (ch & s & E & _ & ->). rewrite E in Hr. inversion Hr; subst.
    split; assumption.
  - destruct R as (w & s & E & _ & _ & _ & ->). rewrite E in Hr.
    split; [apply (Forall_app_r w s Hr)|assumption].
  - destruct R as (m & R1 & R2). apply (IH2 m y R2). apply (IH1 x m R1).
    split; assumption.
  - destruct R as [R|R]; [apply (IH1 x y R)|apply (IH2 x y R)]; split; assumption.
  - destruct R as (y0 & R & ->). destruct (IH x y0 R (conj Hr Hc)) as [Hr0 Hc0].
    split; cbn [rest captures]; [assumption|].
    constructor; [|assumption]. cbn [snd]. apply Forall_firstn_P. assumption.
  - destruct R as [_ ->]. split; assumption.
Qed.

Lemma lookup_clean n caps :
  Forall (fun kv => Forall P (snd kv)) caps -> Forall P (lookup n caps).
Proof.
  induction caps as [|[k v] caps IH]; intros H; simpl; [constructor|].
  inversion H; subst. destruct (Nat.eqb k n); auto.
Qed.

Lemma match_at_clean ic r i s y :
  wf_regex r = true -> match_at ic r i s = Some y -> Forall P s -> clean P y.
Proof.
  intros Hwf E Hs. unfold match_at in E.
  apply matcher_sound in E; [|assumption].
  destruct E as (y' & R & E). inversion E; subst y'.
  apply (reaches_clean ic r _ _ R). split; [assumption|constructor].
Qed.

Lemma exec_clean ic r s y n :
  wf_regex r = true -> regex_exec ic r s = Some y -> Forall P s ->
  Forall P (group n y).
Proof.
  intros Hwf E Hs. unfold regex_exec in E.
  destruct (search ic r 0 s) as [[j y']|] eqn:Es; [|discriminate].
  inversion E; subst y'.
  apply search_sound in Es. destruct Es as (a & b & -> & _ & Em).
  apply match_at_clean in Em; [|assumption|apply (Forall_app_r a b Hs)].
  apply lookup_clean. apply Em.
Qed.

Lemma expand_clean tp y :
  Forall (fun e => match e with RLit s => Forall P s | RGrp _ => True end) tp ->
  clean P y -> Forall P (expand tp y).
Proof.
  intros Htp [_ Hc]. unfold expand.
  induction tp as [|e tp IH]; [constructor|].
  inversion Htp; subst. cbn [flat_map]. apply Forall_app. split; [|auto].
  destruct e as [s|n]; [assumption|]. apply lookup_clean. assumption.
Qed.

Lemma replace_from_clean ic r tp :
  wf_regex r = true ->
  Forall (fun e => match e with RLit s => Forall P s | RGrp _ => True end) tp ->
  forall s skip i, Forall P s -> Forall P (replace_from ic r tp skip i s).
Proof.
  intros Hwf Htp. induction s as [|c s IH]; intros skip i Hs.
  - destruct skip; cbn [replace_from]; [|constructor].
    destruct (match_at ic r i []) as [y|] eqn:E; [|constructor].
    rewrite app_nil_r. apply expand_clean; [assumption|].
    apply (match_at_clean ic r i [] y Hwf E). constructor.
  - inversion Hs; subst. destruct skip as [|k]; cbn [replace_from]; [|auto].
    destruct (match_at ic r i (c :: s)) as [y|] eqn:E.
    + apply Forall_app. split.
      * apply expand_clean; [assumption|].
        apply (match_at_clean ic r i (c :: s) y Hwf E). assumption.
      * destruct (endIndex y - i)%nat; [constructor|]; auto.
    + constructor; auto.
Qed.

Lemma split_from_clean ic r :
  wf_regex r = true ->
  forall s skip i cur,
    Forall P s -> Forall P cur ->
    Forall (Forall P) (split_from ic r skip i cur s).
Proof.
  intros Hwf. induction s as [|c s IH]; intros skip i cur Hs Hcur.
  - cbn [split_from]. constructor; [|constructor].
    apply Forall_rev. assumption.
  - inversion Hs; subst. cbn [split_from].
    destruct skip as [|k]; [|apply IH; [assumption|constructor]].
    destruct (match_at ic r i (c :: s)) as [y|] eqn:E.
    + assert (Hg : Forall P (group 1 y)).
      { apply lookup_clean.
        apply (match_at_clean ic r i (c :: s) y Hwf E). assumption. }
      assert (Hrev : Forall P (rev cur)) by (apply Forall_rev; assumption).
      destruct (endIndex y - i)%nat.
      * destruct cur as [|c0 cur'].
        -- apply IH; [assumption|]. constructor; [assumption|constructor].
        -- constructor; [assumption|]. constructor; [assumption|].
           apply IH; [assumption|]. constructor; [assumption|constructor].
      * constructor; [assumption|]. constructor; [assumption|].
        apply IH; [assumption|constructor].
    + apply IH; [assumption|]. constructor; assumption.
Qed.

Lemma regex_split_clean ic r s :
  wf_regex r = true -> Forall P s -> Forall (Forall P) (regex_split ic r s).
Proof.
  intros Hwf Hs. unfold regex_split. destruct s as [|c s].
  - destruct (match_at ic r 0 []); [constructor|].
    constructor; [constructor|constructor].
  - apply split_from_clean; [assumption|assumption|constructor].
Qed.

Lemma drop_while_clean q (s : jsstring) : Forall P s -> Forall P (drop_while q s).
Proof.
  induction s as [|c s IH]; intros H; simpl; [constructor|].
  inversion H; subst. destruct (q c); auto.
Qed.

Lemma trim_clean s : Forall P s -> Forall P (trim s).
Proof.
  intros H. unfold trim. apply Forall_rev, drop_while_clean, Forall_rev,
    drop_while_clean. assumption.
Qed.

Lemma every_other_clean (l : list jsstring) :
  Forall (Forall P) l -> Forall (Forall P) (every_other l).
Proof.
  revert l. fix IH 1. intros [|x [|y l]] H; simpl.
  - constructor.
  - constructor; [inversion H; assumption|constructor].
  - inversion H as [|? ? Hx H']; subst. inversion H'; subst.
    constructor; [assumption|]. apply IH. assumption.
Qed.

End Provenance.

Section Converter.

Variable P : cu -> Prop.
Hypothesis Htags : forall c, In c TAG_UNITS -> P c.

Lemma units_clean lit :
  forallb (fun c => existsb (N.eqb c) TAG_UNITS) lit = true -> Forall P lit.
Proof.
  intros H. apply Forall_forall. intros c Hc. apply Htags.
  apply (proj1 (forallb_forall _ lit) H) in Hc.
  apply existsb_exists in Hc. destruct Hc as (u & Hu & E).
  apply N.eqb_eq in E. subst. assumption.
Qed.

Lemma level_clean lvl :
  (1 <= lvl <= 6)%nat -> Forall P (number_to_string lvl).
Proof.
  intros H.
  do 7 (destruct lvl as [|lvl]; [first [lia | apply units_clean; reflexivity]|]).
  lia.
Qed.

Lemma template_clean (a b : jsstring) :
  Forall P a -> Forall P b ->
  Forall (fun e => match e with RLit s => Forall P s | RGrp _ => True end)
    [RLit a; RGrp 1; RLit b].
Proof.
  intros Ha Hb. constructor; [exact Ha|]. constructor; [exact I|].
  constructor; [exact Hb|constructor].
Qed.

Lemma inlineFormat_clean s : Forall P s -> Forall P (inlineFormat s).
Proof.
  intros H. unfold inlineFormat, replace_all.
  repeat (apply replace_from_clean;
          [reflexivity
          |apply template_clean; apply units_clean; reflexivity
          |]).
  assumption.
Qed.

Lemma li_clean s : Forall P s -> Forall P (li s).
Proof.
  intros H. unfold li. repeat (apply Forall_app; split);
    try assumption; apply units_clean; reflexivity.
Qed.

Lemma paragraph_clean s : Forall P s -> Forall P (paragraph s).
Proof.
  intros H. unfold paragraph. repeat (apply Forall_app; split);
    try assumption; apply units_clean; reflexivity.
Qed.

Lemma heading_clean lvl s :
  (1 <= lvl <= 6)%nat -> Forall P s -> Forall P (heading lvl s).
Proof.
  intros Hl H. pose proof (level_clean lvl Hl) as Hn. unfold heading.
  repeat (apply Forall_app; split);
    try assumption; apply units_clean; reflexivity.
Qed.

Lemma concat_clean (l : list jsstring) : Forall (Forall P) l -> Forall P (concat l).
Proof.
  induction 1; simpl; [constructor|]. apply Forall_app. split; assumption.
Qed.

Lemma list_block_clean t items :
  Forall (Forall P) items -> Forall P (list_block t items).
Proof.
  intros H. unfold list_block, join.
  assert (Ht : Forall P (list_type_string t))
    by (destruct t as [[|]|]; apply units_clean; reflexivity).
  repeat (apply Forall_app; split);
    try assumption; try (apply concat_clean; assumption);
    apply units_clean; reflexivity.
Qed.

Lemma ol_items_clean content :
  Forall P content -> Forall (Forall P) (ol_items content).
Proof.
  intros H. unfold ol_items.
  pose proof (regex_split_clean P false INLINE_OL_SPLIT content eq_refl H) as Hs.
  destruct (1 <? _)%nat.
  - apply every_other_clean in Hs.
    induction Hs as [|p ps Hp Hps IH]; [constructor|].
    cbn [flat_map]. apply Forall_app. split; [|exact IH].
    pose proof (trim_clean P p Hp) as Ht.
    destruct (trim p); [constructor|].
    constructor; [|constructor]. apply li_clean, inlineFormat_clean. assumption.
  - constructor; [|constructor]. apply li_clean, inlineFormat_clean. assumption.
Qed.

Lemma flushList_clean s : conv_clean P s -> conv_clean P (flushList s).
Proof.
  intros [Ho Hi]. unfold flushList.
  destruct (listItems s) as [|x items] eqn:E; [split; [assumption|rewrite E; assumption]|].
  split; cbn [out listItems]; [|constructor].
  apply Forall_app. split; [assumption|]. constructor; [|constructor].
  apply list_block_clean. assumption.
Qed.

Lemma push_out_clean s b :
  conv_clean P s -> Forall P b -> conv_clean P (push_out s b).
Proof.
  intros [Ho Hi] Hb. split; cbn [push_out out listItems]; [|assumption].
  apply Forall_app. split; [assumption|]. constructor; [assumption|constructor].
Qed.

Lemma step_clean s l :
  conv_clean P s -> Forall P l -> conv_clean P (step s l).
Proof.
  intros Hs Hl. unfold step.
  destruct (regex_exec false UL_RE l) as [m|] eqn:Eu.
  { assert (Hs' : conv_clean P
                    (match listType s with Some ol => flushList s | _ => s end))
      by (destruct (listType s) as [[|]|]; try assumption;
          apply flushList_clean; assumption).
    destruct Hs' as [Ho Hi]. split; cbn [out listItems]; [assumption|].
    apply Forall_app. split; [assumption|]. constructor; [|constructor].
    apply li_clean, inlineFormat_clean.
    apply (exec_clean P false UL_RE l m 1 eq_refl Eu Hl). }
  destruct (regex_exec false OL_RE l) as [m|] eqn:Eo.
  { assert (Hs' : conv_clean P
                    (match listType s with Some ul => flushList s | _ => s end))
      by (destruct (listType s) as [[|]|]; try assumption;
          apply flushList_clean; assumption).
    destruct Hs' as [Ho Hi]. split; cbn [out listItems]; [assumption|].
    apply Forall_app. split; [assumption|]. apply ol_items_clean.
    apply (exec_clean P false OL_RE l m 1 eq_refl Eo Hl). }
  destruct (trim l).
  - destruct (listType s); [assumption|].
    apply push_out_clean; [apply flushList_clean; assumption|].
    apply units_clean. reflexivity.
  - destruct (regex_exec false H_RE l) as [m|] eqn:Eh;
      (apply push_out_clean; [apply flushList_clean; assumption|]).
    + apply heading_clean; [apply (h_exec_level l m Eh)|].
      apply inlineFormat_clean.
      apply (exec_clean P false H_RE l m 2 eq_refl Eh Hl).
    + apply paragraph_clean, inlineFormat_clean. assumption.
Qed.

Lemma fold_step_clean lines : forall s,
  conv_clean P s -> Forall (Forall P) lines ->
  conv_clean P (fold_left step lines s).
Proof.
  induction lines as [|l lines IH]; intros s Hs Hl; simpl; [assumption|].
  inversion Hl; subst. apply IH; [apply step_clean|]; assumption.
Qed.

End Converter.

Lemma split_on_clean (Q : cu -> Prop) sep s :
  Forall Q s -> Forall (Forall (fun c => c <> sep /\ Q c)) (split_on sep s).
Proof.
  induction s as [|c s IH]; intros H; simpl.
  - constructor; constructor.
  - inversion H; subst. specialize (IH H3).
    destruct (c =? sep) eqn:E.
    + constructor; [constructor|assumption].
    + apply N.eqb_neq in E. destruct (split_on sep s) as [|l ls].
      * constructor; [|constructor]. constructor; [split; assumption|constructor].
      * inversion IH; subst. constructor; [|assumption].
        constructor; [split; assumption|assumption].
Qed.

(** * Further properties of the formatter *)

(** X1. The detector answers [true] exactly for the texts that hold a tag
    boundary: [<] or [</], one of the structural tag names in any letter
    case, and then whitespace, [/] or [>]. *)
Theorem html_detected_iff t :
  regex_test true HTML_PATTERN t = true <-> tag_boundary t.
Proof.
  split.
  - apply html_detected_boundary.
  - intros (pre & slash & name & nm & c & post & -> & Hin & Hci & Hsl & Hc).
    apply (html_boundary_detected pre slash name nm c post); assumption.
Qed.

(** X2. The rendered text is empty for an absent argument and for the empty
    string, and for nothing else. *)
Theorem render_empty_iff text :
  renderMessageContent text = [] <-> falsy text = true.
Proof.
  split.
  - destruct text as [| |[|c t]]; try reflexivity.
    unfold renderMessageContent, render_with. cbn [falsy].
    destruct (regex_test true HTML_PATTERN (c :: t)); [discriminate|].
    intros H. destruct (markdown_detected (c :: t)) as [Hne _]. congruence.
  - destruct text as [| |[|c t]]; try reflexivity. discriminate.
Qed.

(** X3. A text that is not empty and holds no [<] is no HTML for the
    detector: it is given to the converter. *)
Theorem render_converts_without_angle t :
  t <> [] -> forallb (fun c => negb (c =? 60)) t = true ->
  renderMessageContent (JStr t) = markdownToHtml t.
Proof.
  intros Hne Hno. unfold renderMessageContent, render_with.
  destruct t as [|c0 t0]; [congruence|]. cbn [falsy].
  destruct (regex_test true HTML_PATTERN (c0 :: t0)) eqn:E; [|reflexivity].
  exfalso. apply html_detected_boundary in E.
  destruct E as (pre & slash & name & nm & c & post & E & _).
  rewrite E in Hno. apply forallb_elem in Hno. discriminate.
Qed.

Lemma render_converts_without_angle_witness :
  renderMessageContent (JStr (str "a > b")) = markdownToHtml (str "a > b").
Proof.
  apply (render_converts_without_angle (str "a > b")).
  - discriminate.
  - reflexivity.
Defined.

(** X4. Inline formatting leaves a string with at most one asterisk and at
    most one backtick as it is: nothing is escaped and nothing is added. *)
Theorem inline_format_plain_text s :
  (stars s <= 1)%nat -> (ticks s <= 1)%nat -> inlineFormat s = s.
Proof. apply inlineFormat_plain. Qed.

Lemma inline_format_plain_text_witness :
  inlineFormat (str "5 * <b> & `c") = str "5 * <b> & `c".
Proof.
  apply (inline_format_plain_text (str "5 * <b> & `c")); vm_compute; lia.
Defined.

(** X5. One span in a string that has no other asterisk and no other
    backtick: [**x**] becomes [<strong>x</strong>], [*x*] becomes
    [<em>x</em>] and [`x`] becomes [<code>x</code>], with the text around
    the span and inside it unchanged. *)
Theorem lone_span_formatted pre x post :
  x <> [] ->
  stars (pre ++ x ++ post) = 0%nat -> ticks (pre ++ x ++ post) = 0%nat ->
  inlineFormat (pre ++ str "**" ++ x ++ str "**" ++ post)
    = pre ++ str "<strong>" ++ x ++ str "</strong>" ++ post /\
  inlineFormat (pre ++ str "*" ++ x ++ str "*" ++ post)
    = pre ++ str "<em>" ++ x ++ str "</em>" ++ post /\
  inlineFormat (pre ++ str "`" ++ x ++ str "`" ++ post)
    = pre ++ str "<code>" ++ x ++ str "</code>" ++ post.
Proof.
  intros Hne Hs Ht. split; [|split].
  - apply inlineFormat_bold; assumption.
  - apply inlineFormat_italic; assumption.
  - apply inlineFormat_code; assumption.
Qed.

Lemma lone_span_formatted_witness :
  inlineFormat (str "a **b c** d") = str "a <strong>b c</strong> d".
Proof.
  apply (proj1 (lone_span_formatted (str "a ") (str "b c") (str " d")
                  ltac:(discriminate) eq_refl eq_refl)).
Defined.

(** X6. A text made of lines of prose (no digit; at most one asterisk and
    one backtick a line; no list marker after the indentation and no hash
    in front) becomes one paragraph a line, holding the line as it is, and
    one [<br>] for each line that is empty or all whitespace. *)
Theorem prose_lines_paragraphs lines :
  lines <> [] -> forallb prose_line lines = true ->
  markdownToHtml (join_with [LF] lines) = concat (map prose_block lines).
Proof.
  intros Hne H. unfold markdownToHtml, join.
  rewrite (blocks_prose lines Hne H). reflexivity.
Qed.

Lemma prose_lines_paragraphs_witness :
  markdownToHtml (str "Hello <there>" ++ LF :: LF :: str "Bye & thanks.")
  = str "<p>Hello <there></p><br><p>Bye & thanks.</p>".
Proof.
  apply (prose_lines_paragraphs [str "Hello <there>"; []; str "Bye & thanks."]).
  - discriminate.
  - reflexivity.
Defined.

(** X7. A line made of indentation (blanks and tabs), one of [-], [*], [+],
    whitespace and then a character that is no whitespace is an unordered
    item: a pending ordered list is closed first, and the item holds the
    line from that character up to its first line terminator, formatted
    inline. *)
Theorem unordered_line_item s ind m ws c tl :
  forallb is_blank_tab ind = true -> is_ul_marker m = true ->
  ws <> [] -> forallb is_space ws = true -> is_space c = false ->
  step s (ind ++ m :: ws ++ c :: tl) =
  Conv (out (enter_list ul s)) (Some ul)
       (listItems (enter_list ul s)
          ++ [li (inlineFormat (take_while is_dot (c :: tl)))]).
Proof.
  intros Hind Hm Hne Hws Hc.
  destruct (ul_exec_shape ind m ws c tl Hind Hm Hne Hws Hc) as (y & E & G).
  unfold step, enter_list. rewrite E, G. reflexivity.
Qed.

Lemma unordered_line_item_witness :
  step conv_init (str "  + tea" ++ [13]) = Conv [] (Some ul) [str "<li>tea</li>"].
Proof.
  apply (unordered_line_item conv_init (str "  ") 43 (str " ") 116 (str "ea" ++ [13]));
    try reflexivity; discriminate.
Defined.

(** X8. A line made of indentation, a numeral, [.] or [)], whitespace and
    then a character that is no whitespace is an ordered line: a pending
    unordered list is closed first, and the items are those of the content
    from that character up to its first line terminator.  Neither the
    numeral nor the delimiter nor the indentation has a part in the
    result. *)
Theorem ordered_line_content s ind ds d ws c tl :
  forallb is_blank_tab ind = true ->
  ds <> [] -> forallb is_digit ds = true -> is_ol_delim d = true ->
  ws <> [] -> forallb is_space ws = true -> is_space c = false ->
  step s (ind ++ ds ++ d :: ws ++ c :: tl) =
  Conv (out (enter_list ol s)) (Some ol)
       (listItems (enter_list ol s) ++ ol_items (take_while is_dot (c :: tl))).
Proof.
  intros Hind Hne Hds Hd Hnw Hws Hc.
  destruct (ol_exec_shape ind ds d ws c tl Hind Hne Hds Hd Hnw Hws Hc) as (y & E & G).
  unfold step, enter_list. rewrite ul_exec_none, E, G; [reflexivity|].
  intros c' t' E'.
  destruct ds as [|d0 ds]; [congruence|].
  simpl in Hds. apply andb_true_iff in Hds. destruct Hds as [Hd0 _].
  rewrite drop_while_app in E' by assumption.
  cbn [app] in E'. rewrite drop_while_stop in E' by (apply digit_not_blank_tab; assumption).
  inversion E'; subst. apply digit_not_marker. assumption.
Qed.

Lemma ordered_line_content_witness :
  step conv_init (str " 42) tea") = Conv [] (Some ol) [str "<li>tea</li>"].
Proof.
  apply (ordered_line_content conv_init (str " ") (str "42") 41 (str " ") 116
           (str "ea"));
    try reflexivity; discriminate.
Defined.

(** X9. One to six hashes, whitespace and then a character that is no
    whitespace make a heading of the level of the number of hashes, after a
    pending list is closed; the heading holds the line from that character
    up to its first line terminator. *)
Theorem heading_line s k ws c tl :
  (1 <= k <= 6)%nat ->
  ws <> [] -> forallb is_space ws = true -> is_space c = false ->
  step s (repeat 35 k ++ ws ++ c :: tl) =
  push_out (flushList s)
           (heading k (inlineFormat (take_while is_dot (c :: tl)))).
Proof.
  intros Hk Hne Hws Hc. rewrite hash_line_plain by lia. f_equal.
  unfold plain_block. rewrite h_exec_hashes.
  - replace ((1 <=? k) && (k <=? 6))%nat with true
      by (symmetry; apply andb_true_iff; split; apply Nat.leb_le; lia).
    rewrite (space_content_tail 2 _ k ws c tl Hne Hws Hc).
    unfold group. cbn [captures lookup Nat.eqb].
    rewrite firstn_repeat_app, repeat_length. reflexivity.
  - intros c' t' E. destruct ws as [|w ws]; [congruence|].
    simpl in Hws. apply andb_true_iff in Hws. destruct Hws as [Hw _].
    inversion E; subst. apply space_not_hash. assumption.
Qed.

Lemma heading_line_witness :
  step conv_init (str "###  Plan") = Conv [str "<h3>Plan</h3>"] None [].
Proof.
  apply (heading_line conv_init 3 (str "  ") 80 (str "lan"));
    try reflexivity; try discriminate; lia.
Defined.

(** X10. A line that starts with hashes is no heading when there are seven
    of them or more, or when no whitespace follows them: it is a paragraph
    that holds the hashes. *)
Theorem hash_line_paragraph s k t :
  (1 <= k)%nat ->
  (forall c t', t = c :: t' -> is_char 35 c = false) ->
  (7 <= k)%nat \/ (forall c t', t = c :: t' -> is_space c = false) ->
  step s (repeat 35 k ++ t) =
  push_out (flushList s) (paragraph (inlineFormat (repeat 35 k ++ t))).
Proof.
  intros Hk Ht Hor. rewrite hash_line_plain by lia. f_equal.
  unfold plain_block. rewrite h_exec_hashes by assumption.
  destruct Hor as [H7|Hsp].
  - replace ((1 <=? k) && (k <=? 6))%nat with false; [reflexivity|].
    symmetry. apply andb_false_iff. right. apply Nat.leb_gt. lia.
  - destruct ((1 <=? k) && (k <=? 6))%nat; [|reflexivity].
    destruct t as [|c t']; [reflexivity|].
    cbn [rep]. rewrite (Hsp c t' eq_refl). reflexivity.
Qed.

Lemma hash_line_paragraph_witness :
  step conv_init (str "####### x") = Conv [str "<p>####### x</p>"] None [].
Proof.
  apply (hash_line_paragraph conv_init 7 (str " x")).
  - lia.
  - intros c t' E. inversion E. reflexivity.
  - left. lia.
Defined.

(** X11. No line is an unordered item and an ordered line at once, so the
    order in which the loop tries the two patterns decides nothing. *)
Theorem list_patterns_exclusive line :
  regex_test false UL_RE line && regex_test false OL_RE line = false.
Proof.
  unfold regex_test.
  destruct (regex_exec false UL_RE line) as [m|] eqn:Eu; [|reflexivity].
  rewrite ul_excludes_ol by congruence. reflexivity.
Qed.

(** X12. The blocks pushed to [out] stay: after more lines, [out] is what it
    was, followed by the blocks of the further lines. *)
Theorem out_append_only lines more :
  exists bs, out (run (lines ++ more)) = out (run lines) ++ bs.
Proof.
  unfold run. rewrite fold_left_app.
  destruct (fold_step_out more (fold_left step lines conv_init)) as (bs & E & _).
  exists bs. exact E.
Qed.

(** X13. The converter gives one block at least and never more blocks than
    the normalized text has lines. *)
Theorem blocks_at_most_lines text :
  (1 <= length (blocks text) <= length (split_on LF (prepass text)))%nat.
Proof.
  split.
  - destruct (blocks_detected text) as [Hne _].
    destruct (blocks text); [congruence|simpl; lia].
  - unfold blocks, run.
    destruct (fold_step_out (split_on LF (prepass text)) conv_init)
      as (bs & E & L).
    destruct (flushList_out (fold_left step (split_on LF (prepass text)) conv_init))
      as (bs' & E' & L' & _).
    change (pending conv_init) with 0%nat in L.
    change (out conv_init) with (@nil jsstring) in E.
    rewrite E', E, !length_app. cbn [length app Nat.add].
    unfold jsstring, cu in *. lia.
Qed.

(** X14. An unordered item followed by lines that are unordered items or
    blank gives one [<ul>] block, with one item for each line that is an
    item, whatever the markers and the indentation of the lines. *)
Theorem bullet_run_one_list l lines :
  regex_test false UL_RE l = true ->
  forallb (fun l => regex_test false UL_RE l || is_blank l) lines = true ->
  exists items,
    flushList (run (l :: lines)) = Conv [list_block (Some ul) items] None [] /\
    length items = S (length (filter (regex_test false UL_RE) lines)).
Proof.
  intros Hl Hls. destruct (test_exec _ _ _ Hl) as (m & E).
  unfold run. cbn [fold_left].
  assert (Es : step conv_init l
               = Conv [] (Some ul) [li (inlineFormat (group 1 m))])
    by (unfold step; rewrite E; reflexivity).
  rewrite Es.
  destruct (fold_ul_run lines (Conv [] (Some ul) [li (inlineFormat (group 1 m))])
              eq_refl ltac:(discriminate) Hls)
    as (items & -> & L).
  exists (li (inlineFormat (group 1 m)) :: items). split; [reflexivity|].
  simpl. congruence.
Qed.

Lemma bullet_run_one_list_witness :
  exists items,
    flushList (run [str "- a"; str "  "; str "* b"])
      = Conv [list_block (Some ul) items] None [] /\
    length items = 2%nat.
Proof.
  apply (bullet_run_one_list (str "- a") [str "  "; str "* b"]); reflexivity.
Defined.

(** X15. An ordered line followed by lines that are ordered lines or blank
    gives one [<ol>] block, with one item at least for each ordered line. *)
Theorem numbered_run_one_list l lines :
  regex_test false OL_RE l = true ->
  forallb (fun l => regex_test false OL_RE l || is_blank l) lines = true ->
  exists items,
    flushList (run (l :: lines)) = Conv [list_block (Some ol) items] None [] /\
    (S (length (filter (regex_test false OL_RE) lines)) <= length items)%nat.
Proof.
  intros Hl Hls. destruct (test_exec _ _ _ Hl) as (m & E).
  assert (Eu : regex_exec false UL_RE l = None).
  { destruct (regex_exec false UL_RE l) eqn:Eu; [|reflexivity].
    rewrite ul_excludes_ol in E; [discriminate|congruence]. }
  destruct (ol_exec_content l m E) as (c0 & tl & G & Hc).
  pose proof (ol_items_nonempty c0 tl Hc) as Hne. rewrite <- G in Hne.
  unfold run. cbn [fold_left].
  assert (Es : step conv_init l = Conv [] (Some ol) (ol_items (group 1 m)))
    by (unfold step; rewrite Eu, E; reflexivity).
  rewrite Es.
  destruct (fold_ol_run lines (Conv [] (Some ol) (ol_items (group 1 m)))
              eq_refl Hne Hls) as (items & -> & L).
  exists (ol_items (group 1 m) ++ items). split.
  - cbn [listItems]. unfold flushList. cbn [listItems out listType].
    destruct (ol_items (group 1 m)) eqn:Ei; [congruence|]. reflexivity.
  - rewrite length_app. destruct (ol_items (group 1 m)); [congruence|]. simpl. lia.
Qed.

Lemma numbered_run_one_list_witness :
  exists items,
    flushList (run [str "1. a"; []; str "7) b 8) c"])
      = Conv [list_block (Some ol) items] None [] /\
    (2 <= length items)%nat.
Proof.
  apply (numbered_run_one_list (str "1. a") [[]; str "7) b 8) c"]); reflexivity.
Defined.

(** X24. Every block of the converter is a paragraph, a line break, a
    heading of a level from one to six, or a list of one kind that has an
    item at least and holds [<li>] items only. *)
Theorem block_shapes text : Forall block_shape (blocks text).
Proof.
  unfold blocks.
  assert (H0 : shaped conv_init) by (split; constructor).
  assert (Hok0 : accumulator_ok conv_init) by (unfold accumulator_ok; simpl; tauto).
  apply (flushList_shaped (run (split_on LF (prepass text)))).
  - apply run_ok.
  - apply fold_step_shaped; assumption.
Qed.

(** X29. The content of an ordered line that holds no inline marker gives
    one item: the content as it is, not trimmed, formatted inline. *)
Theorem ordered_line_single_item content :
  marker_free content [] = true ->
  ol_items content = [li (inlineFormat content)].
Proof.
  intros H. unfold ol_items.
  assert (Hs : marker_split content [content])
    by (apply MS_last, marker_free_last; assumption).
  destruct (regex_split_spec content [content] Hs) as [_ E].
  rewrite E. reflexivity.
Qed.

Lemma ordered_line_single_item_witness :
  ol_items (str "tea, 2 cups ") = [str "<li>tea, 2 cups </li>"].
Proof.
  apply (ordered_line_single_item (str "tea, 2 cups ")).
  vm_compute. reflexivity.
Defined.

(** X30. The converter writes no line feed, and every code unit that it
    writes is one of the text or one of [< > /], the letters of its tags,
    the digits [1] to [6] and the blank; each of these it does write for a
    text that holds none of them. *)
Theorem output_units :
  (forall text, Forall (from_text text) (markdownToHtml text)) /\
  Forall (fun u => In u (markdownToHtml ALL_TAGS_SAMPLE) /\
                   ~ In u ALL_TAGS_SAMPLE)
         TAG_UNITS.
Proof.
  split.
  2:{ assert (H : forallb (fun u =>
                    existsb (N.eqb u) (markdownToHtml ALL_TAGS_SAMPLE)
                    && negb (existsb (N.eqb u) ALL_TAGS_SAMPLE)) TAG_UNITS = true)
        by (vm_compute; reflexivity).
      apply Forall_forall. intros u Hu.
      apply (proj1 (forallb_forall _ TAG_UNITS) H) in Hu.
      apply andb_true_iff in Hu. destruct Hu as [H1 H2]. split.
      - apply existsb_exists in H1. destruct H1 as (c & Hc & E).
        apply N.eqb_eq in E. subst. assumption.
      - intros Hin. apply negb_true_iff in H2.
        assert (existsb (N.eqb u) ALL_TAGS_SAMPLE = true)
          by (apply existsb_exists; exists u; split;
              [assumption|apply N.eqb_refl]).
        congruence. }
  intros text.
  assert (Htags : forall c, In c TAG_UNITS -> from_text text c).
  { intros c Hc. split; [|right; assumption].
    intros ->. vm_compute in Hc. intuition discriminate. }
  set (Q := fun c => In c text \/ In c TAG_UNITS \/ c = LF).
  assert (Htext : Forall Q text)
    by (apply Forall_forall; intros c Hc; left; assumption).
  assert (Hpre : Forall Q (prepass text)).
  { destruct (forallb (fun c => negb (c =? 46)) text) eqn:Hp.
    { rewrite (prepass_no_period text Hp). exact Htext. }
    assert (H46 : In 46 text).
    { clear -Hp. induction text as [|c t IH]; simpl in Hp; [discriminate|].
      destruct (c =? 46) eqn:E.
      - apply N.eqb_eq in E. left. assumption.
      - right. apply IH. exact Hp. }
    unfold prepass, replace_all. apply replace_from_clean.
    - reflexivity.
    - unfold BREAK_REPL. apply template_clean.
      + apply Forall_forall. intros c Hc. unfold Q.
        simpl in Hc. destruct Hc as [<-|[<-|[]]];
          [left; exact H46|right; right; reflexivity].
      + apply Forall_forall. intros c Hc. unfold Q.
        simpl in Hc. destruct Hc as [<-|[<-|[]]];
          [left; exact H46|right; left; vm_compute; tauto].
    - exact Htext. }
  assert (Hlines : Forall (Forall (from_text text)) (split_on LF (prepass text))).
  { eapply Forall_impl; [|apply (split_on_clean Q LF _ Hpre)].
    intros l Hl. eapply Forall_impl; [|exact Hl].
    intros c [Hne [H|[H|H]]]; [split; auto|split; auto|contradiction]. }
  unfold markdownToHtml, join, blocks.
  apply concat_clean.
  apply (flushList_clean (from_text text) Htags).
  apply (fold_step_clean (from_text text) Htags); [split; constructor|assumption].
Qed.

(** * The pager of the home component *)

Lemma ceil_div_lt n a : (n < Home.ceil_div a 5 <-> n * 5 < a)%Z.
Proof.
  unfold Home.ceil_div.
  pose proof (Z.div_mod (- a) 5 ltac:(lia)) as E.
  pose proof (Z.mod_pos_bound (- a) 5 ltac:(lia)) as B.
  lia.
Qed.

Lemma hasNextPage_lt p :
  Home.hasNextPage p = true <->
  (Home.currentPage p * 5 < Home.totalCount p)%Z.
Proof.
  unfold Home.hasNextPage, Home.totalPages, Home.PAGE_SIZE.
  rewrite Z.ltb_lt. apply ceil_div_lt.
Qed.

Lemma remove_nth_Forall (P : Z -> Prop) l : forall k,
  Forall P l -> Forall P (Home.remove_nth k l).
Proof.
  induction l as [|x l IH]; intros k H; [destruct k; constructor|].
  inversion H; subst. destruct k; simpl; [assumption|].
  constructor; auto.
Qed.

Lemma request_ok n h : (1 <= n)%Z -> pager_ok h -> pager_ok (Home.request n h).
Proof.
  intros Hn [H1 H2]. split; [exact H1|]. unfold Home.request. cbn [Home.inflight].
  apply Forall_app. split; [assumption|]. constructor; [assumption|constructor].
Qed.

Lemma loadPage_page n o p :
  Home.currentPage (Home.loadPage n o p) = n \/
  Home.currentPage (Home.loadPage n o p) = Home.currentPage p.
Proof. destruct o as [[c|]| | |]; simpl; auto. Qed.

Lemma react_ok h e : pager_ok h -> pager_ok (Home.react h e).
Proof.
  intros Hok. pose proof Hok as [H1 H2]. destruct e as [| |k o]; simpl.
  - unfold Home.handlePrev, Home.hasPrevPage.
    destruct (1 <? _)%Z eqn:E; [|assumption].
    apply Z.ltb_lt in E. apply request_ok; [lia|assumption].
  - unfold Home.handleNext.
    destruct (Home.hasNextPage _); [|assumption].
    apply request_ok; [lia|assumption].
  - destruct (nth_error (Home.inflight h) k) as [n|] eqn:E; [|assumption].
    assert (Hn : (1 <= n)%Z).
    { apply nth_error_In in E. rewrite Forall_forall in H2. apply H2. assumption. }
    split; cbn [Home.page Home.inflight].
    + destruct (loadPage_page n o (Home.page h)) as [-> | ->]; assumption.
    + apply remove_nth_Forall. assumption.
Qed.

Lemma fold_react_ok es : forall h, pager_ok h -> pager_ok (fold_left Home.react es h).
Proof.
  induction es as [|e es IH]; intros h H; simpl; [assumption|].
  apply IH. apply react_ok. assumption.
Qed.

Lemma connected_ok : pager_ok Home.connectedCallback.
Proof. split; simpl; [lia|]. constructor; [lia|constructor]. Qed.

(** * Errors reduced to text *)

Lemma or_else_truthy a b : truthy b = true -> truthy (or_else a b) = true.
Proof. unfold or_else. destruct (truthy a) eqn:E; auto. Qed.

Lemma fallback_truthy a b : truthy (or_else a (or_else b UNKNOWN)) = true.
Proof. apply or_else_truthy, or_else_truthy. reflexivity. Qed.

Lemma home_elem_truthy e : truthy (Home.elem_message e) = true.
Proof. destruct e; try reflexivity. apply fallback_truthy. Qed.

Lemma agent_elem_truthy e : truthy (AgentGPT.elem_message e) = true.
Proof.
  destruct e as [|s|o]; try reflexivity. simpl.
  destruct (truthy (message o)) eqn:E; [assumption|apply fallback_truthy].
Qed.

Lemma join_with_nonempty sep x l :
  x <> [] -> join_with sep (x :: l) <> [].
Proof.
  intros Hx. simpl. destruct l; [assumption|].
  destruct x; [congruence|discriminate].
Qed.

Lemma joined_text (f : error_elem -> option jsstring) l :
  (forall e, truthy (f e) = true) ->
  truthy (Some (join_with (str ", ")
                  (map (fun e => to_text (f e)) (filter elem_truthy l))))
  = existsb elem_truthy l.
Proof.
  intros Hf. induction l as [|e l IH]; [reflexivity|].
  cbn [filter existsb]. destruct (elem_truthy e); [|exact IH].
  cbn [map orb].
  assert (Hne : to_text (f e) <> []).
  { specialize (Hf e). destruct (f e) as [[|c s]|]; simpl in *; congruence. }
  pose proof (join_with_nonempty (str ", ") _
                (map (fun e => to_text (f e)) (filter elem_truthy l)) Hne) as H.
  match goal with |- truthy (Some ?j) = true =>
    assert (Hj : j <> []) by exact H; destruct j; [congruence|reflexivity]
  end.
Qed.

Lemma home_object_text o :
  truthy (Home.reduceErrors (EObject o)) = negb (textless (EObject o)).
Proof.
  unfold Home.reduceErrors, textless, Home.page_errors_length,
    Home.first_page_error, body_message_of.
  destruct (body o) as [[bm [[|pe pes]|]]|]; cbn [body_message pageErrors length];
    try (destruct (truthy bm) eqn:E; [assumption|]);
    try (cbn [negb andb]; rewrite ?andb_false_r; cbn [negb]);
    try apply fallback_truthy.
  rewrite negb_involutive. reflexivity.
Qed.

Lemma agent_object_eq o :
  AgentGPT.reduceErrors (EObject o) = Home.reduceErrors (EObject o).
Proof.
  unfold AgentGPT.reduceErrors, Home.reduceErrors, Home.page_errors_length,
    Home.first_page_error, body_message_of.
  destruct (body o) as [[bm [[|pe pes]|]]|]; cbn [body_message pageErrors length];
    try reflexivity;
    destruct (truthy bm); reflexivity.
Qed.

(** * Keys of the overlay messages *)

Lemma uint_digits_all u : forallb is_digit (uint_digits u) = true.
Proof. induction u; simpl; auto. Qed.

Lemma uint_digits_inj u : forall v, uint_digits u = uint_digits v -> u = v.
Proof.
  induction u; intros v H; destruct v; simpl in H;
    try discriminate; try reflexivity;
    inversion H; f_equal; auto.
Qed.

Lemma number_to_string_inj n m :
  number_to_string n = number_to_string m -> n = m.
Proof.
  unfold number_to_string. intros H. apply uint_digits_inj in H.
  rewrite <- (DecimalNat.Unsigned.of_to n), <- (DecimalNat.Unsigned.of_to m), H.
  reflexivity.
Qed.

Lemma to_text_or_empty v : to_text (or_else v (Some [])) = to_text v.
Proof. destruct v as [[|c s]|]; reflexivity. Qed.

(** A string that does not end in a digit, followed by digits: the digits
    can be read back. *)
Lemma digit_suffix t1 d1 t2 d2 :
  (forall c r, rev t1 = c :: r -> is_digit c = false) ->
  (forall c r, rev t2 = c :: r -> is_digit c = false) ->
  forallb is_digit d1 = true -> forallb is_digit d2 = true ->
  t1 ++ d1 = t2 ++ d2 -> d1 = d2.
Proof.
  intros H1 H2 Hd1 Hd2 E. apply (f_equal (@rev cu)) in E.
  rewrite !rev_app_distr in E.
  rewrite <- forallb_rev in Hd1, Hd2.
  destruct (take_drop_exact is_digit (rev d1) (rev t1) Hd1 H1) as [E1 _].
  destruct (take_drop_exact is_digit (rev d2) (rev t2) Hd2 H2) as [E2 _].
  rewrite E, E2 in E1. apply (f_equal (@rev cu)) in E1.
  rewrite !rev_involutive in E1. congruence.
Qed.

Lemma stamp_ok_rev msg :
  stamp_ok msg = true ->
  forall c r, rev (to_text (msg_timestamp msg)) = c :: r -> is_digit c = false.
Proof.
  unfold stamp_ok. intros H c r E. rewrite E in H.
  apply negb_true_iff in H. exact H.
Qed.

Lemma keys_from up ft agent l : forall i x,
  In x (map Home.key (map_from (Home.overlay_message up ft agent) i l)) ->
  exists m j, In m l /\ (i <= j)%nat /\
              x = to_text (msg_timestamp m) ++ number_to_string j.
Proof.
  induction l as [|m l IH]; intros i x H; [destruct H|].
  cbn [map_from map] in H. destruct H as [<-|H].
  - exists m, i. split; [left; reflexivity|]. split; [lia|].
    unfold Home.overlay_message. cbn [Home.key]. rewrite to_text_or_empty. reflexivity.
  - destruct (IH (S i) x H) as (m' & j & Hin & Hj & ->).
    exists m', j. split; [right; assumption|]. split; [lia|reflexivity].
Qed.

Lemma keys_from_NoDup up ft agent l : forall i,
  forallb stamp_ok l = true ->
  NoDup (map Home.key (map_from (Home.overlay_message up ft agent) i l)).
Proof.
  induction l as [|m l IH]; intros i H; [constructor|].
  simpl in H. apply andb_true_iff in H. destruct H as [Hm Hl].
  cbn [map_from map]. constructor; [|apply IH; assumption].
  intros Hin. apply keys_from in Hin.
  destruct Hin as (m' & j & Hm' & Hj & E).
  unfold Home.overlay_message in E. cbn [Home.key] in E. rewrite to_text_or_empty in E.
  assert (Hok' : stamp_ok m' = true)
    by (apply (proj1 (forallb_forall stamp_ok l) Hl); assumption).
  apply digit_suffix in E;
    [|apply stamp_ok_rev; assumption|apply stamp_ok_rev; assumption
     |apply uint_digits_all|apply uint_digits_all].
  apply number_to_string_inj in E. lia.
Qed.

Lemma elem_message_agree e :
  match e with
  | ElObject o => truthy (message o) || negb (truthy (statusText o))
  | _ => true
  end = true ->
  AgentGPT.elem_message e = Home.elem_message e.
Proof.
  destruct e as [|s|o]; try reflexivity. simpl. unfold or_else.
  destruct (truthy (message o)); [reflexivity|].
  destruct (truthy (statusText o)); [discriminate|reflexivity].
Qed.

Lemma NoDup_two {A : Type} (l : list A) i j x :
  NoDup l -> i <> j -> nth_error l i = Some x -> nth_error l j = Some x -> False.
Proof.
  intros Hnd Hij Hi Hj. apply Hij.
  apply (proj1 (NoDup_nth_error l) Hnd).
  - apply nth_error_Some. congruence.
  - congruence.
Qed.

(** * Role labels *)

Lemma to_upper_idem c : to_upper (to_upper c) = to_upper c.
Proof.
  unfold to_upper.
  destruct ((97 <=? c) && (c <=? 122)) eqn:E; [|rewrite E; reflexivity].
  bool_hyp E.
  replace ((97 <=? c - 32) && (c - 32 <=? 122)) with false; [reflexivity|].
  symmetry. apply andb_false_iff. left. apply N.leb_gt. lia.
Qed.

Lemma map_to_upper_idem s : map to_upper (map to_upper s) = map to_upper s.
Proof.
  induction s as [|c s IH]; simpl; [reflexivity|].
  rewrite to_upper_idem, IH. reflexivity.
Qed.

Lemma home_role up msg :
  up [] = [] ->
  up (to_text (or_else (msg_role msg) (Some []))) = role_of up msg.
Proof.
  intros H0. rewrite to_text_or_empty. unfold role_of.
  destruct (msg_role msg) as [[|c s]|]; simpl; auto.
Qed.

Lemma role_of_upper up msg :
  up [] = [] -> (forall s, up (up s) = up s) ->
  up (role_of up msg) = role_of up msg.
Proof.
  intros H0 Hi. unfold role_of. destruct (truthy (msg_role msg)); auto.
Qed.

(** * Sessions grouped by day *)

Lemma deal_perm isToday isYesterday formatDate sel g s :
  Permutation
    (let g' := AgentGPT.deal isToday isYesterday formatDate sel g s in
     AgentGPT.today g' ++ AgentGPT.yesterday g' ++ AgentGPT.previous g')
    ((AgentGPT.today g ++ AgentGPT.yesterday g ++ AgentGPT.previous g)
       ++ [AgentGPT.sessionCopy formatDate sel s]).
Proof.
  unfold AgentGPT.deal.
  set (c := AgentGPT.sessionCopy formatDate sel s).
  set (t := AgentGPT.today g). set (y := AgentGPT.yesterday g).
  set (p := AgentGPT.previous g).
  destruct (isToday _); [|destruct (isYesterday _)];
    cbn [AgentGPT.today AgentGPT.yesterday AgentGPT.previous].
  - rewrite <- !app_assoc. apply Permutation_app_head.
    rewrite (app_assoc y p [c]). apply (Permutation_cons_append (y ++ p) c).
  - rewrite <- !app_assoc. do 2 apply Permutation_app_head.
    apply Permutation_app_comm.
  - rewrite <- !app_assoc. apply Permutation_refl.
Qed.

Lemma fold_deal_perm isToday isYesterday formatDate sel ss : forall g,
  Permutation
    (let g' := fold_left (AgentGPT.deal isToday isYesterday formatDate sel) ss g in
     AgentGPT.today g' ++ AgentGPT.yesterday g' ++ AgentGPT.previous g')
    ((AgentGPT.today g ++ AgentGPT.yesterday g ++ AgentGPT.previous g)
       ++ map (AgentGPT.sessionCopy formatDate sel) ss).
Proof.
  induction ss as [|s ss IH]; intros g.
  - simpl. rewrite app_nil_r. apply Permutation_refl.
  - cbn [fold_left map]. eapply Permutation_trans; [apply IH|].
    cbv zeta.
    eapply Permutation_trans;
      [apply Permutation_app_tail, (deal_perm isToday isYesterday formatDate sel g s)|].
    rewrite <- app_assoc. apply Permutation_refl.
Qed.

Lemma flat_map_nonempty (gl : list AgentGPT.group) :
  flat_map AgentGPT.sessions
    (filter (fun gr => negb (Nat.eqb (length (AgentGPT.sessions gr)) 0)) gl)
  = flat_map AgentGPT.sessions gl.
Proof.
  induction gl as [|g gl IH]; [reflexivity|].
  cbn [filter flat_map]. destruct (AgentGPT.sessions g) eqn:E; simpl.
  - exact IH.
  - rewrite E, IH. reflexivity.
Qed.

Lemma filter_nonempty (gl : list AgentGPT.group) :
  Forall (fun g => AgentGPT.sessions g <> [])
    (filter (fun gr => negb (Nat.eqb (length (AgentGPT.sessions gr)) 0)) gl).
Proof.
  apply Forall_forall. intros g Hg. apply filter_In in Hg. destruct Hg as [_ H].
  intros E. rewrite E in H. discriminate.
Qed.

(** * Titles and their cache *)

Lemma str_eqb_eq a b : str_eqb a b = true <-> a = b.
Proof.
  unfold str_eqb. destruct (list_eq_dec N.eq_dec a b); split; congruence.
Qed.

Lemma cache_get_In c id v :
  Home.cache_get c id = Some v -> exists k, In (k, v) c.
Proof.
  induction c as [|[k w] c IH]; simpl; [discriminate|].
  destruct (str_eqb k id).
  - intros E. inversion E; subst. exists k. left. reflexivity.
  - intros E. destruct (IH E) as (k' & H). exists k'. right. assumption.
Qed.

Lemma title_settled_ok id a st : cache_ok st -> cache_ok (Home.title_settled id a st).
Proof.
  intros H. unfold Home.title_settled. destruct a as [t|].
  - destruct (truthy t && negb (str_eqb (to_text t) Home.LOADING)) eqn:E; [|assumption].
    apply andb_true_iff in E. destruct E as [Et El].
    unfold cache_ok, Home.cache_set. cbn [Home.titleCache].
    constructor; [|assumption]. cbn [snd]. split.
    + destruct t as [[|c s]|]; simpl in *; congruence.
    + apply negb_true_iff in El. intros E.
      apply str_eqb_eq in E. congruence.
  - unfold cache_ok, Home.cache_set. cbn [Home.titleCache].
    constructor; [|assumption]. split; discriminate.
Qed.

Lemma title_react_ok r e :
  cache_ok (Home.current r) -> cache_ok (Home.current (Home.title_react r e)).
Proof.
  intros H. destruct e as [l| |[l|]|k a]; cbn [Home.title_react]; try exact H.
  destruct (nth_error (Home.loops r) k) as [[|s todo]|]; try exact H.
  cbn [Home.current]. apply title_settled_ok. assumption.
Qed.

Lemma fold_title_react_ok es : forall r,
  cache_ok (Home.current r) ->
  cache_ok (Home.current (fold_left Home.title_react es r)).
Proof.
  induction es as [|e es IH]; intros r H; simpl; [assumption|].
  apply IH, title_react_ok. assumption.
Qed.

(** * Timestamps *)

Lemma trim_fixed c s :
  is_space c = false ->
  (forall d r, rev (c :: s) = d :: r -> is_space d = false) ->
  trim (c :: s) = c :: s.
Proof.
  intros Hc Hl. unfold trim. rewrite drop_while_stop by assumption.
  destruct (rev (c :: s)) as [|d r] eqn:E.
  - apply (f_equal (@rev cu)) in E. rewrite rev_involutive in E. discriminate.
  - rewrite drop_while_stop by (apply (Hl d r eq_refl)).
    rewrite <- E. apply rev_involutive.
Qed.

Lemma has_app c a b : Home.has c (a ++ b) = Home.has c a || Home.has c b.
Proof. unfold Home.has. apply existsb_app. Qed.

Lemma replace_first_skip a b s t :
  Home.has a s = false ->
  Home.replace_first a b (s ++ a :: t) = s ++ b :: t.
Proof.
  induction s as [|c s IH]; simpl.
  - rewrite N.eqb_refl. reflexivity.
  - intros H. apply orb_false_iff in H. destruct H as [Hc Hs].
    rewrite N.eqb_sym, Hc, (IH Hs). reflexivity.
Qed.

Lemma replace_first_length a b s :
  length (Home.replace_first a b s) = length s.
Proof.
  induction s as [|c s IH]; simpl; [reflexivity|].
  destruct (c =? a); simpl; congruence.
Qed.

Lemma replace_first_has a b s :
  Home.has a s = true -> Home.has b (Home.replace_first a b s) = true.
Proof.
  induction s as [|c s IH]; simpl; [discriminate|].
  destruct (c =? a) eqn:E; simpl.
  - intros _. rewrite N.eqb_refl. reflexivity.
  - rewrite N.eqb_sym, E. simpl. intros H. rewrite (IH H). apply orb_true_r.
Qed.

Lemma normalized_has_T s :
  Home.has 32 (Home.normalized s) = true -> Home.has 84 (Home.normalized s) = true.
Proof.
  unfold Home.normalized.
  destruct (Home.has 32 s) eqn:Hs; [|simpl; congruence].
  destruct (Home.has 84 s) eqn:Ht; simpl; [auto|].
  intros _. apply replace_first_has. assumption.
Qed.

(** * Further properties of the session components *)

(** X16. [Next] is enabled exactly when the range shown ends before the
    total, which is exactly when the next page has a first row. *)
Theorem next_page_iff p :
  (Home.hasNextPage p = true <-> (Home.page_end p < Home.totalCount p)%Z) /\
  (Home.hasNextPage p = true <->
   (Home.page_start (Home.Pager (Home.currentPage p + 1) (Home.totalCount p))
    <= Home.totalCount p)%Z).
Proof.
  rewrite hasNextPage_lt.
  unfold Home.page_end, Home.page_start, Home.PAGE_SIZE.
  cbn [Home.currentPage Home.totalCount]. lia.
Qed.

(** X17. On a page that has a first row, the range of [pageInfo] starts at
    one or later, ends at the total or before it, spans five rows at most,
    and ends at the total when [Next] is disabled. *)
Theorem page_window p :
  (1 <= Home.currentPage p)%Z ->
  (Home.page_start p <= Home.totalCount p)%Z ->
  (1 <= Home.page_start p <= Home.page_end p)%Z /\
  (Home.page_end p <= Home.totalCount p)%Z /\
  (Home.page_end p - Home.page_start p < Home.PAGE_SIZE)%Z /\
  (Home.nextButtonDisabled p = true -> Home.page_end p = Home.totalCount p).
Proof.
  intros H1 H2. unfold Home.nextButtonDisabled.
  pose proof (hasNextPage_lt p) as Hn.
  destruct (Home.hasNextPage p);
    unfold Home.page_end, Home.page_start, Home.PAGE_SIZE in *; cbn [negb].
  - repeat split; try lia; try discriminate.
  - assert (~ (Home.currentPage p * 5 < Home.totalCount p)%Z)
      by (intros H; apply Hn in H; discriminate).
    repeat split; lia.
Qed.

Lemma page_window_witness :
  let p := Home.Pager 2 7 in
  (1 <= Home.page_start p <= Home.page_end p)%Z /\
  (Home.page_end p <= Home.totalCount p)%Z /\
  (Home.page_end p - Home.page_start p < Home.PAGE_SIZE)%Z /\
  (Home.nextButtonDisabled p = true -> Home.page_end p = Home.totalCount p).
Proof.
  apply (page_window (Home.Pager 2 7));
    unfold Home.page_start, Home.PAGE_SIZE; simpl; lia.
Defined.

(** X18. Whatever is clicked and however the calls of [loadPage] settle,
    in whatever order, the page shown and the pages asked for are numbered
    one or higher. *)
Theorem page_numbers_positive es : pager_ok (Home.after es).
Proof. apply fold_react_ok. apply connected_ok. Qed.

(** X19. When a call of [loadPage] fails, or its result has no count, the
    component says that there are no conversations and disables [Next]. *)
Theorem failed_load_shows_none es k n o :
  nth_error (Home.inflight (Home.after es)) k = Some n ->
  o = Home.FailedBefore \/ o = Home.FailedAfter \/ o = Home.Loaded None ->
  let p := Home.page (Home.after (es ++ [Home.Settle k o])) in
  Home.pageInfo p = str "No conversations" /\
  Home.nextButtonDisabled p = true.
Proof.
  intros Hk Ho p.
  assert (Hok : pager_ok (Home.after (es ++ [Home.Settle k o])))
    by (apply fold_react_ok, connected_ok).
  destruct Hok as [H1 _]. fold p in H1.
  assert (Ht : Home.totalCount p = 0%Z).
  { subst p. unfold Home.after. rewrite fold_left_app. cbn [fold_left Home.react].
    fold (Home.after es). rewrite Hk. cbn [Home.page].
    destruct Ho as [->|[->| ->]]; reflexivity. }
  split.
  - unfold Home.pageInfo. rewrite Ht. reflexivity.
  - unfold Home.nextButtonDisabled. apply negb_true_iff.
    destruct (Home.hasNextPage p) eqn:E; [|reflexivity].
    apply hasNextPage_lt in E. lia.
Qed.

Lemma failed_load_shows_none_witness :
  let p := Home.page (Home.after [Home.Settle 0 Home.FailedBefore]) in
  Home.pageInfo p = str "No conversations" /\
  Home.nextButtonDisabled p = true.
Proof.
  apply (failed_load_shows_none [] 0 1%Z Home.FailedBefore).
  - reflexivity.
  - left. reflexivity.
Defined.

(** X20. In both components [reduceErrors] gives a text that is not empty,
    but for an array without an element that counts, and for an object
    whose body has no message and whose first page error has none. *)
Theorem reduce_errors_text errors :
  truthy (Home.reduceErrors errors) = negb (textless errors) /\
  truthy (AgentGPT.reduceErrors errors) = negb (textless errors).
Proof.
  destruct errors as [|[|c s]|l|o]; try (split; reflexivity).
  - unfold Home.reduceErrors, AgentGPT.reduceErrors, textless.
    rewrite (joined_text Home.elem_message l home_elem_truthy).
    rewrite (joined_text AgentGPT.elem_message l agent_elem_truthy).
    rewrite negb_involutive. split; reflexivity.
  - rewrite agent_object_eq. split; apply home_object_text.
Qed.

(** X21. The two versions of [reduceErrors] give the same text for every
    argument that is no array, and for an array in which no element without
    a [message] has a [statusText]; for such an element with a message in
    its body they differ. *)
Theorem reduce_errors_versions_agree :
  (forall errors,
     same_priority errors = true ->
     AgentGPT.reduceErrors errors = Home.reduceErrors errors) /\
  AgentGPT.reduceErrors
    (EArray [ElObject (ErrorObject None (Some (str "Bad"))
                         (Some (ErrorBody (Some (str "Boom")) None)))])
  <> Home.reduceErrors
    (EArray [ElObject (ErrorObject None (Some (str "Bad"))
                         (Some (ErrorBody (Some (str "Boom")) None)))]).
Proof.
  split; [|discriminate].
  intros [|s|l|o] H; try reflexivity; [|apply agent_object_eq].
  unfold AgentGPT.reduceErrors, Home.reduceErrors. do 2 f_equal.
  unfold same_priority in H. induction l as [|e l IH]; [reflexivity|].
  simpl in H. apply andb_true_iff in H. destruct H as [He Hl].
  cbn [filter]. destruct (elem_truthy e); [|apply IH; assumption].
  cbn [map]. rewrite (elem_message_agree e He), (IH Hl). reflexivity.
Qed.

Lemma reduce_errors_versions_agree_witness :
  AgentGPT.reduceErrors
    (EArray [ElNull; ElObject (ErrorObject (Some (str "Down")) (Some (str "Bad")) None)])
  = Home.reduceErrors
    (EArray [ElNull; ElObject (ErrorObject (Some (str "Down")) (Some (str "Bad")) None)]).
Proof.
  apply (proj1 reduce_errors_versions_agree). reflexivity.
Defined.

(** X22. The keys of the messages of the overlay are pairwise distinct when
    no timestamp ends in a digit; with timestamps that end in digits two
    messages can get the same key. *)
Theorem overlay_keys_distinct up ft agent :
  (forall ms,
     forallb stamp_ok ms = true ->
     NoDup (map Home.key (Home.processMessagesForOverlay up ft (Some ms) agent))) /\
  ~ NoDup (map Home.key (Home.processMessagesForOverlay up ft
                      (Some (MessageIn None JNull None
                             :: MessageIn None JNull (Some (str "11"))
                             :: repeat (MessageIn None JNull None) 9
                             ++ [MessageIn None JNull (Some (str "1"))]))
                      agent)).
Proof.
  split.
  - intros ms H. apply keys_from_NoDup. assumption.
  - intros H. apply (NoDup_two _ 1 11 (str "111") H); [lia|reflexivity|reflexivity].
Qed.

Lemma overlay_keys_distinct_witness :
  NoDup (map Home.key (Home.processMessagesForOverlay (map to_upper) (fun _ => [])
                    (Some [MessageIn (Some (str "user")) (JStr (str "hi"))
                             (Some (str "2024-05-01T10:00:00Z"));
                           MessageIn (Some (str "agent")) (JStr (str "hello"))
                             (Some (str "2024-05-01T10:00:00Z"))])
                    None)).
Proof.
  apply (proj1 (overlay_keys_distinct (map to_upper) (fun _ => []) None)).
  reflexivity.
Defined.

(** X23. The two components agree on who the user is, and they label a
    message alike when its role, in upper case, is one of [USER], [ENDUSER],
    [AGENT] and [SYSTEM]; a message of another role is labelled with the
    name of the agent in the overlay and with its role in upper case in the
    conversation view. *)
Theorem role_labels_agree
    (up : jsstring -> jsstring) (ft ft' : option jsstring -> jsstring)
    agent msg idx :
  up [] = [] -> (forall s, up (up s) = up s) ->
  let h := Home.overlay_message up ft agent msg idx in
  let a := AgentGPT.agent_message up ft' agent msg in
  Home.isUser h = AgentGPT.isUser a /\
  (known_role (role_of up msg) = true ->
   Home.roleLabel h = AgentGPT.roleLabel a) /\
  (known_role (role_of up msg) = false ->
   AgentGPT.roleLabel a = role_of up msg /\
   Home.roleLabel h = to_text (or_else agent (Some (str "Agentforce AI")))).
Proof.
  intros H0 Hi h a. subst h a.
  unfold Home.overlay_message, AgentGPT.agent_message, AgentGPT.getRoleLabel.
  cbn [Home.isUser AgentGPT.isUser Home.roleLabel AgentGPT.roleLabel].
  rewrite (home_role up msg H0).
  fold (role_of up msg). rewrite (role_of_upper up msg H0 Hi).
  unfold known_role.
  destruct (str_eqb (role_of up msg) (str "USER") ||
            str_eqb (role_of up msg) (str "ENDUSER")); cbn [orb].
  - split; [reflexivity|]. split; [reflexivity|discriminate].
  - split; [reflexivity|].
    destruct (str_eqb (role_of up msg) (str "AGENT") ||
              str_eqb (role_of up msg) (str "SYSTEM")).
    + split; [reflexivity|discriminate].
    + split; [discriminate|]. split; reflexivity.
Qed.

Lemma role_labels_agree_witness :
  let msg := MessageIn (Some (str "Agent")) (JStr (str "hi")) None in
  let h := Home.overlay_message (map to_upper) (fun _ => []) (Some (str "Ada")) msg 0 in
  let a := AgentGPT.agent_message (map to_upper) (fun _ => []) (Some (str "Ada")) msg in
  Home.isUser h = AgentGPT.isUser a /\ Home.roleLabel h = AgentGPT.roleLabel a.
Proof.
  intros msg h a.
  destruct (role_labels_agree (map to_upper) (fun _ => []) (fun _ => [])
              (Some (str "Ada")) msg 0 eq_refl map_to_upper_idem)
    as (H1 & H2 & _).
  split; [exact H1|apply H2; reflexivity].
Defined.

(** X25. Grouping by day loses no session and shows none twice: the sessions
    of the groups returned are the sessions of the component, each with its
    date and its style class, in some order; and no group returned is empty.
    The engine's [sort] is taken to reorder its array and nothing more. *)
Theorem grouped_sessions_partition
    (isToday isYesterday : option jsstring -> bool)
    (formatDate : option jsstring -> jsstring)
    (sort : list AgentGPT.session -> list AgentGPT.session)
    dateFilter sel ss :
  (forall l, Permutation (sort l) l) ->
  let gs := AgentGPT.groupedSessions isToday isYesterday formatDate sort
              dateFilter sel ss in
  Permutation (flat_map AgentGPT.sessions gs)
              (map (AgentGPT.sessionCopy formatDate sel) ss) /\
  Forall (fun g => AgentGPT.sessions g <> []) gs.
Proof.
  intros Hsort gs. subst gs. unfold AgentGPT.groupedSessions. cbv zeta.
  split; [|apply filter_nonempty].
  rewrite flat_map_nonempty. cbn [flat_map AgentGPT.sessions].
  rewrite app_nil_r.
  eapply Permutation_trans.
  { apply Permutation_app; [apply Hsort|].
    apply Permutation_app; apply Hsort. }
  apply (fold_deal_perm isToday isYesterday formatDate sel ss
           (AgentGPT.Groups [] [] [])).
Qed.

Lemma grouped_sessions_partition_witness :
  let a := AgentGPT.Session (str "a") (Some (str "T")) None [] in
  let b := AgentGPT.Session (str "b") (Some (str "O")) None [] in
  let gs := AgentGPT.groupedSessions
              (fun t => str_eqb (to_text t) (str "T")) (fun _ => false)
              (fun _ => str "May 1") (fun l => l) 30 (Some a) [b; a] in
  Permutation (flat_map AgentGPT.sessions gs)
    (map (AgentGPT.sessionCopy (fun _ => str "May 1") (Some a)) [b; a]) /\
  Forall (fun g => AgentGPT.sessions g <> []) gs.
Proof.
  intros a b.
  apply (grouped_sessions_partition
           (fun t => str_eqb (to_text t) (str "T")) (fun _ => false)
           (fun _ => str "May 1") (fun l => l) 30 (Some a) [b; a]).
  intros l. apply Permutation_refl.
Defined.

(** X26. Whatever pages are loaded and however the calls for titles settle,
    the cache holds no empty title and never the placeholder [Loading...];
    the filter of [generateMissingTitles] keeps no session that has an entry
    in the cache, and such a session is shown with its cached title when
    its page is loaded again.  The loop reads the cache in its filter only:
    when two runs overlap, a title is asked again for a session that has one
    in the cache by then. *)
Theorem title_cache_final :
  (forall es,
     let st := Home.current (fold_left Home.title_react es Home.title_start) in
     cache_ok st /\
     (forall s,
        In s (Home.needingTitles st) ->
        Home.cache_get (Home.titleCache st) (Home.t_sessionId s) = None) /\
     forall list s,
       In s (Home.shown (Home.sessions_loaded list st)) ->
       Home.cache_get (Home.titleCache st) (Home.t_sessionId s) <> None ->
       exists t,
         Home.cache_get (Home.titleCache st) (Home.t_sessionId s) = Some t /\
         Home.t_title s = Some t /\ final_title t) /\
  Home.calls (fold_left Home.title_react OVERLAP Home.title_start)
  = [(str "s1", false); (str "s1", false); (str "s2", false); (str "s2", true)].
Proof.
  split; [|vm_compute; reflexivity].
  intros es st.
  assert (Hok : cache_ok st) by (apply fold_title_react_ok; constructor).
  split; [exact Hok|]. split.
  { intros s Hin. unfold Home.needingTitles in Hin. apply filter_In in Hin.
    destruct Hin as [_ H].
    apply andb_true_iff in H. destruct H as [H _].
    apply andb_true_iff in H. destruct H as [H _].
    apply negb_true_iff in H.
    destruct (Home.cache_get (Home.titleCache st) (Home.t_sessionId s)) as [t|] eqn:E;
      [|reflexivity].
    destruct (cache_get_In _ _ _ E) as (k & Hk).
    unfold cache_ok in Hok. rewrite Forall_forall in Hok.
    destruct (Hok (k, t) Hk) as [Hne _]. cbn [snd] in Hne.
    destruct t; [congruence|discriminate]. }
  intros l s Hin Hc. unfold Home.sessions_loaded in Hin. cbn [Home.shown] in Hin.
  apply in_map_iff in Hin. destruct Hin as (s0 & <- & _).
  cbn [Home.t_sessionId Home.t_title] in *.
  destruct (Home.cache_get (Home.titleCache st) (Home.t_sessionId s0)) as [t|] eqn:E;
    [|congruence].
  destruct (cache_get_In _ _ _ E) as (k & Hk).
  assert (Hf : final_title t).
  { unfold cache_ok in Hok. rewrite Forall_forall in Hok. apply (Hok (k, t) Hk). }
  exists t. split; [reflexivity|]. split; [|exact Hf].
  unfold or_else. destruct t as [|c t']; [destruct Hf; congruence|reflexivity].
Qed.

Lemma title_cache_final_witness :
  let es := [Home.PageLoaded WAITING; Home.TitleSettled 0 Home.Thrown] in
  let st := Home.current (fold_left Home.title_react es Home.title_start) in
  let s := Home.Titled (str "s1") (Some (str "Untitled Conversation")) true in
  exists t,
    Home.cache_get (Home.titleCache st) (Home.t_sessionId s) = Some t /\
    Home.t_title s = Some t /\ final_title t.
Proof.
  intros es st s.
  apply (proj2 (proj2 (proj1 title_cache_final es)) WAITING s).
  - left. reflexivity.
  - discriminate.
Defined.

(** X27. A timestamp with a space between the date and the time, and no
    [T], is read as the timestamp with [T] in the place of its first space:
    [parseSessionDate] hands [new Date] the ISO form. *)
Theorem space_separated_as_iso (date : Type) (new_Date : jsstring -> option date)
    c a b :
  is_space c = false ->
  Home.has 32 (c :: a) = false ->
  Home.has 84 (c :: a ++ b) = false ->
  (forall d r, rev (c :: a ++ 32 :: b) = d :: r -> is_space d = false) ->
  Home.parseSessionDate date new_Date (Some (c :: a ++ 32 :: b))
  = new_Date (c :: a ++ 84 :: b).
Proof.
  intros Hc Hsp HT Hlast. unfold Home.parseSessionDate.
  rewrite (trim_fixed c (a ++ 32 :: b) Hc Hlast). f_equal.
  unfold Home.normalized.
  change (c :: a ++ 32 :: b) with ((c :: a) ++ 32 :: b).
  change (c :: a ++ b) with ((c :: a) ++ b) in HT.
  rewrite has_app in HT. apply orb_false_iff in HT. destruct HT as [HTa HTb].
  replace (Home.has 32 ((c :: a) ++ 32 :: b)) with true
    by (rewrite has_app; simpl; rewrite orb_true_r; reflexivity).
  replace (Home.has 84 ((c :: a) ++ 32 :: b)) with false
    by (rewrite has_app, HTa; simpl; rewrite HTb; reflexivity).
  cbn [negb andb]. apply (replace_first_skip 32 84 (c :: a) b Hsp).
Qed.

Lemma space_separated_as_iso_witness :
  Home.parseSessionDate nat (fun s => Some (length s))
    (Some (str "2024-05-01 10:30:00"))
  = Some (length (str "2024-05-01T10:30:00")).
Proof.
  apply (space_separated_as_iso nat (fun s => Some (length s)) 50
           (str "024-05-01") (str "10:30:00")); try reflexivity.
  intros d r E. inversion E. reflexivity.
Defined.

(** X28. What [parseSessionDate] hands to [new Date] has a [T] whenever it
    has a space, is as long as the trimmed timestamp, and is left as it is
    by a second normalization. *)
Theorem normalized_timestamp s :
  (Home.has 32 (Home.normalized s) = true ->
   Home.has 84 (Home.normalized s) = true) /\
  length (Home.normalized s) = length s /\
  Home.normalized (Home.normalized s) = Home.normalized s.
Proof.
  split; [apply normalized_has_T|]. split.
  - unfold Home.normalized. destruct (_ && _); [apply replace_first_length|reflexivity].
  - pose proof (normalized_has_T s) as H.
    unfold Home.normalized at 1.
    destruct (Home.has 32 (Home.normalized s)); [|reflexivity].
    rewrite (H eq_refl). reflexivity.
Qed.

Lemma normalized_timestamp_witness :
  Home.has 84 (Home.normalized (str "2024-05-01 10:30:00 pm")) = true.
Proof.
  apply (proj1 (normalized_timestamp (str "2024-05-01 10:30:00 pm"))).
  reflexivity.
Defined.
